(** * A download task manager: model and verification

    The development follows the Go packages of the service:
    - [internal/model]: the records [FileState] and [Task];
    - [internal/manager]: the [Manager] with its task map, its buffered job
      channel and the functions [NewManager], [AddTask], [enqueueJob],
      [GetTask], [processJob], [updateFileState], [writeSnapshot] and
      [LoadFromSnapshot], the loop of a worker of [StartWorkers], and the
      mutex as far as [enqueueJob] holds it across its send;
    - [internal/download]: [DeriveFileName] and [DownloadWithContext];
    - [internal/util]: [GenerateID];
    - [internal/api]: the create-task and the get-task handler;
    - the script of the page: the test that ends polling and
      [translateStatus].

    Go pointers are modelled explicitly.  A [*model.Task] is a location in a
    heap of task structs, and the [Files] slice of a task is a location in a
    heap of backing arrays, so that sharing between the manager's map and the
    values handed out to callers can be expressed and ruled out. *)

From stdpp Require Import base gmap strings list pretty.
From Stdlib Require Import ZArith Lia Ascii.

Open Scope string_scope.
Open Scope list_scope.

(** ** Package model *)

(** [time.Time], an abstract instant. *)
Definition time_Time : Type := Z.

(** Heap locations (pointers). *)
Definition loc : Type := positive.

Module FileState.
Record t : Type := mk { URL : string; Status : string; Error : string }.

Definition set_Status (v : string) (f : t) : t := mk (URL f) v (Error f).
Definition set_Error (v : string) (f : t) : t := mk (URL f) (Status f) v.
End FileState.

Module Task.
(** [Files] is a slice: a pointer to its backing array, whose length is the
    length of the slice (the manager never appends to it). *)
Record t : Type := mk {
  ID : string;
  Files : loc;
  Status : string;
  CreatedAt : time_Time;
  UpdatedAt : time_Time }.

Definition set_Files (v : loc) (x : t) : t :=
  mk (ID x) v (Status x) (CreatedAt x) (UpdatedAt x).
Definition set_Status (v : string) (x : t) : t :=
  mk (ID x) (Files x) v (CreatedAt x) (UpdatedAt x).
Definition set_UpdatedAt (v : time_Time) (x : t) : t :=
  mk (ID x) (Files x) (Status x) (CreatedAt x) v.
End Task.

(** A task as it appears in the JSON snapshot: the [Files] array by value. *)
Record TaskDoc : Type := mkTaskDoc {
  doc_ID : string;
  doc_Files : list FileState.t;
  doc_Status : string;
  doc_CreatedAt : time_Time;
  doc_UpdatedAt : time_Time }.

(** ** Package manager: state *)

(** [FileIndex] is a Go [int]; it is only ever compared, never computed
    with. *)
Record Job : Type := mkJob { TaskID : string; FileIndex : Z }.

(** The state a manager function runs in: the fields of the single [Manager]
    of the process ([tasks], the buffered contents [jobs] of the channel and
    its capacity [queueSize], [draining]), the heap ([taskObjs],
    [fileArrays]) and the clock.  [clock n] is the instant returned by the
    [n]-th call of [time.Now]; [ticks] counts the calls made so far.  The
    mutex [mu] is modelled by running each locked region as one function;
    the wait group [wg] guards no data and is left out. *)
Record World : Type := mkWorld {
  tasks : gmap string loc;
  jobs : list Job;
  queueSize : nat;
  draining : bool;
  taskObjs : gmap loc Task.t;
  fileArrays : gmap loc (list FileState.t);
  clock : nat → time_Time;
  ticks : nat }.

Definition set_tasks (v : gmap string loc) (w : World) : World :=
  mkWorld v (jobs w) (queueSize w) (draining w) (taskObjs w) (fileArrays w)
          (clock w) (ticks w).
Definition set_jobs (v : list Job) (w : World) : World :=
  mkWorld (tasks w) v (queueSize w) (draining w) (taskObjs w) (fileArrays w)
          (clock w) (ticks w).
Definition set_taskObjs (v : gmap loc Task.t) (w : World) : World :=
  mkWorld (tasks w) (jobs w) (queueSize w) (draining w) v (fileArrays w)
          (clock w) (ticks w).
Definition set_fileArrays (v : gmap loc (list FileState.t)) (w : World) : World :=
  mkWorld (tasks w) (jobs w) (queueSize w) (draining w) (taskObjs w) v
          (clock w) (ticks w).
Definition set_ticks (v : nat) (w : World) : World :=
  mkWorld (tasks w) (jobs w) (queueSize w) (draining w) (taskObjs w)
          (fileArrays w) (clock w) v.

(** How a call ends: it returns a value, it parks for ever on a send to the
    full channel (no receiver runs inside a call), or it panics on a nil or
    dangling pointer or on an index out of range. *)
Inductive result (A : Type) : Type :=
| Returns (a : A) (w : World)
| Blocks (w : World)
| Panics.
Arguments Returns {A} a w.
Arguments Blocks {A} w.
Arguments Panics {A}.

Definition bind {A B : Type} (r : result A) (k : A → World → result B) : result B :=
  match r with
  | Returns a w => k a w
  | Blocks w => Blocks w
  | Panics => Panics
  end.

(** [for _, x := range l { body }] *)
Fixpoint forEach {A : Type} (body : A → World → result unit) (l : list A)
    (w : World) : result unit :=
  match l with
  | [] => Returns () w
  | x :: rest => bind (body x w) (λ _ w', forEach body rest w')
  end.

(** [time.Now().UTC()] *)
Definition time_Now (w : World) : time_Time * World :=
  (clock w (ticks w), set_ticks (S (ticks w)) w).

(** Allocation of a backing array and of a task struct. *)
Definition new_array (fs : list FileState.t) (w : World) : loc * World :=
  let a := fresh (dom (fileArrays w)) in
  (a, set_fileArrays (<[a := fs]> (fileArrays w)) w).

Definition new_task (x : Task.t) (w : World) : loc * World :=
  let p := fresh (dom (taskObjs w)) in
  (p, set_taskObjs (<[p := x]> (taskObjs w)) w).

(** [m.jobs <- j] *)
Definition send (j : Job) (w : World) : result unit :=
  if decide (length (jobs w) < queueSize w)
  then Returns () (set_jobs (jobs w ++ [j]) w)
  else Blocks w.

(** A process before [main] runs: nothing allocated, no manager fields. *)
Definition boot (clk : nat → time_Time) : World :=
  mkWorld ∅ [] 0 false ∅ ∅ clk 0.

(** ** Package manager: functions *)

Definition NewManager (queueSize : nat) (w : World) : World :=
  mkWorld ∅ [] queueSize false (taskObjs w) (fileArrays w) (clock w) (ticks w).

(** The loop of [updateFileState] over [task.Files], one iteration. *)
Definition scanFile (acc : bool * bool) (f : FileState.t) : bool * bool :=
  let '(allDone, anyErrors) := acc in
  (if String.eqb (FileState.Status f) "completed" then allDone else false,
   if String.eqb (FileState.Status f) "error" then true else anyErrors).

(** The status [updateFileState] stores after its loop. *)
Definition aggregateStatus (files : list FileState.t) : string :=
  let '(allDone, anyErrors) := foldl scanFile (true, false) files in
  if allDone
  then if anyErrors then "completed_with_errors" else "completed"
  else "in‑progress".

(** [index < 0 || index >= len(files)] *)
Definition outOfRange (index : Z) (files : list FileState.t) : bool :=
  (index <? 0)%Z || (Z.of_nat (length files) <=? index)%Z.

Definition enqueueJob (taskID : string) (fileIndex : Z) (w : World) : result unit :=
  match tasks w !! taskID with
  | None => Returns () w
  | Some p =>
    match taskObjs w !! p with
    | None => Panics
    | Some task =>
      match fileArrays w !! Task.Files task with
      | None => Panics
      | Some files =>
        if outOfRange fileIndex files then Returns () w
        else
          match files !! Z.to_nat fileIndex with
          | None => Panics
          | Some f =>
            if String.eqb (FileState.Status f) "completed" then Returns () w
            else
              let files1 := alter (FileState.set_Status "pending") (Z.to_nat fileIndex) files in
              let w1 := set_fileArrays (<[Task.Files task := files1]> (fileArrays w)) w in
              let '(now, w2) := time_Now w1 in
              let w3 := set_taskObjs (<[p := Task.set_UpdatedAt now task]> (taskObjs w2)) w2 in
              send (mkJob taskID fileIndex) w3
          end
      end
    end
  end.

(** The part of [AddTask] from [time.Now] to the end of its locked region:
    the files and the task are allocated and the task is put in the map.
    [id] is the value returned by [util.GenerateID]. *)
Definition registerTask (id : string) (urls : list string) (w : World) : loc * World :=
  let '(now, w1) := time_Now w in
  let '(files, w2) := new_array ((λ u, FileState.mk u "pending" "") <$> urls) w1 in
  let '(t, w3) := new_task (Task.mk id files "pending" now now) w2 in
  (t, set_tasks (<[id := t]> (tasks w3)) w3).

(** The result is [(t, nil)], written [inl t], or [(nil, err)], written
    [inr err].  The loop passes [t.ID], which is [id]. *)
Definition AddTask (id : string) (urls : list string) (w : World)
    : result (loc + string) :=
  if decide (length urls = 0) then
    Returns (inr "task must contain at least one URL") w
  else
    let '(t, w1) := registerTask id urls w in
    if draining w1 then Returns (inl t) w1
    else
      bind (forEach (λ idx, enqueueJob id (Z.of_nat idx)) (seq 0 (length urls)) w1)
           (λ _ w2, Returns (inl t) w2).

(** [copy(dst, src)] on arrays. *)
Definition copy_slice (dst src : list FileState.t) : list FileState.t :=
  take (length dst) src ++ drop (length src) dst.

(** [copyTask := *t], then a fresh [Files] array of the same length, then
    [copy].  The result is [(&copyTask, true)], written [Some], or
    [(nil, false)], written [None]. *)
Definition GetTask (id : string) (w : World) : result (option loc) :=
  match tasks w !! id with
  | None => Returns None w
  | Some p =>
    match taskObjs w !! p with
    | None => Panics
    | Some t =>
      let '(copyTask, w1) := new_task t w in
      match fileArrays w1 !! Task.Files t with
      | None => Panics
      | Some files =>
        let zeroed := replicate (length files) (FileState.mk "" "" "") in
        let '(a, w2) := new_array zeroed w1 in
        let w3 := set_taskObjs (<[copyTask := Task.set_Files a t]> (taskObjs w2)) w2 in
        let w4 := set_fileArrays (<[a := copy_slice zeroed files]> (fileArrays w3)) w3 in
        Returns (Some copyTask) w4
      end
    end
  end.

Definition updateFileState (taskID : string) (index : Z) (status errMsg : string)
    (w : World) : result unit :=
  match tasks w !! taskID with
  | None => Returns () w
  | Some p =>
    match taskObjs w !! p with
    | None => Panics
    | Some task =>
      match fileArrays w !! Task.Files task with
      | None => Panics
      | Some files =>
        if outOfRange index files then Returns () w
        else
          let i := Z.to_nat index in
          let files1 := alter (FileState.set_Status status) i files in
          let files2 := alter (FileState.set_Error errMsg) i files1 in
          let w1 := set_fileArrays (<[Task.Files task := files2]> (fileArrays w)) w in
          let '(now, w2) := time_Now w1 in
          let task1 := Task.set_UpdatedAt now task in
          let task2 := Task.set_Status (aggregateStatus files2) task1 in
          Returns () (set_taskObjs (<[p := task2]> (taskObjs w2)) w2)
      end
    end
  end.

(** The first locked region of [processJob].  [Some url] when the job is to
    be downloaded, [None] when it is dropped. *)
Definition processJob_begin (job : Job) (w : World) : result (option string) :=
  match tasks w !! TaskID job with
  | None => Returns None w
  | Some p =>
    match taskObjs w !! p with
    | None => Panics
    | Some task =>
      match fileArrays w !! Task.Files task with
      | None => Panics
      | Some files =>
        if outOfRange (FileIndex job) files then Returns None w
        else
          match files !! Z.to_nat (FileIndex job) with
          | None => Panics
          | Some f =>
            if String.eqb (FileState.Status f) "completed" then Returns None w
            else
              let files1 := alter (FileState.set_Status "in‑progress")
                                  (Z.to_nat (FileIndex job)) files in
              let w1 := set_fileArrays (<[Task.Files task := files1]> (fileArrays w)) w in
              let '(now, w2) := time_Now w1 in
              let task1 := Task.set_UpdatedAt now task in
              let task2 := Task.set_Status "in‑progress" task1 in
              Returns (Some (FileState.URL f))
                      (set_taskObjs (<[p := task2]> (taskObjs w2)) w2)
          end
      end
    end
  end.

(** [mkdirErr] and [downloadErr] are the errors of [os.MkdirAll] and of
    [download.DownloadWithContext] ([None] for [nil]); the destination path
    only feeds the downloader. *)
Definition processJob (job : Job) (mkdirErr downloadErr : option string)
    (w : World) : result unit :=
  bind (processJob_begin job w) (λ started w1,
    match started with
    | None => Returns () w1
    | Some fileURL =>
      match mkdirErr with
      | Some err => updateFileState (TaskID job) (FileIndex job) "error" err w1
      | None =>
        match downloadErr with
        | Some err => updateFileState (TaskID job) (FileIndex job) "error" err w1
        | None => updateFileState (TaskID job) (FileIndex job) "completed" "" w1
        end
      end
    end).

(** [job := <-m.jobs], when the channel holds a job. *)
Definition receive (w : World) : option (Job * World) :=
  match jobs w with
  | [] => None
  | job :: rest => Some (job, set_jobs rest w)
  end.

(** One turn of the loop of a worker started by [StartWorkers] in which a
    job is received: the job is taken from the channel and processed.  With
    an empty channel the worker waits. *)
Definition workerTurn (mkdirErr downloadErr : option string) (w : World)
    : result unit :=
  match receive w with
  | None => Blocks w
  | Some (job, w1) => processJob job mkdirErr downloadErr w1
  end.

(** [json.Decode] into a [map[string]*model.Task]: every entry gets a fresh
    struct and a fresh array.  The entries are listed in the order in which
    the [range] statement of [LoadFromSnapshot] visits the map, which Go
    leaves open.  Every entry is a JSON object, as in the files
    [writeSnapshot] writes; a [null] entry is not modelled. *)
Fixpoint decode (entries : list (string * TaskDoc)) (w : World)
    : list (string * loc) * World :=
  match entries with
  | [] => ([], w)
  | (id, d) :: rest =>
    let '(a, w1) := new_array (doc_Files d) w in
    let '(p, w2) := new_task (Task.mk (doc_ID d) a (doc_Status d)
                                      (doc_CreatedAt d) (doc_UpdatedAt d)) w1 in
    let '(ps, w3) := decode rest w2 in
    ((id, p) :: ps, w3)
  end.

(** One iteration of [for idx, fs := range task.Files]. *)
Definition requeueFile (id : string) (a : loc) (idx : nat) (w : World) : result unit :=
  match fileArrays w !! a with
  | None => Panics
  | Some files =>
    match files !! idx with
    | None => Panics
    | Some fs =>
      if String.eqb (FileState.Status fs) "completed" then Returns () w
      else
        let files1 := alter (FileState.set_Status "pending") idx files in
        let files2 := alter (FileState.set_Error "") idx files1 in
        send (mkJob id (Z.of_nat idx))
             (set_fileArrays (<[a := files2]> (fileArrays w)) w)
    end
  end.

(** One iteration of [for id, task := range tasks]. *)
Definition loadTask (now : time_Time) (entry : string * loc) (w : World) : result unit :=
  let '(id, p) := entry in
  let w1 := set_tasks (<[id := p]> (tasks w)) w in
  match taskObjs w1 !! p with
  | None => Panics
  | Some task =>
    let w2 := set_taskObjs (<[p := Task.set_UpdatedAt now task]> (taskObjs w1)) w1 in
    match fileArrays w2 !! Task.Files task with
    | None => Panics
    | Some files =>
      bind (forEach (requeueFile id (Task.Files task)) (seq 0 (length files)) w2)
           (λ _ w3,
              match taskObjs w3 !! p with
              | None => Panics
              | Some task' =>
                Returns () (set_taskObjs
                              (<[p := Task.set_Status "in‑progress" task']> (taskObjs w3)) w3)
              end)
    end
  end.

(** [snapshot] is [None] when the file cannot be opened or decoded, and the
    decoded entries otherwise. *)
Definition LoadFromSnapshot (snapshot : option (list (string * TaskDoc)))
    (w : World) : result unit :=
  match snapshot with
  | None => Returns () w
  | Some entries =>
    let '(loaded, w1) := decode entries w in
    let '(now, w2) := time_Now w1 in
    forEach (loadTask now) loaded w2
  end.

(** ** Observing the heap *)

(** The task struct at [p] together with the contents of its [Files]. *)
Definition deref (w : World) (p : loc) : option (Task.t * list FileState.t) :=
  match taskObjs w !! p with
  | None => None
  | Some t =>
    match fileArrays w !! Task.Files t with
    | None => None
    | Some files => Some (t, files)
    end
  end.

(** The task stored under [id], by value. *)
Definition stored (w : World) (id : string) : option (Task.t * list FileState.t) :=
  match tasks w !! id with
  | None => None
  | Some p => deref w p
  end.

(** The world a call ends in, returned or parked. *)
Definition world_of {A : Type} (r : result A) : option World :=
  match r with
  | Returns _ w => Some w
  | Blocks w => Some w
  | Panics => None
  end.

(** ** Package download *)

(** [net/url.URL]; [DeriveFileName] reads only [Path]. *)
Record URL : Type := mkURL { Path : string }.

(** [strings.Split(s, sep)] for a separator of one byte.  The result is
    never empty, so the branch for [[]] is not taken. *)
Fixpoint strings_Split (s : string) (sep : ascii) : list string :=
  match s with
  | EmptyString => [""]
  | String c rest =>
    if Ascii.eqb c sep then "" :: strings_Split rest sep
    else
      match strings_Split rest sep with
      | [] => [String c ""]
      | seg :: segs => String c seg :: segs
      end
  end.

(** [strings.Index(s, sep)] for a separator of one byte; [-1] when absent. *)
Fixpoint strings_Index (s : string) (sep : ascii) : Z :=
  match s with
  | EmptyString => (-1)%Z
  | String c rest =>
    if Ascii.eqb c sep then 0%Z
    else
      let i := strings_Index rest sep in
      if (i <? 0)%Z then (-1)%Z else (i + 1)%Z
  end.

(** [fmt.Sprintf("file_%d", index)] *)
Definition fallbackName (index : Z) : string := "file_" +:+ pretty index.

Section download.
(** [url.Parse] of the Go library; [None] stands for a non-nil error. *)
Variable url_Parse : string → option URL.

Definition DeriveFileName (rawURL : string) (index : Z) : string :=
  match url_Parse rawURL with
  | None => fallbackName index
  | Some u =>
    if bool_decide (Path u = "") || bool_decide (Path u = "/") then fallbackName index
    else
      let segments := strings_Split (Path u) "/" in
      let name := List.last segments "" in
      let i := strings_Index name "?" in
      let name := if bool_decide (i ≠ (-1)%Z) then String.substring 0 (Z.to_nat i) name else name in
      if bool_decide (name = "") then fallbackName index else name
  end.
End download.

(** ** Package api *)

Section api.
(** [strings.TrimSpace] of the Go library. *)
Variable strings_TrimSpace : string → string.

(** The loop of the create-task handler that builds [clean]. *)
Definition cleanURLs (urls : list string) : list string :=
  foldl (λ clean s,
           let s := strings_TrimSpace s in
           if bool_decide (s ≠ "") then clean ++ [s] else clean)
        [] urls.

(** The handler from the decoded request to the call of [AddTask]. *)
Definition createTask (id : string) (urls : list string) (w : World)
    : result (loc + string) :=
  AddTask id (cleanURLs urls) w.
End api.

(** A reading of [url.Parse] for absolute URLs of the shape
    [scheme://authority/path?query#fragment] without percent escapes: the
    path is what lies between the authority and the first of "?" and "#". *)
Fixpoint upTo (stop : ascii → bool) (s : string) : string :=
  match s with
  | EmptyString => ""
  | String c rest => if stop c then "" else String c (upTo stop rest)
  end.

Fixpoint startingAt (stop : ascii → bool) (s : string) : string :=
  match s with
  | EmptyString => ""
  | String c rest => if stop c then s else startingAt stop rest
  end.

Definition url_Parse_simple (rawURL : string) : option URL :=
  let hier := upTo (λ c, Ascii.eqb c "?" || Ascii.eqb c "#") rawURL in
  match startingAt (λ c, Ascii.eqb c ":") hier with
  | String _ (String "/" (String "/" rest)) =>
    Some (mkURL (startingAt (λ c, Ascii.eqb c "/") rest))
  | _ => None
  end.

(** ** Words of the specification *)

(** The byte [c] occurs in [s]. *)
Fixpoint occurs (c : ascii) (s : string) : Prop :=
  match s with
  | EmptyString => False
  | String c' rest => c' = c ∨ occurs c rest
  end.

(** [strings.Join(l, sep)] for a separator of one byte. *)
Fixpoint join (sep : ascii) (l : list string) : string :=
  match l with
  | [] => ""
  | [x] => x
  | x :: rest => x +:+ String sep (join sep rest)
  end.

(** [seg] is the last segment of [path]: the part after the last "/", or
    the whole of [path] when it has none. *)
Definition lastSegment (path seg : string) : Prop :=
  ¬ occurs "/" seg ∧ (path = seg ∨ ∃ pre, path = pre +:+ String "/" seg).

(** [name] is [seg] with its query string stripped: the part before the
    first "?", or the whole of [seg] when it has none. *)
Definition queryStripped (seg name : string) : Prop :=
  ¬ occurs "?" name ∧ (seg = name ∨ ∃ query, seg = name +:+ String "?" query).

(** The derivation rule of the specification as a function of the current
    statuses, with "in-progress" spelled as the specification spells it.
    Its clauses are read in order: any file that is not completed gives
    "in-progress", and a file in state "error" is not completed. *)
Definition derivedStatus (files : list FileState.t) : string :=
  if existsb (λ f, negb (String.eqb (FileState.Status f) "completed")) files
  then "in-progress"
  else if existsb (λ f, String.eqb (FileState.Status f) "error") files
       then "completed_with_errors"
       else "completed".

(** A file is in a terminal state. *)
Definition terminal (f : FileState.t) : Prop :=
  FileState.Status f = "completed" ∨ FileState.Status f = "error".

(** ** Well-formed heaps *)

(** Stored pointers are allocated, every task struct points to an allocated
    array, no two ids share a struct and no two structs share an array. *)
Record wf (w : World) : Prop := mk_wf {
  wf_stored : ∀ id p, tasks w !! id = Some p → is_Some (taskObjs w !! p);
  wf_files : ∀ p t, taskObjs w !! p = Some t → is_Some (fileArrays w !! Task.Files t);
  wf_inj : ∀ id1 id2 p, tasks w !! id1 = Some p → tasks w !! id2 = Some p → id1 = id2;
  wf_own : ∀ p1 p2 t1 t2,
      taskObjs w !! p1 = Some t1 → taskObjs w !! p2 = Some t2 →
      Task.Files t1 = Task.Files t2 → p1 = p2 }.

(** [w'] is [w] with the struct at [p] overwritten by [task'] and its array
    by [files']; the slice header is kept. *)
Definition overwrites (w w' : World) (p : loc) (task' : Task.t)
    (files' : list FileState.t) : Prop :=
  ∃ task,
    taskObjs w !! p = Some task ∧
    Task.Files task' = Task.Files task ∧
    tasks w' = tasks w ∧
    taskObjs w' = <[p := task']> (taskObjs w) ∧
    fileArrays w' = <[Task.Files task := files']> (fileArrays w).

(** [w'] differs from [w] outside the map and the heap only. *)
Definition same_heap (w w' : World) : Prop :=
  tasks w' = tasks w ∧ taskObjs w' = taskObjs w ∧ fileArrays w' = fileArrays w.

(** [w'] is [w] with a new struct [task] at [p] and a new array [files]. *)
Definition allocates (w w' : World) (p : loc) (task : Task.t)
    (files : list FileState.t) : Prop :=
  taskObjs w !! p = None ∧ fileArrays w !! Task.Files task = None ∧
  tasks w' = tasks w ∧
  taskObjs w' = <[p := task]> (taskObjs w) ∧
  fileArrays w' = <[Task.Files task := files]> (fileArrays w).

(** [w'] is [w] with [m.tasks[id] = p]. *)
Definition stores (w w' : World) (id : string) (p : loc) : Prop :=
  tasks w' = <[id := p]> (tasks w) ∧ taskObjs w' = taskObjs w ∧
  fileArrays w' = fileArrays w.

(** A function working on the task stored under [id] leaves the heap alone
    or overwrites that task in place. *)
Definition touches (id : string) (w w' : World) : Prop :=
  same_heap w w' ∨
  ∃ p task' files', tasks w !! id = Some p ∧ overwrites w w' p task' files'.

(** A struct that is allocated but not in the manager's map, such as the
    copy [GetTask] hands out. *)
Definition private (w : World) (q : loc) : Prop :=
  is_Some (taskObjs w !! q) ∧ ∀ id, tasks w !! id ≠ Some q.

(** What is private in [w0] is still private in [w] and reads the same. *)
Definition frame (w0 w : World) : Prop :=
  ∀ q, private w0 q → private w q ∧ deref w q = deref w0 q.

(** [w] comes after [w0]: it is well formed, what was private is left
    alone and what was allocated still is. *)
Record evolves (w0 w : World) : Prop := mk_evolves {
  ev_wf : wf w;
  ev_frame : frame w0 w;
  ev_structs : ∀ q, is_Some (taskObjs w0 !! q) → is_Some (taskObjs w !! q);
  ev_arrays : ∀ a, is_Some (fileArrays w0 !! a) → is_Some (fileArrays w !! a) }.

(** ** The manager as a transition system *)

(** One step is one locked region of the manager, or one receive from the
    channel by a worker.  [AddTask] is [registerTask] followed by calls of
    [enqueueJob]; [processJob] is [processJob_begin] followed by one of the
    two calls of [updateFileState] it makes.  Steps of different goroutines
    interleave freely. *)
Inductive step : World → World → Prop :=
| step_register id urls w :
    urls ≠ [] → step w (registerTask id urls w).2
| step_enqueue id idx w w' :
    enqueueJob id idx w = Returns () w' → step w w'
| step_receive job rest w :
    jobs w = job :: rest → step w (set_jobs rest w)
| step_begin job started w w' :
    processJob_begin job w = Returns started w' → step w w'
| step_failed id idx err w w' :
    updateFileState id idx "error" err w = Returns () w' → step w w'
| step_completed id idx w w' :
    updateFileState id idx "completed" "" w = Returns () w' → step w w'
| step_get id copy w w' :
    GetTask id w = Returns copy w' → step w w'
| step_load snapshot w w' :
    LoadFromSnapshot snapshot w = Returns () w' → step w w'.

(** The worlds the process can be in: [main] creates the manager, then the
    goroutines take steps. *)
Definition reachable (w : World) : Prop :=
  ∃ clk size, rtc step (NewManager size (boot clk)) w.

(** ** LoadFromSnapshot in closed form *)

(** What the inner loop of [LoadFromSnapshot] makes of one file. *)
Definition resetFile (f : FileState.t) : FileState.t :=
  if String.eqb (FileState.Status f) "completed" then f
  else FileState.set_Error "" (FileState.set_Status "pending" f).

(** The jobs the inner loop sends for the files [files], the first of which
    has index [start]. *)
Fixpoint requeued (id : string) (start : nat) (files : list FileState.t) : list Job :=
  match files with
  | [] => []
  | f :: rest =>
    if String.eqb (FileState.Status f) "completed" then requeued id (S start) rest
    else mkJob id (Z.of_nat start) :: requeued id (S start) rest
  end.

(** The sends of [sent] go through in [w]: there are none, or the channel
    has room for all of them. *)
Definition fits (w : World) (sent : list Job) : Prop :=
  sent = [] ∨ (length (jobs w) + length sent ≤ queueSize w)%nat.

(** A decoded snapshot entry with the struct and the array allocated for
    it. *)
Record Decoded : Type := mkDecoded {
  dec_id : string;
  dec_ptr : loc;
  dec_arr : loc;
  dec_doc : TaskDoc }.

(** The struct [json.Decode] allocates for an entry. *)
Definition decodedTask (e : Decoded) : Task.t :=
  Task.mk (doc_ID (dec_doc e)) (dec_arr e) (doc_Status (dec_doc e))
          (doc_CreatedAt (dec_doc e)) (doc_UpdatedAt (dec_doc e)).

(** The entry is in the heap as decoded. *)
Definition decoded_in (w : World) (e : Decoded) : Prop :=
  taskObjs w !! dec_ptr e = Some (decodedTask e) ∧
  fileArrays w !! dec_arr e = Some (doc_Files (dec_doc e)).

(** The task struct [loadTask] leaves behind. *)
Definition loadedTask (now : time_Time) (e : Decoded) : Task.t :=
  Task.mk (doc_ID (dec_doc e)) (dec_arr e) "in‑progress"
          (doc_CreatedAt (dec_doc e)) now.

(** The world [loadTask] leaves behind when its sends go through. *)
Definition loadOne (now : time_Time) (w : World) (e : Decoded) : World :=
  mkWorld (<[dec_id e := dec_ptr e]> (tasks w))
          (jobs w ++ requeued (dec_id e) 0 (doc_Files (dec_doc e)))
          (queueSize w) (draining w)
          (<[dec_ptr e := loadedTask now e]> (taskObjs w))
          (<[dec_arr e := resetFile <$> doc_Files (dec_doc e)]> (fileArrays w))
          (clock w) (ticks w).

(** The jobs the outer loop sends for the decoded entries [l]. *)
Definition requeuedAll (l : list Decoded) : list Job :=
  flat_map (λ e, requeued (dec_id e) 0 (doc_Files (dec_doc e))) l.

Global Instance Job_eq_dec : EqDecision Job.
Proof. solve_decision. Defined.

(** How many times [job] is in [sent]. *)
Definition timesSent (job : Job) (sent : list Job) : nat :=
  length (filter (λ j, j = job) sent).

(** The jobs [LoadFromSnapshot] sends for the entries of a snapshot. *)
Definition sentBy (entries : list (string * TaskDoc)) : list Job :=
  flat_map (λ e, requeued e.1 0 (doc_Files e.2)) entries.

(** ** Status values *)

(** The file and task statuses of the manager; "in‑progress" is written with
    the non-breaking hyphen U+2011 (bytes E2 80 91), as in the Go source. *)
Definition fileStatuses : list string :=
  ["pending"; "in‑progress"; "completed"; "error"].
Definition taskStatuses : list string :=
  ["pending"; "in‑progress"; "completed"; "completed_with_errors"].

(** The enumerations of the specification; "in-progress" is written with the
    ASCII hyphen (byte 2D). *)
Definition specFileStatuses : list string :=
  ["pending"; "in-progress"; "completed"; "error"].
Definition specTaskStatuses : list string :=
  ["pending"; "in-progress"; "completed"; "completed_with_errors"].

(** The statuses of a task and of its files are of the two lists. *)
Definition statuses_ok (t : Task.t) (files : list FileState.t) : Prop :=
  Task.Status t ∈ taskStatuses ∧
  Forall (λ f, FileState.Status f ∈ fileStatuses) files.

(** Every task of the store has statuses of the two lists. *)
Definition store_ok (w : World) : Prop :=
  ∀ id t files, stored w id = Some (t, files) → statuses_ok t files.

(** ** Callers of GetTask *)

(** The caller assigns to the fields of the task it was handed and to the
    elements of that task's [Files]. *)
Definition caller_writes (copy : loc) (t : Task.t) (files : list FileState.t)
    (w : World) : World :=
  match taskObjs w !! copy with
  | None => w
  | Some t0 =>
    set_taskObjs (<[copy := Task.set_Files (Task.Files t0) t]> (taskObjs w))
      (set_fileArrays (<[Task.Files t0 := files]> (fileArrays w)) w)
  end.

(** ** AddTask in closed form *)

(** The files [AddTask] builds for [urls]. *)
Definition pendingFiles (urls : list string) : list FileState.t :=
  (λ u, FileState.mk u "pending" "") <$> urls.

(** The task [AddTask] registered under [id] is in the store as it was
    built, up to its [UpdatedAt]. *)
Definition registered (id : string) (t a : loc) (now : time_Time)
    (urls : list string) (w : World) : Prop :=
  tasks w !! id = Some t ∧
  ∃ task, taskObjs w !! t = Some task ∧
          Task.ID task = id ∧ Task.Files task = a ∧ Task.Status task = "pending" ∧
          Task.CreatedAt task = now ∧
          fileArrays w !! a = Some (pendingFiles urls).

(** ** Scenarios *)

(** A clock that advances by one at every reading. *)
Definition clock0 : nat → time_Time := λ n, (1000 + Z.of_nat n)%Z.

(** [main] up to the start of the workers, without a snapshot file. *)
Definition fresh_manager : World := NewManager 100 (boot clock0).

(** A task of three files has been submitted. *)
Definition three_submitted : result (loc + string) :=
  AddTask "t1" ["https://x/a"; "https://x/b"; "https://x/c"] fresh_manager.

(** A worker takes the three jobs one after the other; the second download
    fails. *)
Definition second_fails : result unit :=
  bind three_submitted (λ _ w1,
  bind (workerTurn None None w1) (λ _ w2,
  bind (workerTurn None (Some "boom") w2) (λ _ w3,
  workerTurn None None w3))).

(** The world in which [three_submitted] returns. *)
Definition three_submitted_world : World :=
  default fresh_manager (world_of three_submitted).

(** The world in which [second_fails] returns. *)
Definition second_fails_world : World :=
  default fresh_manager (world_of second_fails).

(** The claim of the specification about status values, with its own
    spelling. *)
Definition spec_statuses_claim : Prop :=
  ∀ w id t files,
    reachable w → stored w id = Some (t, files) →
    Task.Status t ∈ specTaskStatuses ∧
    Forall (λ f, FileState.Status f ∈ specFileStatuses) files.

(** A worker has started on the first file of the three; its job is still
    listed in the queue of this world, which does not matter here. *)
Definition first_started : result (option string) :=
  processJob_begin (mkJob "t1" 0) three_submitted_world.

(** The world in which [first_started] returns. *)
Definition first_started_world : World :=
  default fresh_manager (world_of first_started).

(** [main] from the creation of the manager to the return of
    [LoadFromSnapshot]: the queue has room for 100 jobs and no worker has
    been started, so nothing receives from it. *)
Definition main_recovery (snapshot : option (list (string * TaskDoc)))
    (clk : nat → time_Time) : result unit :=
  LoadFromSnapshot snapshot (NewManager 100 (boot clk)).

(** A snapshot with one task of 101 files, none of them completed. *)
Definition large_snapshot : list (string * TaskDoc) :=
  [("t1", mkTaskDoc "t1" (replicate 101 (FileState.mk "https://x/a" "pending" ""))
                    "in‑progress" 5%Z 7%Z)].

(** A snapshot with one task whose only file is completed. *)
Definition finished_snapshot : list (string * TaskDoc) :=
  [("t1", mkTaskDoc "t1" [FileState.mk "https://x/a" "completed" ""]
                    "completed" 5%Z 7%Z)].

(** A snapshot with a task of one completed file and one failed file. *)
Definition failed_snapshot : list (string * TaskDoc) :=
  [("t1", mkTaskDoc "t1" [FileState.mk "https://x/a" "completed" "";
                          FileState.mk "https://x/b" "error" "boom"]
                    "in‑progress" 5%Z 7%Z)].

(** The claim of the specification about the status of a task. *)
Definition spec_derivation_claim : Prop :=
  ∀ w id t files,
    reachable w → stored w id = Some (t, files) →
    Task.Status t = derivedStatus files.


(** A reading of [strings.TrimSpace] for ASCII text. *)
Definition isSpace (c : ascii) : bool :=
  bool_decide (nat_of_ascii c ∈ [32; 9; 10; 11; 12; 13]).

Fixpoint trimLeft (s : string) : string :=
  match s with
  | EmptyString => ""
  | String c rest => if isSpace c then trimLeft rest else s
  end.

Fixpoint trimRight (s : string) : string :=
  match s with
  | EmptyString => ""
  | String c rest =>
    let rest' := trimRight rest in
    if isSpace c && bool_decide (rest' = "") then "" else String c rest'
  end.

Definition trimSpace_ascii (s : string) : string := trimRight (trimLeft s).

(** ** Package manager: a worker at work *)

(** The file [processJob] leaves behind for the URL [u]: the error of
    [os.MkdirAll] comes first, then that of the download. *)
Definition fileAfter (u : string) (mkdirErr downloadErr : option string)
    : FileState.t :=
  match mkdirErr, downloadErr with
  | Some err, _ => FileState.mk u "error" err
  | None, Some err => FileState.mk u "error" err
  | None, None => FileState.mk u "completed" ""
  end.

(** A job that [processJob] drops in its first locked region: the task is
    not in the map, the index is out of range or the file is completed. *)
Definition staleJob (job : Job) (w : World) : Prop :=
  match stored w (TaskID job) with
  | None => tasks w !! TaskID job = None
  | Some (_, files) =>
    outOfRange (FileIndex job) files = true ∨
    ∃ f, files !! Z.to_nat (FileIndex job) = Some f ∧ FileState.Status f = "completed"
  end.

(** One worker takes as many jobs from the channel as [outcomes] is long;
    [outcomes] lists, turn by turn, the errors of [os.MkdirAll] and of the
    download. *)
Definition workerRun (outcomes : list (option string * option string))
    : World → result unit :=
  forEach (λ o, workerTurn o.1 o.2) outcomes.

(** Both calls of a turn went through. *)
Definition succeeded (o : option string * option string) : bool :=
  match o with
  | (None, None) => true
  | _ => false
  end.

(** ** Invariants of the queue and of the stored status *)

(** The channel is the one [NewManager] made, with at most [size] jobs in
    it, and [draining] is unset. *)
Definition queue_inv (size : nat) (w : World) : Prop :=
  queueSize w = size ∧ draining w = false ∧ (length (jobs w) ≤ size)%nat.

(** The task statuses the manager assigns. *)
Definition assignedStatuses : list string := ["pending"; "in‑progress"; "completed"].

(** A stored status is one of the assigned ones, and "completed" only with
    every file completed. *)
Definition status_sound (t : Task.t) (files : list FileState.t) : Prop :=
  Task.Status t ∈ assignedStatuses ∧
  (Task.Status t = "completed" →
   Forall (λ f, FileState.Status f = "completed") files).

(** Every task of the store satisfies [P]. *)
Definition store_sat (P : Task.t → list FileState.t → Prop) (w : World) : Prop :=
  ∀ id t files, stored w id = Some (t, files) → P t files.

(** ** Package manager: writeSnapshot *)

(** A loop that builds one value per element visited. *)
Fixpoint collect {A B : Type} (body : A → World → result B) (l : list A)
    (w : World) : result (list B) :=
  match l with
  | [] => Returns [] w
  | x :: rest =>
    bind (body x w) (λ y w1,
    bind (collect body rest w1) (λ ys w2, Returns (y :: ys) w2))
  end.

(** One iteration of [for id, t := range m.tasks] in [writeSnapshot]:
    [taskCopy := *t], a fresh [Files] array of the same length, [copy], and
    [tasksCopy[id] = &taskCopy]. *)
Definition copyTask (entry : string * loc) (w : World) : result (string * loc) :=
  let '(id, p) := entry in
  match taskObjs w !! p with
  | None => Panics
  | Some t =>
    let '(taskCopy, w1) := new_task t w in
    match fileArrays w1 !! Task.Files t with
    | None => Panics
    | Some files =>
      let zeroed := replicate (length files) (FileState.mk "" "" "") in
      let '(a, w2) := new_array zeroed w1 in
      let w3 := set_taskObjs (<[taskCopy := Task.set_Files a t]> (taskObjs w2)) w2 in
      let w4 := set_fileArrays (<[a := copy_slice zeroed files]> (fileArrays w3)) w3 in
      Returns (id, taskCopy) w4
    end
  end.

(** The JSON object of a task: its fields, with [Files] by value. *)
Definition docOf (t : Task.t) (files : list FileState.t) : TaskDoc :=
  mkTaskDoc (Task.ID t) files (Task.Status t) (Task.CreatedAt t) (Task.UpdatedAt t).

(** What [json.MarshalIndent] reads through the pointers of [tasksCopy].
    The document is kept as its list of entries, which is what [json.Decode]
    gives back for it in [LoadFromSnapshot]: JSON keeps the strings, when
    they are valid UTF-8, and the instants. *)
Definition marshal (tasksCopy : list (string * loc)) (w : World)
    : option (list (string * TaskDoc)) :=
  mapM (λ e, (λ tf, (e.1, docOf tf.1 tf.2)) <$> deref w e.2) tasksCopy.

(** [marshalErr], [mkdirErr], [writeErr] and [renameErr] say whether
    [json.MarshalIndent], [os.MkdirAll], [os.WriteFile] and [os.Rename]
    fail.  The result is the document that has replaced the snapshot file,
    or [None] when the file is left as it was.  The map is visited in the
    order of [map_to_list]; Go leaves the order open and the document does
    not depend on it. *)
Definition writeSnapshot (marshalErr mkdirErr writeErr renameErr : bool) (w : World)
    : result (option (list (string * TaskDoc))) :=
  bind (collect copyTask (map_to_list (tasks w)) w) (λ tasksCopy w1,
    match marshal tasksCopy w1 with
    | None => Panics
    | Some data =>
      if marshalErr then Returns None w1
      else if mkdirErr then Returns None w1
      else if writeErr then Returns None w1
      else if renameErr then Returns None w1
      else Returns (Some data) w1
    end).

(** [main] of a new process up to the return of [LoadFromSnapshot], with a
    queue of [size] jobs. *)
Definition restart (size : nat) (clk : nat → time_Time)
    (snapshot : option (list (string * TaskDoc))) : result unit :=
  LoadFromSnapshot snapshot (NewManager size (boot clk)).

(** [c] is the entry of [tasksCopy] made for the entry [e] of the map: the
    same id and a struct with the values of the stored one. *)
Definition copied (w w' : World) (e c : string * loc) : Prop :=
  c.1 = e.1 ∧
  ∃ t files a, deref w e.2 = Some (t, files) ∧
               deref w' c.2 = Some (Task.set_Files a t, files).

(** The entry of the document for one visited entry of the map. *)
Definition encoded (w : World) (e : string * loc) (x : string * TaskDoc) : Prop :=
  x.1 = e.1 ∧ ∃ t files, deref w e.2 = Some (t, files) ∧ x.2 = docOf t files.

(** ** Package util *)

Definition hextable : string := "0123456789abcdef".

(** [hextable[i]] *)
Definition hexDigit (i : N) : ascii :=
  default "0"%char (String.get (N.to_nat i) hextable).

(** [hex.EncodeToString]: for every byte [v] the digits [hextable[v>>4]] and
    [hextable[v&0x0f]]. *)
Fixpoint hex_EncodeToString (src : list Byte.byte) : string :=
  match src with
  | [] => ""
  | v :: rest =>
    String (hexDigit (N.shiftr (Byte.to_N v) 4))
      (String (hexDigit (N.land (Byte.to_N v) 15)) (hex_EncodeToString rest))
  end.

(** [random] is the content of the 16 bytes after [rand.Read], [None] when
    [rand.Read] fails; [unixNano] is [time.Now().UnixNano()], printed with
    [%d] in that case. *)
Definition GenerateID (random : option (list Byte.byte)) (unixNano : Z) : string :=
  match random with
  | None => pretty unixNano
  | Some b => hex_EncodeToString b
  end.

(** ** Package api: the handlers *)

(** What a handler writes: [http.Error] with a text and a status code,
    [http.NotFound], or a JSON body under a status code. *)
Inductive httpReply (A : Type) : Type :=
| http_Error (msg : string) (code : Z)
| http_NotFound
| http_JSON (code : Z) (body : A).
Arguments http_Error {A} msg code.
Arguments http_NotFound {A}.
Arguments http_JSON {A} code body.

Module CreateResponse.
Record t : Type := mk { TaskID : string; Status : string }.
End CreateResponse.

Module GetResponse.
Record t : Type := mk {
  ID : string;
  Status : string;
  Completed : Z;
  Total : Z;
  Files : list FileState.t;
  CreatedAt : time_Time;
  UpdatedAt : time_Time }.
End GetResponse.

(** The handler made by [NewCreateTaskHandler].  [method] is [r.Method];
    [body] is the [urls] field of the decoded request, [None] when
    [json.Decode] fails; [id] is the value of [util.GenerateID] in
    [AddTask].  The reply reads [task.ID] and [task.Status] through the
    pointer [AddTask] returned. *)
Definition NewCreateTaskHandler (strings_TrimSpace : string → string)
    (method : string) (body : option (list string)) (id : string) (w : World)
    : result (httpReply CreateResponse.t) :=
  if bool_decide (method ≠ "POST") then
    Returns (http_Error "method not allowed" 405) w
  else
    match body with
    | None => Returns (http_Error "invalid JSON" 400) w
    | Some urls =>
      bind (createTask strings_TrimSpace id urls w) (λ r w1,
        match r with
        | inr err => Returns (http_Error err 400) w1
        | inl task =>
          match taskObjs w1 !! task with
          | None => Panics
          | Some t =>
            Returns (http_JSON 202 (CreateResponse.mk (Task.ID t) (Task.Status t))) w1
          end
        end)
    end.

(** The loop of the get-task handler that counts the completed files. *)
Definition countCompleted (files : list FileState.t) : Z :=
  foldl (λ completed f,
           if String.eqb (FileState.Status f) "completed"
           then (completed + 1)%Z else completed)
        0%Z files.

(** The handler made by [NewGetTaskHandler]; [path] is [r.URL.Path].  The
    reply is built from the copy [GetTask] returned. *)
Definition NewGetTaskHandler (path : string) (w : World)
    : result (httpReply GetResponse.t) :=
  let parts := strings_Split path "/" in
  if bool_decide (length parts ≠ 3) || bool_decide (parts !! 2 = Some "") then
    Returns (http_Error "task id missing" 400) w
  else
    match parts !! 2 with
    | None => Panics
    | Some id =>
      bind (GetTask id w) (λ found w1,
        match found with
        | None => Returns http_NotFound w1
        | Some task =>
          match deref w1 task with
          | None => Panics
          | Some (t, files) =>
            Returns (http_JSON 200
                       (GetResponse.mk (Task.ID t) (Task.Status t)
                          (countCompleted files) (Z.of_nat (length files)) files
                          (Task.CreatedAt t) (Task.UpdatedAt t)))
                    w1
          end
        end)
    end.

(** ** The page: polling *)

(** The test of [fetchTaskStatus] in the script of the page, on the status
    of a reply of the get-task handler: when it holds the task is moved to
    the past tasks and no further request is scheduled; otherwise the
    status is fetched again after three seconds. *)
Definition pollingStops (status : string) : bool :=
  String.eqb status "completed" || String.eqb status "completed_with_errors" ||
  String.eqb status "error".

(** ** Recovery: the room it needs *)

(** The number of files of a snapshot that are not completed. *)
Definition unfinished (entries : list (string * TaskDoc)) : nat :=
  sum_list ((λ e, length (filter (λ f, FileState.Status f ≠ "completed") (doc_Files e.2)))
              <$> entries).

(** ** Package download: DownloadWithContext *)

Module Response.
(** [http.Response]: the fields [DownloadWithContext] reads, the body by
    value. *)
Record t : Type := mk { StatusCode : Z; Status : string; Body : string }.
End Response.

(** What the network and the file system do during one call: the error of
    each step ([None] for [nil]).  [client.Do] gives an error or a response;
    [io.Copy] may fail after some bytes of the body have been written. *)
Record Env : Type := mkEnv {
  newRequestErr : option string;
  doResult : string + Response.t;
  createErr : option string;
  copyErr : option (string * nat);
  syncErr : option string;
  closeErr : option string;
  renameErr : option string }.

(** The files on disk, by path.  [os.Create] truncates or creates the
    temporary file, [io.Copy] writes the body to it and a successful
    [os.Rename] replaces [dest] by it in one step. *)
Definition DownloadWithContext (env : Env) (dest : string) (fs : gmap string string)
    : option string * gmap string string :=
  match newRequestErr env with
  | Some err => (Some err, fs)
  | None =>
    match doResult env with
    | inl err => (Some err, fs)
    | inr resp =>
      if (Response.StatusCode resp <? 200)%Z || (300 <=? Response.StatusCode resp)%Z
      then (Some ("неправильный статус: " +:+ Response.Status resp), fs)
      else
        let tmp := dest +:+ ".part" in
        match createErr env with
        | Some err => (Some err, fs)
        | None =>
          let fs1 := <[tmp := ""]> fs in
          match copyErr env with
          | Some (err, n) =>
            (Some err, <[tmp := String.substring 0 n (Response.Body resp)]> fs1)
          | None =>
            let fs2 := <[tmp := Response.Body resp]> fs1 in
            match syncErr env with
            | Some err => (Some err, fs2)
            | None =>
              match closeErr env with
              | Some err => (Some err, fs2)
              | None =>
                match renameErr env with
                | Some err => (Some err, fs2)
                | None => (None, <[dest := Response.Body resp]> (delete tmp fs2))
                end
              end
            end
          end
        end
    end
  end.

(** ** The page: labels *)

(** [s.replace(/-/g, '-')] of the script of the page: every "-" (byte 2D)
    is replaced by "-" (byte 2D). *)
Fixpoint replaceHyphens (s : string) : string :=
  match s with
  | EmptyString => ""
  | String c rest =>
    String (if Ascii.eqb c "-" then "-"%char else c) (replaceHyphens rest)
  end.

(** [translateStatus] of the script of the page, for a status that is a
    string. *)
Definition translateStatus (status : string) : string :=
  let normalized := replaceHyphens status in
  if String.eqb normalized "pending" then "ожидает"
  else if String.eqb normalized "in-progress" then "в процессе"
  else if String.eqb normalized "completed" then "завершена"
  else if String.eqb normalized "completed_with_errors" then "завершена с ошибками"
  else if String.eqb normalized "error" then "ошибка"
  else status.

(** ** Goroutines and the mutex *)

(** Where a worker started by [StartWorkers] is: in its [select], ready to
    receive a job; with a job in hand, at the [m.mu.Lock()] of [processJob];
    or past the first locked region of [processJob], in the download, with
    the [m.mu.Lock()] of [updateFileState] ahead. *)
Inductive Worker : Type :=
| AtSelect
| AtLock (job : Job)
| InDownload (job : Job).

(** The goroutines around one manager: the workers, callers of [GetTask],
    and one call of [AddTask] that has stored its task and has the calls of
    [enqueueJob] for [cfg_pending] still to make.  [enqueueJob] holds [m.mu]
    from its first line to its return and sends on the channel in between:
    [cfg_sender] is its send when it is parked on the full channel.  The
    mutex is held exactly while a send is parked, since every other locked
    region runs as one step. *)
Record Config : Type := mkConfig {
  cfg_world : World;
  cfg_workers : list Worker;
  cfg_sender : option Job;
  cfg_pending : list (string * Z) }.

(** What can happen next: worker [i] receives a job, enters [processJob] or
    ends its download with the given errors; [AddTask] makes its next call
    of [enqueueJob]; the parked send goes through; a handler calls
    [GetTask]. *)
Inductive Action : Type :=
| act_receive (i : nat)
| act_begin (i : nat)
| act_finish (i : nat) (mkdirErr downloadErr : option string)
| act_enqueue
| act_resume
| act_get (id : string).

(** The configuration after an action, [None] when the action cannot take
    place: a receive needs a worker in its [select] and a job in the channel,
    a locked region needs the mutex, the parked send needs room. *)
Definition exec (a : Action) (c : Config) : option Config :=
  match a with
  | act_receive i =>
    match cfg_workers c !! i, receive (cfg_world c) with
    | Some AtSelect, Some (job, w') =>
      Some (mkConfig w' (<[i := AtLock job]> (cfg_workers c)) (cfg_sender c)
                     (cfg_pending c))
    | _, _ => None
    end
  | act_begin i =>
    match cfg_sender c, cfg_workers c !! i with
    | None, Some (AtLock job) =>
      match processJob_begin job (cfg_world c) with
      | Returns (Some _) w' =>
        Some (mkConfig w' (<[i := InDownload job]> (cfg_workers c)) None (cfg_pending c))
      | Returns None w' =>
        Some (mkConfig w' (<[i := AtSelect]> (cfg_workers c)) None (cfg_pending c))
      | _ => None
      end
    | _, _ => None
    end
  | act_finish i mkdirErr downloadErr =>
    match cfg_sender c, cfg_workers c !! i with
    | None, Some (InDownload job) =>
      let update :=
        match mkdirErr with
        | Some err => updateFileState (TaskID job) (FileIndex job) "error" err
        | None =>
          match downloadErr with
          | Some err => updateFileState (TaskID job) (FileIndex job) "error" err
          | None => updateFileState (TaskID job) (FileIndex job) "completed" ""
          end
        end in
      match update (cfg_world c) with
      | Returns _ w' =>
        Some (mkConfig w' (<[i := AtSelect]> (cfg_workers c)) None (cfg_pending c))
      | _ => None
      end
    | _, _ => None
    end
  | act_enqueue =>
    match cfg_sender c, cfg_pending c with
    | None, (id, idx) :: rest =>
      match enqueueJob id idx (cfg_world c) with
      | Returns _ w' => Some (mkConfig w' (cfg_workers c) None rest)
      | Blocks wb => Some (mkConfig wb (cfg_workers c) (Some (mkJob id idx)) rest)
      | Panics => None
      end
    | _, _ => None
    end
  | act_resume =>
    match cfg_sender c with
    | Some job =>
      match send job (cfg_world c) with
      | Returns _ w' => Some (mkConfig w' (cfg_workers c) None (cfg_pending c))
      | _ => None
      end
    | None => None
    end
  | act_get id =>
    match cfg_sender c with
    | None =>
      match GetTask id (cfg_world c) with
      | Returns _ w' => Some (mkConfig w' (cfg_workers c) None (cfg_pending c))
      | _ => None
      end
    | Some _ => None
    end
  end.

(** The actions of [schedule] one after the other. *)
Fixpoint run (schedule : list Action) (c : Config) : option Config :=
  match schedule with
  | [] => Some c
  | a :: rest =>
    match exec a c with
    | Some c' => run rest c'
    | None => None
    end
  end.

(** [AddTask id urls] has stored its task in [w] and is about to enter its
    loop, beside [n] idle workers. *)
Definition submitted (n : nat) (id : string) (urls : list string) (w : World) : Config :=
  mkConfig (registerTask id urls w).2 (replicate n AtSelect) None
           ((λ i, (id, Z.of_nat i)) <$> seq 0 (length urls)).

(** The interleaving in which the [n] workers each take one of the first
    [n] jobs and are then overtaken by [AddTask], which fills the channel of
    capacity [size] and calls [enqueueJob] once more. *)
Definition overtaking (n size : nat) : list Action :=
  replicate n act_enqueue ++ (act_receive <$> seq 0 n) ++
  replicate size act_enqueue ++ [act_enqueue].

(** The channel has room for every call of [enqueueJob] that [AddTask] has
    still to make, and no send is parked. *)
Definition roomy (c : Config) : Prop :=
  cfg_sender c = None ∧
  (length (jobs (cfg_world c)) + length (cfg_pending c) ≤ queueSize (cfg_world c))%nat.

(** * Properties *)

(** ** Values on small inputs *)

Example in_progress_bytes :
  String.list_byte_of_string "in‑progress" =
  [Byte.x69; Byte.x6e; Byte.xe2; Byte.x80; Byte.x91; Byte.x70; Byte.x72;
   Byte.x6f; Byte.x67; Byte.x72; Byte.x65; Byte.x73; Byte.x73].
Proof. reflexivity. Qed.

Example strings_Split_path : strings_Split "/a/b.zip" "/" = [""; "a"; "b.zip"].
Proof. reflexivity. Qed.

Example strings_Split_empty : strings_Split "" "/" = [""].
Proof. reflexivity. Qed.

Example strings_Index_found : strings_Index "b.zip?x=1" "?" = 5%Z.
Proof. reflexivity. Qed.

Example strings_Index_missing : strings_Index "b.zip" "?" = (-1)%Z.
Proof. reflexivity. Qed.

Example fallbackName_7 : fallbackName 7 = "file_7".
Proof. reflexivity. Qed.

Example fallbackName_negative : fallbackName (-12) = "file_-12".
Proof. reflexivity. Qed.

Example aggregateStatus_all_completed :
  aggregateStatus [FileState.mk "u" "completed" ""; FileState.mk "v" "completed" ""]
  = "completed".
Proof. reflexivity. Qed.

Example aggregateStatus_one_pending :
  aggregateStatus [FileState.mk "u" "completed" ""; FileState.mk "v" "pending" ""]
  = "in‑progress".
Proof. reflexivity. Qed.

Example aggregateStatus_one_error :
  aggregateStatus [FileState.mk "u" "completed" ""; FileState.mk "v" "error" "boom"]
  = "in‑progress".
Proof. reflexivity. Qed.

Example trimSpace_ascii_url : trimSpace_ascii "  https://x/a  " = "https://x/a".
Proof. vm_compute. reflexivity. Qed.

(** ** Strings *)

Lemma strings_Split_nonempty s sep : strings_Split s sep ≠ [].
Proof.
  destruct s as [|c rest]; simpl; [done|].
  destruct (Ascii.eqb c sep); [done|].
  by destruct (strings_Split rest sep).
Qed.

Lemma strings_Split_join s sep : join sep (strings_Split s sep) = s.
Proof.
  induction s as [|c rest IH]; [done|].
  simpl. destruct (Ascii.eqb_spec c sep) as [->|Hne].
  - pose proof (strings_Split_nonempty rest sep) as Hn.
    simpl. destruct (strings_Split rest sep) as [|seg segs]; [done|].
    simpl. by rewrite <- IH.
  - destruct (strings_Split rest sep) as [|seg segs] eqn:E.
    + by destruct (strings_Split_nonempty rest sep).
    + rewrite <- IH. by destruct segs.
Qed.

Lemma strings_Split_segments s sep :
  Forall (λ seg, ¬ occurs sep seg) (strings_Split s sep).
Proof.
  induction s as [|c rest IH]; simpl.
  - constructor; [simpl; tauto | constructor].
  - destruct (Ascii.eqb_spec c sep) as [->|Hne].
    + constructor; [simpl; tauto | done].
    + destruct (strings_Split rest sep) as [|seg segs].
      * constructor; [simpl; tauto | constructor].
      * inversion IH; subst. constructor; [simpl; tauto | done].
Qed.

Lemma append_assoc (a b c : string) : a +:+ (b +:+ c) = (a +:+ b) +:+ c.
Proof.
  induction a as [|x a IH]; [done|].
  change (String x (a +:+ (b +:+ c)) = String x ((a +:+ b) +:+ c)).
  by rewrite IH.
Qed.

Lemma join_last sep l :
  l ≠ [] →
  join sep l = List.last l "" ∨ ∃ pre, join sep l = pre +:+ String sep (List.last l "").
Proof.
  induction l as [|x rest IH]; [done|]. intros _.
  destruct rest as [|y rest']; [by left|].
  right. destruct IH as [IH|[pre IH]]; [done| |].
  - exists x. change (join sep (x :: y :: rest')) with (x +:+ String sep (join sep (y :: rest'))).
    by rewrite IH.
  - exists (x +:+ String sep pre).
    change (join sep (x :: y :: rest')) with (x +:+ String sep (join sep (y :: rest'))).
    rewrite IH. change (List.last (x :: y :: rest') "") with (List.last (y :: rest') "").
    by rewrite <- append_assoc.
Qed.

Lemma strings_Split_lastSegment path :
  lastSegment path (List.last (strings_Split path "/") "").
Proof.
  split.
  - pose proof (strings_Split_segments path "/") as Hall.
    pose proof (strings_Split_nonempty path "/") as Hne.
    induction Hall as [|x l Hx Hl IH]; [done|].
    destruct l; [done|]. apply IH. done.
  - pose proof (join_last "/" _ (strings_Split_nonempty path "/")) as H.
    by rewrite !strings_Split_join in H.
Qed.

Lemma strings_Index_absent s c : strings_Index s c = (-1)%Z → ¬ occurs c s.
Proof.
  induction s as [|c' rest IH]; simpl; [tauto|].
  destruct (Ascii.eqb_spec c' c) as [->|Hne]; [done|].
  destruct (Z.ltb_spec (strings_Index rest c) 0); [|lia].
  intros _ [?|?]; [done|]. apply IH; [|done].
  clear IH. induction rest as [|d rest IH]; simpl in *; [done|].
  destruct (Ascii.eqb d c); [lia|].
  destruct (Z.ltb_spec (strings_Index rest c) 0); [done|lia].
Qed.

Lemma strings_Index_range s c : (-1 ≤ strings_Index s c)%Z.
Proof.
  induction s as [|c' rest IH]; simpl; [lia|].
  destruct (Ascii.eqb c' c); [lia|].
  destruct (Z.ltb_spec (strings_Index rest c) 0); lia.
Qed.

Lemma strings_Index_present s c :
  strings_Index s c ≠ (-1)%Z →
  let name := String.substring 0 (Z.to_nat (strings_Index s c)) s in
  ¬ occurs c name ∧ ∃ rest, s = name +:+ String c rest.
Proof.
  induction s as [|c' rest IH]; simpl; [done|].
  destruct (Ascii.eqb_spec c' c) as [->|Hne].
  - intros _. simpl. split; [tauto|]. by exists rest.
  - pose proof (strings_Index_range rest c) as Hr.
    destruct (Z.ltb_spec (strings_Index rest c) 0); [done|]. intros _.
    destruct IH as [Hno [tl Htl]]; [lia|].
    replace (Z.to_nat (strings_Index rest c + 1)) with (S (Z.to_nat (strings_Index rest c))) by lia.
    simpl. split; [tauto|]. exists tl.
    rewrite Htl at 1. reflexivity.
Qed.

Lemma strings_Index_queryStripped seg :
  queryStripped seg
    (if bool_decide (strings_Index seg "?" ≠ (-1)%Z)
     then String.substring 0 (Z.to_nat (strings_Index seg "?")) seg else seg).
Proof.
  case_bool_decide as Hi.
  - destruct (strings_Index_present seg "?" Hi) as [Hno [rest Hrest]].
    split; [done|]. right. by exists rest.
  - split; [|by left]. apply strings_Index_absent.
    destruct (decide (strings_Index seg "?" = (-1)%Z)); [done|]. by destruct Hi.
Qed.

Lemma append_cons (x : ascii) (a b : string) : String x a +:+ b = String x (a +:+ b).
Proof. reflexivity. Qed.

Lemma strings_Split_no_sep s c : ¬ occurs c s → strings_Split s c = [s].
Proof.
  induction s as [|x s IH]; simpl; [done|]. intros Hno.
  destruct (Ascii.eqb_spec x c) as [->|Hne]; [tauto|].
  rewrite IH by tauto. done.
Qed.

Lemma strings_Split_two a b c :
  (2 ≤ length (strings_Split (a +:+ String c b) c))%nat.
Proof.
  induction a as [|x a IH].
  - change ("" +:+ String c b) with (String c b). simpl. rewrite Ascii.eqb_refl.
    pose proof (strings_Split_nonempty b c). destruct (strings_Split b c); [done|].
    simpl. lia.
  - rewrite append_cons. simpl. destruct (Ascii.eqb x c); [simpl; lia|].
    destruct (strings_Split (a +:+ String c b) c) as [|seg segs]; simpl in *; lia.
Qed.

Lemma strings_Split_last_app pre seg c :
  List.last (strings_Split (pre +:+ String c seg) c) "" =
  List.last (strings_Split seg c) "".
Proof.
  induction pre as [|x pre IH].
  - change ("" +:+ String c seg) with (String c seg). simpl. rewrite Ascii.eqb_refl.
    pose proof (strings_Split_nonempty seg c). by destruct (strings_Split seg c).
  - rewrite append_cons. simpl. pose proof (strings_Split_two pre seg c) as Htwo.
    destruct (Ascii.eqb x c).
    + rewrite <- IH. destruct (strings_Split (pre +:+ String c seg) c); [simpl in Htwo; lia|done].
    + rewrite <- IH.
      destruct (strings_Split (pre +:+ String c seg) c) as [|s0 [|s1 segs]];
        simpl in Htwo; try lia. done.
Qed.

(** The last segment is what [strings.Split] ends with, and nothing else. *)
Lemma lastSegment_unique path seg :
  lastSegment path seg → seg = List.last (strings_Split path "/") "".
Proof.
  intros [Hno [->|[pre ->]]].
  - by rewrite strings_Split_no_sep.
  - by rewrite strings_Split_last_app, strings_Split_no_sep.
Qed.

(** ** DeriveFileName *)

(** C9.  [DeriveFileName] returns the last segment of the parsed path with
    the query string stripped; it returns "file_<index>" when the URL does
    not parse, when its path is empty or "/", when the last segment is empty
    and when nothing is left of it after stripping.  With the paths
    [url.Parse] gives for them, "https://x/a/b.zip" yields "b.zip" and both
    "https://x/" and "https://x" yield "file_<index>". *)
Theorem DeriveFileName_last_segment (url_Parse : string → option URL)
    (rawURL : string) (index : Z) :
  (url_Parse rawURL = None ∨ Path <$> url_Parse rawURL = Some "" ∨
   Path <$> url_Parse rawURL = Some "/" →
   DeriveFileName url_Parse rawURL index = "file_" +:+ pretty index) ∧
  (∀ u, url_Parse rawURL = Some u → Path u ≠ "" → Path u ≠ "/" →
   ∃ seg name,
     lastSegment (Path u) seg ∧ queryStripped seg name ∧
     DeriveFileName url_Parse rawURL index =
       if bool_decide (name = "") then "file_" +:+ pretty index else name) ∧
  (∀ u, url_Parse rawURL = Some u → lastSegment (Path u) "" →
   DeriveFileName url_Parse rawURL index = "file_" +:+ pretty index) ∧
  (Path <$> url_Parse "https://x/a/b.zip" = Some "/a/b.zip" →
   DeriveFileName url_Parse "https://x/a/b.zip" index = "b.zip") ∧
  (Path <$> url_Parse "https://x/" = Some "/" →
   DeriveFileName url_Parse "https://x/" index = "file_" +:+ pretty index) ∧
  (Path <$> url_Parse "https://x" = Some "" →
   DeriveFileName url_Parse "https://x" index = "file_" +:+ pretty index).
Proof.
  unfold DeriveFileName, fallbackName. repeat split.
  - intros [->|[H|H]]; [done| |];
      destruct (url_Parse rawURL) as [[path]|]; simplify_eq/=; done.
  - intros [path] -> Hne1 Hne2. simpl in *.
    rewrite !bool_decide_eq_false_2 by done. simpl.
    eexists _, _. split; [apply strings_Split_lastSegment|].
    split; [apply strings_Index_queryStripped|]. done.
  - intros [path] -> Hseg. simpl in *.
    apply lastSegment_unique in Hseg. rewrite <- Hseg. simpl.
    by destruct (bool_decide (path = "") || bool_decide (path = "/")).
  - destruct (url_Parse "https://x/a/b.zip") as [[path]|]; intros; simplify_eq/=; done.
  - destruct (url_Parse "https://x/") as [[path]|]; intros; simplify_eq/=; done.
  - destruct (url_Parse "https://x") as [[path]|]; intros; simplify_eq/=; done.
Qed.

Lemma DeriveFileName_last_segment_witness :
  DeriveFileName url_Parse_simple "https://x/a/b.zip" 7 = "b.zip" ∧
  DeriveFileName url_Parse_simple "https://x/" 7 = "file_7" ∧
  DeriveFileName url_Parse_simple "https://x" 7 = "file_7" ∧
  DeriveFileName url_Parse_simple "x" 7 = "file_7" ∧
  ∃ seg name,
    lastSegment "/dl/get.php" seg ∧ queryStripped seg name ∧
    DeriveFileName url_Parse_simple "https://x/dl/get.php?f=1" 7 =
      if bool_decide (name = "") then "file_7" else name.
Proof.
  destruct (DeriveFileName_last_segment url_Parse_simple "x" 7%Z)
    as (Hfallback & _ & _ & Hzip & Hroot & Hempty).
  destruct (DeriveFileName_last_segment url_Parse_simple "https://x/dl/get.php?f=1" 7%Z)
    as (_ & Hseg & _).
  split; [exact (Hzip eq_refl)|].
  split; [exact (Hroot eq_refl)|].
  split; [exact (Hempty eq_refl)|].
  split; [exact (Hfallback (or_introl eq_refl))|].
  apply (Hseg (mkURL "/dl/get.php")); [reflexivity|discriminate|discriminate].
Defined.

(** ** The aggregate status *)

Lemma foldl_scanFile (allDone anyErrors : bool) (files : list FileState.t) :
  foldl scanFile (allDone, anyErrors) files =
  (allDone && forallb (λ f, String.eqb (FileState.Status f) "completed") files,
   anyErrors || existsb (λ f, String.eqb (FileState.Status f) "error") files).
Proof.
  revert allDone anyErrors.
  induction files as [|f files IH]; intros allDone anyErrors; simpl.
  - by rewrite andb_true_r, orb_false_r.
  - rewrite IH. destruct (String.eqb (FileState.Status f) "completed"),
      (String.eqb (FileState.Status f) "error"), allDone, anyErrors; done.
Qed.

Lemma completed_no_error (files : list FileState.t) :
  forallb (λ f, String.eqb (FileState.Status f) "completed") files = true →
  existsb (λ f, String.eqb (FileState.Status f) "error") files = false.
Proof.
  induction files as [|f files IH]; simpl; [done|].
  destruct (String.eqb_spec (FileState.Status f) "completed") as [->|]; [|done].
  intros H. by rewrite IH.
Qed.

(** The branch that stores "completed_with_errors" is never taken. *)
Lemma aggregateStatus_cases (files : list FileState.t) :
  aggregateStatus files =
  if forallb (λ f, String.eqb (FileState.Status f) "completed") files
  then "completed" else "in‑progress".
Proof.
  unfold aggregateStatus. rewrite foldl_scanFile. simpl.
  destruct (forallb _ files) eqn:E; [|done].
  by rewrite completed_no_error.
Qed.

Lemma aggregateStatus_not_with_errors (files : list FileState.t) :
  aggregateStatus files ≠ "completed_with_errors".
Proof. rewrite aggregateStatus_cases. by destruct (forallb _ files). Qed.

Lemma aggregateStatus_not_completed (files : list FileState.t) (f : FileState.t) :
  f ∈ files → FileState.Status f ≠ "completed" →
  aggregateStatus files = "in‑progress".
Proof.
  intros Hin Hne. rewrite aggregateStatus_cases.
  destruct (forallb _ files) eqn:E; [|done].
  rewrite forallb_forall in E. apply list_elem_of_In, E in Hin.
  by apply String.eqb_eq in Hin.
Qed.

(** ** Reading the store *)

Lemma stored_Some w id t files :
  stored w id = Some (t, files) ↔
  ∃ p, tasks w !! id = Some p ∧ taskObjs w !! p = Some t ∧
       fileArrays w !! Task.Files t = Some files.
Proof.
  unfold stored, deref. split.
  - destruct (tasks w !! id) as [p|]; [|done].
    destruct (taskObjs w !! p) as [t'|] eqn:Ht; [|done].
    destruct (fileArrays w !! Task.Files t') as [fs|] eqn:Hf; [|done].
    intros [= -> ->]. by exists p.
  - intros (p & -> & -> & ->). done.
Qed.

Lemma outOfRange_true index files :
  outOfRange index files = true ↔ (index < 0 ∨ Z.of_nat (length files) ≤ index)%Z.
Proof. unfold outOfRange. rewrite orb_true_iff, Z.ltb_lt, Z.leb_le. done. Qed.

Lemma outOfRange_false index files :
  outOfRange index files = false ↔ (0 ≤ index < Z.of_nat (length files))%Z.
Proof.
  destruct (outOfRange index files) eqn:E.
  - apply outOfRange_true in E. split; [done|lia].
  - split; [|done]. intros _.
    destruct (decide (0 ≤ index < Z.of_nat (length files))%Z); [done|].
    assert (outOfRange index files = true) by (apply outOfRange_true; lia). congruence.
Qed.

(** ** updateFileState *)

(** What [updateFileState] does to a known task at an index in range. *)
Lemma updateFileState_known w taskID index status errMsg p task files :
  tasks w !! taskID = Some p → taskObjs w !! p = Some task →
  fileArrays w !! Task.Files task = Some files →
  (0 ≤ index < Z.of_nat (length files))%Z →
  let files' := alter (FileState.set_Error errMsg) (Z.to_nat index)
                  (alter (FileState.set_Status status) (Z.to_nat index) files) in
  updateFileState taskID index status errMsg w =
  Returns () (mkWorld (tasks w) (jobs w) (queueSize w) (draining w)
    (<[p := Task.mk (Task.ID task) (Task.Files task) (aggregateStatus files')
                    (Task.CreatedAt task) (clock w (ticks w))]> (taskObjs w))
    (<[Task.Files task := files']> (fileArrays w))
    (clock w) (S (ticks w))).
Proof.
  intros Hp Ht Hf Hi. unfold updateFileState. rewrite Hp, Ht, Hf.
  apply outOfRange_false in Hi. by rewrite Hi.
Qed.

(** C8.  [updateFileState] with an unknown task id, or with an index that is
    negative or not below the number of files, returns the world it was
    called in: no file state, status or timestamp is written. *)
Theorem updateFileState_unknown_noop w taskID index status errMsg :
  tasks w !! taskID = None ∨
  (∃ t files, stored w taskID = Some (t, files) ∧
              (index < 0 ∨ Z.of_nat (length files) ≤ index)%Z) →
  updateFileState taskID index status errMsg w = Returns () w.
Proof.
  unfold updateFileState. intros [->|(t & files & Hs & Hi)]; [done|].
  apply stored_Some in Hs as (p & -> & -> & ->).
  apply outOfRange_true in Hi. by rewrite Hi.
Qed.

Lemma updateFileState_unknown_noop_witness :
  updateFileState "t9" 0 "completed" "" three_submitted_world
    = Returns () three_submitted_world ∧
  updateFileState "t1" 3 "completed" "" three_submitted_world
    = Returns () three_submitted_world ∧
  updateFileState "t1" (-1) "error" "boom" three_submitted_world
    = Returns () three_submitted_world.
Proof.
  split; [|split]; apply updateFileState_unknown_noop.
  - left. vm_compute. reflexivity.
  - right. eexists _, _. split; [vm_compute; reflexivity|]. simpl. lia.
  - right. eexists _, _. split; [vm_compute; reflexivity|]. simpl. lia.
Defined.

(** ** Overwriting a task in place *)

Lemma overwrites_wf w w' p task' files' :
  wf w → overwrites w w' p task' files' → wf w'.
Proof.
  intros [Hst Hfi Hinj Hown] (task & Hp & Hfiles & Htasks & Hobjs & Harrs).
  split.
  - intros id q. rewrite Htasks, Hobjs. intros Hq.
    apply lookup_insert_is_Some'. right. eauto.
  - intros q t. rewrite Hobjs, Harrs. rewrite lookup_insert_Some.
    intros [[<- <-]|[Hne Hq]]; apply lookup_insert_is_Some'.
    + left. done.
    + right. eauto.
  - intros id1 id2 q. rewrite Htasks. apply Hinj.
  - intros p1 p2 t1 t2. rewrite Hobjs, !lookup_insert_Some.
    intros [[<- <-]|[Hne1 H1]] [[<- <-]|[Hne2 H2]] Heq; try done.
    + apply (Hown p p2 task t2); congruence.
    + apply (Hown p1 p t1 task); congruence.
    + by apply (Hown p1 p2 t1 t2).
Qed.

Lemma overwrites_deref w w' p task' files' :
  overwrites w w' p task' files' → deref w' p = Some (task', files').
Proof.
  intros (task & Hp & Hfiles & Htasks & Hobjs & Harrs).
  unfold deref. rewrite Hobjs, lookup_insert_eq, Harrs, Hfiles, lookup_insert_eq. done.
Qed.

Lemma overwrites_deref_other w w' p task' files' q :
  wf w → overwrites w w' p task' files' → q ≠ p → deref w' q = deref w q.
Proof.
  intros Hwf (task & Hp & Hfiles & Htasks & Hobjs & Harrs) Hne.
  unfold deref. rewrite Hobjs, lookup_insert_ne by done.
  destruct (taskObjs w !! q) as [t|] eqn:Hq; [|done].
  rewrite Harrs, lookup_insert_ne; [done|].
  intros Heq. apply Hne. symmetry. by apply (wf_own w Hwf p q task t).
Qed.

Lemma overwrites_stored_other w w' p task' files' id id' :
  wf w → overwrites w w' p task' files' → tasks w !! id = Some p → id' ≠ id →
  stored w' id' = stored w id'.
Proof.
  intros Hwf Hov Hid Hne. unfold stored.
  destruct Hov as (task & Hp & Hfiles & Htasks & Hobjs & Harrs) eqn:E.
  rewrite Htasks. destruct (tasks w !! id') as [q|] eqn:Hq; [|done].
  eapply overwrites_deref_other; [done|by eexists|].
  intros ->. apply Hne. by apply (wf_inj w Hwf id' id p).
Qed.

Lemma alter_twice_other (g h : FileState.t → FileState.t) i j (files : list FileState.t) :
  j ≠ i → alter g i (alter h i files) !! j = files !! j.
Proof. intros Hne. by rewrite !list_lookup_alter_ne. Qed.

Lemma alter_twice_URL (g h : FileState.t → FileState.t) i (files : list FileState.t) :
  (∀ f, FileState.URL (g f) = FileState.URL f) →
  (∀ f, FileState.URL (h f) = FileState.URL f) →
  FileState.URL <$> alter g i (alter h i files) = FileState.URL <$> files.
Proof.
  intros Hg Hh. apply list_eq. intros j. rewrite !list_lookup_fmap.
  destruct (decide (j = i)) as [->|Hne].
  - rewrite !list_lookup_alter_eq. destruct (files !! i); simpl; [|done].
    by rewrite Hg, Hh.
  - by rewrite !list_lookup_alter_ne.
Qed.

(** C10.  A call of [updateFileState] on a known task at an index in range
    writes the status and the error of the file at that index, the status
    of the task and its [UpdatedAt].  The other files of the task, all URLs,
    the [ID], [CreatedAt] and slice of the task, every other task of the
    store, the map and the queue stay as they were. *)
Theorem updateFileState_frame w taskID index status errMsg t files :
  wf w → stored w taskID = Some (t, files) →
  (0 ≤ index < Z.of_nat (length files))%Z →
  ∃ w' t' files',
    updateFileState taskID index status errMsg w = Returns () w' ∧
    stored w' taskID = Some (t', files') ∧
    Task.ID t' = Task.ID t ∧ Task.CreatedAt t' = Task.CreatedAt t ∧
    Task.Files t' = Task.Files t ∧
    length files' = length files ∧
    (∀ j, j ≠ Z.to_nat index → files' !! j = files !! j) ∧
    FileState.URL <$> files' = FileState.URL <$> files ∧
    (∀ id, id ≠ taskID → stored w' id = stored w id) ∧
    tasks w' = tasks w ∧ jobs w' = jobs w ∧
    queueSize w' = queueSize w ∧ draining w' = draining w.
Proof.
  intros Hwf Hs Hi. apply stored_Some in Hs as (p & Hp & Ht & Hf).
  eexists _, _, _. split; [by apply (updateFileState_known _ _ _ _ _ p t files)|].
  match goal with |- stored ?w' _ = _ ∧ _ =>
    assert (overwrites w w' p
              (Task.mk (Task.ID t) (Task.Files t)
                 (aggregateStatus
                    (alter (FileState.set_Error errMsg) (Z.to_nat index)
                       (alter (FileState.set_Status status) (Z.to_nat index) files)))
                 (Task.CreatedAt t) (clock w (ticks w)))
              (alter (FileState.set_Error errMsg) (Z.to_nat index)
                 (alter (FileState.set_Status status) (Z.to_nat index) files))) as Hov
      by (by exists t)
  end.
  split.
  { unfold stored. simpl. rewrite Hp. apply (overwrites_deref _ _ _ _ _ Hov). }
  simpl. split_and!; try done.
  - by rewrite !length_alter.
  - intros j Hj. by apply alter_twice_other.
  - by apply alter_twice_URL.
  - intros id Hid. by apply (overwrites_stored_other _ _ _ _ _ taskID id Hwf Hov).
Qed.

(** ** Well-formedness is kept *)

Lemma wf_same_heap w w' : same_heap w w' → wf w → wf w'.
Proof.
  intros (Ht & Ho & Ha) [H1 H2 H3 H4].
  split; rewrite ?Ht, ?Ho, ?Ha; done.
Qed.

Lemma deref_same_heap w w' q : same_heap w w' → deref w' q = deref w q.
Proof. intros (Ht & Ho & Ha). unfold deref. by rewrite Ho, Ha. Qed.

Lemma stored_same_heap w w' id : same_heap w w' → stored w' id = stored w id.
Proof.
  intros H. unfold stored. rewrite (proj1 H).
  destruct (tasks w !! id); [|done]. by apply deref_same_heap.
Qed.

Lemma same_heap_refl w : same_heap w w.
Proof. done. Qed.

Lemma wf_allocates w w' p task files : wf w → allocates w w' p task files → wf w'.
Proof.
  intros [Hst Hfi Hinj Hown] (Hp & Ha & Htasks & Hobjs & Harrs). split.
  - intros id q. rewrite Htasks, Hobjs. intros Hq.
    apply lookup_insert_is_Some'. right. eauto.
  - intros q t. rewrite Hobjs, Harrs, lookup_insert_Some.
    intros [[<- <-]|[Hne Hq]]; apply lookup_insert_is_Some'; [by left|right; eauto].
  - intros id1 id2 q. rewrite Htasks. apply Hinj.
  - intros p1 p2 t1 t2. rewrite Hobjs, !lookup_insert_Some.
    intros [[<- <-]|[Hne1 H1]] [[<- <-]|[Hne2 H2]] Heq; try done.
    + destruct (Hfi p2 t2 H2) as [x Hx]. congruence.
    + destruct (Hfi p1 t1 H1) as [x Hx]. congruence.
    + by apply (Hown p1 p2 t1 t2).
Qed.

Lemma deref_allocates w w' p task files q :
  wf w → allocates w w' p task files → is_Some (taskObjs w !! q) →
  deref w' q = deref w q.
Proof.
  intros Hwf (Hp & Ha & Htasks & Hobjs & Harrs) [tq Hq]. unfold deref.
  rewrite Hobjs, lookup_insert_ne by congruence. rewrite Hq.
  destruct (wf_files w Hwf q tq Hq) as [fs Hfs].
  rewrite Harrs, lookup_insert_ne by congruence. done.
Qed.

Lemma stored_allocates w w' p task files id :
  wf w → allocates w w' p task files → stored w' id = stored w id.
Proof.
  intros Hwf Hal. unfold stored. rewrite (proj1 (proj2 (proj2 Hal))).
  destruct (tasks w !! id) as [q|] eqn:Hq; [|done].
  eapply deref_allocates; [done..|]. by apply (wf_stored w Hwf id).
Qed.

Lemma wf_stores w w' id p :
  wf w → stores w w' id p → is_Some (taskObjs w !! p) →
  (∀ id', tasks w !! id' ≠ Some p) → wf w'.
Proof.
  intros [Hst Hfi Hinj Hown] (Htasks & Hobjs & Harrs) Hp Hfresh. split.
  - intros id' q. rewrite Htasks, Hobjs, lookup_insert_Some.
    intros [[<- <-]|[Hne Hq]]; eauto.
  - intros q t. rewrite Hobjs, Harrs. apply Hfi.
  - intros id1 id2 q. rewrite Htasks, !lookup_insert_Some.
    intros [[<- <-]|[Hne1 H1]] [[<- Heq]|[Hne2 H2]]; try done.
    + by destruct (Hfresh id2).
    + subst. by destruct (Hfresh id1).
    + by apply (Hinj id1 id2 q).
  - intros p1 p2 t1 t2. rewrite Hobjs. apply Hown.
Qed.

Lemma stored_stores_other w w' id p id' :
  stores w w' id p → id' ≠ id → stored w' id' = stored w id'.
Proof.
  intros (Htasks & Hobjs & Harrs) Hne. unfold stored, deref.
  rewrite Htasks, lookup_insert_ne, Hobjs, Harrs by done. done.
Qed.

Lemma stored_stores w w' id p :
  stores w w' id p → stored w' id = deref w p.
Proof.
  intros (Htasks & Hobjs & Harrs). unfold stored, deref.
  rewrite Htasks, lookup_insert_eq, Hobjs, Harrs. done.
Qed.

(** ** Private structs are left alone *)

Lemma evolves_refl w : wf w → evolves w w.
Proof. intros Hwf. split; [done| |done|done]. intros q Hq. done. Qed.

Lemma evolves_same_heap w0 w w' : evolves w0 w → same_heap w w' → evolves w0 w'.
Proof.
  intros [Hwf Hfr Hs Ha] Hsame. pose proof Hsame as (Ht & Ho & Har). split.
  - by apply (wf_same_heap w).
  - intros q Hq. destruct (Hfr q Hq) as [[Hal Hns] Hd]. split.
    + split; [by rewrite Ho|by rewrite Ht].
    + by rewrite (deref_same_heap w w').
  - intros q Hq. rewrite Ho. auto.
  - intros a Hq. rewrite Har. auto.
Qed.

Lemma evolves_allocates w0 w w' p task files :
  evolves w0 w → allocates w w' p task files → evolves w0 w'.
Proof.
  intros [Hwf Hfr Hs Ha] Hal.
  pose proof Hal as (Hp & Harr & Htasks & Hobjs & Harrs). split.
  - by apply (wf_allocates w w' p task files).
  - intros q Hq. destruct (Hfr q Hq) as [[Hq1 Hq2] Hd]. split.
    + split; [|by rewrite Htasks].
      rewrite Hobjs. apply lookup_insert_is_Some'. by right.
    + rewrite <- Hd. by apply (deref_allocates w w' p task files).
  - intros q Hq. rewrite Hobjs. apply lookup_insert_is_Some'. right. auto.
  - intros a Hq. rewrite Harrs. apply lookup_insert_is_Some'. right. auto.
Qed.

Lemma evolves_overwrites w0 w w' id p task' files' :
  evolves w0 w → tasks w !! id = Some p → overwrites w w' p task' files' →
  evolves w0 w'.
Proof.
  intros [Hwf Hfr Hs Ha] Hid Hov.
  pose proof Hov as (task & Hp & Hfiles & Htasks & Hobjs & Harrs). split.
  - by apply (overwrites_wf w w' p task' files').
  - intros q Hq. destruct (Hfr q Hq) as [[Hq1 Hq2] Hd].
    assert (q ≠ p) as Hne by (intros ->; by destruct (Hq2 id)). split.
    + split; [|by rewrite Htasks].
      rewrite Hobjs. apply lookup_insert_is_Some'. by right.
    + rewrite <- Hd. by apply (overwrites_deref_other w w' p task' files').
  - intros q Hq. rewrite Hobjs. apply lookup_insert_is_Some'. right. auto.
  - intros a Hq. rewrite Harrs. apply lookup_insert_is_Some'. right. auto.
Qed.

Lemma evolves_touches w0 w w' id : evolves w0 w → touches id w w' → evolves w0 w'.
Proof.
  intros Hev [Hsame|(p & task' & files' & Hid & Hov)].
  - by apply (evolves_same_heap w0 w).
  - by apply (evolves_overwrites w0 w w' id p task' files').
Qed.

Lemma evolves_stores w0 w w' id p :
  evolves w0 w → stores w w' id p → is_Some (taskObjs w !! p) →
  (∀ id', tasks w !! id' ≠ Some p) → taskObjs w0 !! p = None →
  evolves w0 w'.
Proof.
  intros [Hwf Hfr Hs Ha] Hsto Hp Hfresh Hnew.
  pose proof Hsto as (Htasks & Hobjs & Harrs). split.
  - by apply (wf_stores w w' id p).
  - intros q Hq. destruct (Hfr q Hq) as [[Hq1 Hq2] Hd].
    assert (q ≠ p) as Hne.
    { intros ->. destruct Hq as [[x Hx] _]. congruence. }
    split.
    + split; [by rewrite Hobjs|].
      intros id'. rewrite Htasks, lookup_insert_Some.
      intros [[_ Heq]|[_ Heq]]; [congruence|by destruct (Hq2 id')].
    + rewrite <- Hd. unfold deref. by rewrite Hobjs, Harrs.
  - intros q Hq. rewrite Hobjs. auto.
  - intros a Hq. rewrite Harrs. auto.
Qed.

(** ** What each function does to the heap *)

Lemma send_world job w w' :
  world_of (send job w) = Some w' → same_heap w w' ∧ ticks w' = ticks w.
Proof. unfold send. case_decide; intros [= <-]; done. Qed.

Lemma enqueueJob_touches id idx w w' :
  world_of (enqueueJob id idx w) = Some w' → touches id w w'.
Proof.
  unfold enqueueJob.
  destruct (tasks w !! id) as [p|] eqn:Hp; [|intros [= <-]; by left].
  destruct (taskObjs w !! p) as [task|] eqn:Ht; [|done].
  destruct (fileArrays w !! Task.Files task) as [files|] eqn:Hf; [|done].
  destruct (outOfRange idx files); [intros [= <-]; by left|].
  destruct (files !! Z.to_nat idx) as [f|]; [|done].
  destruct (String.eqb (FileState.Status f) "completed"); [intros [= <-]; by left|].
  simpl. intros Hsend. apply send_world in Hsend as [(H1 & H2 & H3) _]. simpl in *.
  right. eexists p, (Task.set_UpdatedAt _ task), _. split; [done|].
  exists task. split_and!; done.
Qed.

Lemma processJob_begin_touches job w w' :
  world_of (processJob_begin job w) = Some w' → touches (TaskID job) w w'.
Proof.
  unfold processJob_begin.
  destruct (tasks w !! TaskID job) as [p|] eqn:Hp; [|intros [= <-]; by left].
  destruct (taskObjs w !! p) as [task|] eqn:Ht; [|done].
  destruct (fileArrays w !! Task.Files task) as [files|] eqn:Hf; [|done].
  destruct (outOfRange (FileIndex job) files); [intros [= <-]; by left|].
  destruct (files !! Z.to_nat (FileIndex job)) as [f|]; [|done].
  destruct (String.eqb (FileState.Status f) "completed"); [intros [= <-]; by left|].
  simpl. intros [= <-].
  right. eexists p, (Task.set_Status _ (Task.set_UpdatedAt _ task)), _. split; [done|].
  exists task. split_and!; done.
Qed.

Lemma updateFileState_touches id idx status errMsg w w' :
  world_of (updateFileState id idx status errMsg w) = Some w' → touches id w w'.
Proof.
  unfold updateFileState.
  destruct (tasks w !! id) as [p|] eqn:Hp; [|intros [= <-]; by left].
  destruct (taskObjs w !! p) as [task|] eqn:Ht; [|done].
  destruct (fileArrays w !! Task.Files task) as [files|] eqn:Hf; [|done].
  destruct (outOfRange idx files); [intros [= <-]; by left|].
  simpl. intros [= <-].
  right. eexists p, (Task.set_Status _ (Task.set_UpdatedAt _ task)), _. split; [done|].
  exists task. split_and!; done.
Qed.

Lemma fresh_struct w : taskObjs w !! fresh (dom (taskObjs w)) = None.
Proof. apply not_elem_of_dom, is_fresh. Qed.

Lemma fresh_array w : fileArrays w !! fresh (dom (fileArrays w)) = None.
Proof. apply not_elem_of_dom, is_fresh. Qed.

(** [registerTask] allocates a task whose files are all pending and puts
    it in the map. *)
Lemma registerTask_eq id urls w :
  registerTask id urls w =
  (fresh (dom (taskObjs w)),
   mkWorld (<[id := fresh (dom (taskObjs w))]> (tasks w)) (jobs w) (queueSize w)
     (draining w)
     (<[fresh (dom (taskObjs w)) :=
          Task.mk id (fresh (dom (fileArrays w))) "pending"
                  (clock w (ticks w)) (clock w (ticks w))]> (taskObjs w))
     (<[fresh (dom (fileArrays w)) := (λ u, FileState.mk u "pending" "") <$> urls]>
        (fileArrays w))
     (clock w) (S (ticks w))).
Proof. reflexivity. Qed.

Lemma registerTask_evolves w0 id urls w :
  evolves w0 w → evolves w0 (registerTask id urls w).2.
Proof.
  intros Hev. rewrite registerTask_eq. simpl.
  set (p := fresh (dom (taskObjs w))). set (a := fresh (dom (fileArrays w))).
  set (task := Task.mk id a "pending" (clock w (ticks w)) (clock w (ticks w))).
  set (files := (λ u, FileState.mk u "pending" "") <$> urls).
  set (w1 := mkWorld (tasks w) (jobs w) (queueSize w) (draining w)
               (<[p := task]> (taskObjs w)) (<[a := files]> (fileArrays w))
               (clock w) (S (ticks w))).
  assert (allocates w w1 p task files) as Hal.
  { split_and!; try done; [apply fresh_struct|apply fresh_array]. }
  assert (evolves w0 w1) as Hev1 by by apply (evolves_allocates w0 w w1 p task files).
  apply (evolves_stores w0 w1 _ id p); [done|done| | |].
  - simpl. rewrite lookup_insert_eq. eauto.
  - simpl. intros id' Hid'. destruct (wf_stored w (ev_wf _ _ Hev) id' p Hid') as [x Hx].
    pose proof (fresh_struct w). unfold p in Hx. congruence.
  - destruct (taskObjs w0 !! p) eqn:E; [|done].
    destruct (ev_structs _ _ Hev p) as [x Hx]; [eauto|].
    pose proof (fresh_struct w). unfold p in Hx. congruence.
Qed.

Lemma copy_slice_zeroed (files : list FileState.t) (z : FileState.t) :
  copy_slice (replicate (length files) z) files = files.
Proof.
  unfold copy_slice. rewrite length_replicate, firstn_all, drop_replicate.
  replace (length files - length files) with 0 by lia. simpl. by rewrite app_nil_r.
Qed.

(** [GetTask] returns [None] and leaves the world alone, or allocates a
    copy of the struct with an array of its own. *)
Lemma GetTask_known id w p t files :
  tasks w !! id = Some p → taskObjs w !! p = Some t →
  fileArrays w !! Task.Files t = Some files →
  GetTask id w =
  Returns (Some (fresh (dom (taskObjs w))))
    (mkWorld (tasks w) (jobs w) (queueSize w) (draining w)
       (<[fresh (dom (taskObjs w)) := Task.set_Files (fresh (dom (fileArrays w))) t]>
          (taskObjs w))
       (<[fresh (dom (fileArrays w)) := files]> (fileArrays w))
       (clock w) (ticks w)).
Proof.
  intros Hp Ht Hf. unfold GetTask. rewrite Hp, Ht. simpl. rewrite Hf. simpl.
  rewrite copy_slice_zeroed, !insert_insert_eq. done.
Qed.

Lemma GetTask_unknown id w : tasks w !! id = None → GetTask id w = Returns None w.
Proof. intros Hp. unfold GetTask. by rewrite Hp. Qed.

Lemma GetTask_evolves w0 id w r w' :
  evolves w0 w → GetTask id w = Returns r w' → evolves w0 w'.
Proof.
  intros Hev. destruct (tasks w !! id) as [p|] eqn:Hp.
  - destruct (wf_stored w (ev_wf _ _ Hev) id p Hp) as [t Ht].
    destruct (wf_files w (ev_wf _ _ Hev) p t Ht) as [files Hf].
    rewrite (GetTask_known id w p t files) by done. intros [= <- <-].
    eapply (evolves_allocates w0 w); [done|].
    split_and!; try done; [apply fresh_struct|apply fresh_array].
  - rewrite GetTask_unknown by done. by intros [= <- <-].
Qed.

(** ** The loops of LoadFromSnapshot *)

Lemma World_eta w :
  mkWorld (tasks w) (jobs w) (queueSize w) (draining w) (taskObjs w)
          (fileArrays w) (clock w) (ticks w) = w.
Proof. by destruct w. Qed.

Lemma alter_middle (g : FileState.t → FileState.t) (done rest : list FileState.t) f :
  alter g (length done) (done ++ f :: rest) = done ++ g f :: rest.
Proof. induction done as [|x done IH]; [done|]. simpl. f_equal. exact IH. Qed.

Lemma resetFile_not_completed f :
  String.eqb (FileState.Status f) "completed" = false →
  FileState.set_Error "" (FileState.set_Status "pending" f) = resetFile f.
Proof. intros H. unfold resetFile. by rewrite H. Qed.

Lemma resetFile_completed f :
  String.eqb (FileState.Status f) "completed" = true → resetFile f = f.
Proof. intros H. unfold resetFile. by rewrite H. Qed.

Lemma requeue_loop id a rest : ∀ done w,
  fileArrays w !! a = Some (done ++ rest) →
  fits w (requeued id (length done) rest) →
  forEach (requeueFile id a) (seq (length done) (length rest)) w =
  Returns () (mkWorld (tasks w) (jobs w ++ requeued id (length done) rest)
                (queueSize w) (draining w) (taskObjs w)
                (<[a := done ++ (resetFile <$> rest)]> (fileArrays w))
                (clock w) (ticks w)).
Proof.
  induction rest as [|f rest IH]; intros done w Ha Hfits.
  - simpl. rewrite !app_nil_r, insert_id by (by rewrite app_nil_r in Ha).
    by rewrite World_eta.
  - simpl. unfold requeueFile at 1. rewrite Ha, list_lookup_middle by done.
    simpl in Hfits.
    destruct (String.eqb (FileState.Status f) "completed") eqn:Hc; simpl.
    + specialize (IH (done ++ [f]) w).
      rewrite length_app, Nat.add_1_r in IH. rewrite IH.
      * rewrite <- app_assoc. simpl. by rewrite resetFile_completed.
      * by rewrite <- app_assoc.
      * done.
    + rewrite !alter_middle. unfold send.
      destruct Hfits as [Hnil|Hroom]; [done|]. simpl in Hroom. simpl.
      rewrite decide_True by lia. simpl.
      rewrite resetFile_not_completed by done.
      match goal with |- forEach _ _ ?w1 = _ => specialize (IH (done ++ [resetFile f]) w1) end.
      rewrite length_app, Nat.add_1_r in IH. rewrite IH.
      * simpl. rewrite insert_insert_eq, <- !app_assoc. done.
      * simpl. rewrite lookup_insert_eq, <- app_assoc. done.
      * right. simpl. rewrite length_app. simpl. lia.
Qed.

Lemma requeue_loop_blocks id a rest : ∀ done w,
  fileArrays w !! a = Some (done ++ rest) →
  ¬ fits w (requeued id (length done) rest) →
  ∃ wb, forEach (requeueFile id a) (seq (length done) (length rest)) w = Blocks wb.
Proof.
  induction rest as [|f rest IH]; intros done w Ha Hfits.
  - destruct Hfits. by left.
  - simpl. unfold requeueFile at 1. rewrite Ha, list_lookup_middle by done.
    simpl in Hfits.
    destruct (String.eqb (FileState.Status f) "completed") eqn:Hc; simpl.
    + specialize (IH (done ++ [f]) w).
      rewrite length_app, Nat.add_1_r in IH. apply IH; [|done].
      by rewrite <- app_assoc.
    + rewrite !alter_middle. unfold send. simpl.
      case_decide as Hroom; simpl; [|eauto].
      match goal with |- ∃ _, forEach _ _ ?w1 = _ =>
        specialize (IH (done ++ [FileState.set_Error "" (FileState.set_Status "pending" f)]) w1)
      end.
      rewrite length_app, Nat.add_1_r in IH. apply IH.
      * simpl. rewrite lookup_insert_eq, <- app_assoc. done.
      * intros [Hnil|Hle]; apply Hfits; right; simpl in *.
        -- rewrite Hnil. simpl. lia.
        -- rewrite length_app in Hle. simpl in Hle. lia.
Qed.

Lemma loadTask_fits now e w :
  decoded_in w e →
  fits w (requeued (dec_id e) 0 (doc_Files (dec_doc e))) →
  loadTask now (dec_id e, dec_ptr e) w = Returns () (loadOne now w e).
Proof.
  intros [Hp Ha] Hfits. unfold loadTask. simpl. rewrite Hp. simpl. rewrite Ha.
  rewrite (requeue_loop (dec_id e) (dec_arr e) (doc_Files (dec_doc e)) [] _); [|done|done].
  simpl. rewrite lookup_insert_eq, insert_insert_eq. done.
Qed.

Lemma loadTask_blocks now e w :
  decoded_in w e →
  ¬ fits w (requeued (dec_id e) 0 (doc_Files (dec_doc e))) →
  ∃ wb, loadTask now (dec_id e, dec_ptr e) w = Blocks wb.
Proof.
  intros [Hp Ha] Hfits. unfold loadTask. simpl. rewrite Hp. simpl. rewrite Ha.
  match goal with |- ∃ _, bind (forEach _ _ ?w1) _ = _ =>
    destruct (requeue_loop_blocks (dec_id e) (dec_arr e) (doc_Files (dec_doc e)) [] w1)
      as [wb Hwb]; [done|done|]
  end.
  simpl in Hwb. rewrite Hwb. simpl. eauto.
Qed.

Lemma fits_app w sent1 sent2 :
  fits w (sent1 ++ sent2) →
  fits w sent1 ∧
  ∀ w', jobs w' = jobs w ++ sent1 → queueSize w' = queueSize w → fits w' sent2.
Proof.
  intros [Hnil|Hroom].
  - apply app_eq_nil in Hnil as [-> ->]. split; [by left|]. intros w' _ _. by left.
  - rewrite length_app in Hroom. split; [right; lia|].
    intros w' Hj Hq. right. rewrite Hj, Hq, length_app. lia.
Qed.

Lemma fits_decide w sent : fits w sent ∨ ¬ fits w sent.
Proof.
  destruct sent as [|job sent]; [left; by left|].
  destruct (le_gt_dec (length (jobs w) + length (job :: sent)) (queueSize w)) as [H|H].
  - left. by right.
  - right. intros [?|?]; [done|lia].
Qed.

Lemma not_fits_app w sent1 sent2 w' :
  ¬ fits w (sent1 ++ sent2) → fits w sent1 →
  jobs w' = jobs w ++ sent1 → queueSize w' = queueSize w → ¬ fits w' sent2.
Proof.
  intros Hno H1 Hj Hq [Hnil|Hroom]; apply Hno.
  - subst. by rewrite app_nil_r.
  - right. rewrite Hj, Hq, length_app in Hroom. rewrite length_app. lia.
Qed.

Lemma decoded_in_loadOne now w e0 e :
  dec_ptr e ≠ dec_ptr e0 → dec_arr e ≠ dec_arr e0 →
  decoded_in w e → decoded_in (loadOne now w e0) e.
Proof.
  intros Hp Ha [H1 H2]. split; simpl; by rewrite lookup_insert_ne.
Qed.

Lemma Forall_decoded_in_loadOne now w e0 l :
  dec_ptr e0 ∉ dec_ptr <$> l → dec_arr e0 ∉ dec_arr <$> l →
  Forall (decoded_in w) l → Forall (decoded_in (loadOne now w e0)) l.
Proof.
  intros Hp Ha Hall. apply Forall_forall. intros e He.
  apply decoded_in_loadOne.
  - intros Heq. apply Hp. rewrite <- Heq. by apply list_elem_of_fmap_2.
  - intros Heq. apply Ha. rewrite <- Heq. by apply list_elem_of_fmap_2.
  - by apply (proj1 (Forall_forall _ _) Hall).
Qed.

Lemma forEach_cons {A : Type} (body : A → World → result unit) x rest w :
  forEach body (x :: rest) w = bind (body x w) (λ _ w', forEach body rest w').
Proof. reflexivity. Qed.

Lemma bind_Returns {A B : Type} (a : A) w (k : A → World → result B) :
  bind (Returns a w) k = k a w.
Proof. reflexivity. Qed.

Lemma bind_Blocks {A B : Type} w (k : A → World → result B) :
  bind (Blocks w) k = Blocks w.
Proof. reflexivity. Qed.

(** The outer loop, when every send goes through. *)
Lemma load_loop now l : ∀ w,
  Forall (decoded_in w) l → NoDup (dec_ptr <$> l) → NoDup (dec_arr <$> l) →
  fits w (requeuedAll l) →
  forEach (loadTask now) ((λ e, (dec_id e, dec_ptr e)) <$> l) w =
  Returns () (foldl (loadOne now) w l).
Proof.
  induction l as [|e0 l IH]; intros w Hall Hp Ha Hfits; [done|].
  apply Forall_cons in Hall as [H0 Hall].
  rewrite fmap_cons in Hp, Ha. apply NoDup_cons in Hp as [Hp0 Hp], Ha as [Ha0 Ha].
  simpl in Hfits. apply fits_app in Hfits as [Hf0 Hf].
  rewrite fmap_cons, forEach_cons, loadTask_fits, bind_Returns by done.
  change (foldl (loadOne now) w (e0 :: l)) with (foldl (loadOne now) (loadOne now w e0) l).
  apply IH; [by apply Forall_decoded_in_loadOne|done|done|].
  by apply Hf.
Qed.

(** The outer loop, when some send finds the channel full. *)
Lemma load_loop_blocks now l : ∀ w,
  Forall (decoded_in w) l → NoDup (dec_ptr <$> l) → NoDup (dec_arr <$> l) →
  ¬ fits w (requeuedAll l) →
  ∃ wb, forEach (loadTask now) ((λ e, (dec_id e, dec_ptr e)) <$> l) w = Blocks wb.
Proof.
  induction l as [|e0 l IH]; intros w Hall Hp Ha Hfits.
  { destruct Hfits. by left. }
  apply Forall_cons in Hall as [H0 Hall].
  rewrite fmap_cons in Hp, Ha. apply NoDup_cons in Hp as [Hp0 Hp], Ha as [Ha0 Ha].
  simpl in Hfits. rewrite fmap_cons, forEach_cons.
  destruct (fits_decide w (requeued (dec_id e0) 0 (doc_Files (dec_doc e0)))) as [Hf0|Hf0].
  - rewrite loadTask_fits, bind_Returns by done.
    apply IH; [by apply Forall_decoded_in_loadOne|done|done|].
    by apply (not_fits_app w _ _ _ Hfits Hf0).
  - destruct (loadTask_blocks now e0 w H0 Hf0) as [wb Hwb].
    rewrite Hwb, bind_Blocks. eauto.
Qed.

(** ** Folds of insertions *)

Section foldl_insert.
Context {K V E : Type} `{Countable K}.
Variables (k : E → K) (v : E → V).

Lemma foldl_insert_out (l : list E) : ∀ (m : gmap K V) key,
  key ∉ k <$> l → foldl (λ m e, <[k e := v e]> m) m l !! key = m !! key.
Proof.
  induction l as [|e l IH]; intros m key Hkey; [done|].
  rewrite fmap_cons in Hkey. apply not_elem_of_cons in Hkey as [Hne Hkey].
  simpl. rewrite IH by done. by rewrite lookup_insert_ne.
Qed.

Lemma foldl_insert_in (l : list E) : ∀ (m : gmap K V) e,
  NoDup (k <$> l) → e ∈ l →
  foldl (λ m e, <[k e := v e]> m) m l !! k e = Some (v e).
Proof.
  induction l as [|e0 l IH]; intros m e Hnd He; [by apply elem_of_nil in He|].
  rewrite fmap_cons in Hnd. apply NoDup_cons in Hnd as [Hnew Hnd].
  apply elem_of_cons in He as [->|He]; simpl.
  - rewrite foldl_insert_out by done. apply lookup_insert_eq.
  - by apply IH.
Qed.
End foldl_insert.

Lemma loadAll_fields now l : ∀ w,
  tasks (foldl (loadOne now) w l) =
    foldl (λ m e, <[dec_id e := dec_ptr e]> m) (tasks w) l ∧
  taskObjs (foldl (loadOne now) w l) =
    foldl (λ m e, <[dec_ptr e := loadedTask now e]> m) (taskObjs w) l ∧
  fileArrays (foldl (loadOne now) w l) =
    foldl (λ m e, <[dec_arr e := resetFile <$> doc_Files (dec_doc e)]> m) (fileArrays w) l ∧
  jobs (foldl (loadOne now) w l) = jobs w ++ requeuedAll l ∧
  queueSize (foldl (loadOne now) w l) = queueSize w ∧
  draining (foldl (loadOne now) w l) = draining w ∧
  clock (foldl (loadOne now) w l) = clock w ∧
  ticks (foldl (loadOne now) w l) = ticks w.
Proof.
  induction l as [|e l IH]; intros w; simpl.
  - by rewrite app_nil_r.
  - destruct (IH (loadOne now w e)) as (-> & -> & -> & -> & -> & -> & -> & ->).
    simpl. by rewrite <- app_assoc.
Qed.

Lemma requeuedAll_sentBy l :
  requeuedAll l = sentBy ((λ e, (dec_id e, dec_doc e)) <$> l).
Proof.
  unfold requeuedAll, sentBy. induction l as [|e l IH]; [done|].
  simpl. by rewrite IH.
Qed.

(** ** Decoding the snapshot *)

Lemma decode_layout entries : ∀ w ptrs w1,
  decode entries w = (ptrs, w1) →
  ∃ l,
    ptrs = (λ e, (dec_id e, dec_ptr e)) <$> l ∧
    entries = (λ e, (dec_id e, dec_doc e)) <$> l ∧
    Forall (decoded_in w1) l ∧
    NoDup (dec_ptr <$> l) ∧ NoDup (dec_arr <$> l) ∧
    Forall (λ e, taskObjs w !! dec_ptr e = None ∧ fileArrays w !! dec_arr e = None) l ∧
    (tasks w1 = tasks w ∧ jobs w1 = jobs w ∧ queueSize w1 = queueSize w ∧
     draining w1 = draining w ∧ clock w1 = clock w ∧ ticks w1 = ticks w) ∧
    (∀ q, is_Some (taskObjs w !! q) → taskObjs w1 !! q = taskObjs w !! q) ∧
    (∀ a, is_Some (fileArrays w !! a) → fileArrays w1 !! a = fileArrays w !! a) ∧
    (∀ w0, evolves w0 w → evolves w0 w1).
Proof.
  induction entries as [|[id d] entries IH]; intros w ptrs w1.
  - intros [= <- <-]. exists []. split_and!; try done; constructor.
  - simpl.
    set (a := fresh (dom (fileArrays w))). set (p := fresh (dom (taskObjs w))).
    set (task := Task.mk (doc_ID d) a (doc_Status d) (doc_CreatedAt d) (doc_UpdatedAt d)).
    set (w2 := set_taskObjs (<[p := task]> (taskObjs w))
                 (set_fileArrays (<[a := doc_Files d]> (fileArrays w)) w)).
    destruct (decode entries w2) as [ps w3] eqn:E. intros [= <- <-].
    destruct (IH w2 ps w3 E)
      as (l & -> & -> & Hdec & Hnp & Hna & Hnew & Hsame & Hobjs & Harrs & Hev).
    destruct Hsame as (Hs1 & Hs2 & Hs3 & Hs4 & Hs5 & Hs6).
    assert (taskObjs w2 !! p = Some task) as Hp2 by (simpl; apply lookup_insert_eq).
    assert (fileArrays w2 !! a = Some (doc_Files d)) as Ha2 by (simpl; apply lookup_insert_eq).
    assert (allocates w w2 p task (doc_Files d)) as Hal.
    { split_and!; try done; [apply fresh_struct|apply fresh_array]. }
    exists (mkDecoded id p a d :: l).
    split_and!; try done; try (rewrite ?Hs1, ?Hs2, ?Hs3, ?Hs4, ?Hs5, ?Hs6; done).
    + constructor; [|done]. split; simpl.
      * rewrite Hobjs by eauto. done.
      * rewrite Harrs by eauto. done.
    + rewrite fmap_cons. apply NoDup_cons. split; [|done]. simpl.
      intros (e & Heq & He)%list_elem_of_fmap.
      apply (proj1 (Forall_forall _ _) Hnew) in He as [He _]. congruence.
    + rewrite fmap_cons. apply NoDup_cons. split; [|done]. simpl.
      intros (e & Heq & He)%list_elem_of_fmap.
      apply (proj1 (Forall_forall _ _) Hnew) in He as [_ He]. congruence.
    + constructor; [split; [apply fresh_struct|apply fresh_array]|].
      eapply Forall_impl; [exact Hnew|]. simpl.
      intros e [H1 H2]. apply lookup_insert_None in H1 as [H1 _].
      apply lookup_insert_None in H2 as [H2 _]. done.
    + intros q Hq. rewrite Hobjs.
      * simpl. apply lookup_insert_ne. intros <-. destruct Hq as [x Hx].
        pose proof (fresh_struct w). unfold p in Hx. congruence.
      * simpl. apply lookup_insert_is_Some'. by right.
    + intros b Hb. rewrite Harrs.
      * simpl. apply lookup_insert_ne. intros <-. destruct Hb as [x Hx].
        pose proof (fresh_array w). unfold a in Hx. congruence.
      * simpl. apply lookup_insert_is_Some'. by right.
    + intros w0 Hw0. apply Hev. by apply (evolves_allocates w0 w w2 p task (doc_Files d)).
Qed.

Lemma loadOne_evolves now w0 w e :
  evolves w0 w → decoded_in w e → (∀ id, tasks w !! id ≠ Some (dec_ptr e)) →
  taskObjs w0 !! dec_ptr e = None → evolves w0 (loadOne now w e).
Proof.
  intros Hev [Hp Ha] Hnot Hnew.
  set (ws := set_tasks (<[dec_id e := dec_ptr e]> (tasks w)) w).
  assert (evolves w0 ws) as Hevs.
  { apply (evolves_stores w0 w ws (dec_id e) (dec_ptr e)); eauto. done. }
  apply (evolves_overwrites w0 ws _ (dec_id e) (dec_ptr e) (loadedTask now e)
           (resetFile <$> doc_Files (dec_doc e))); [done| |].
  - simpl. apply lookup_insert_eq.
  - exists (decodedTask e). split_and!; done.
Qed.

Lemma load_loop_evolves now w0 l : ∀ w,
  evolves w0 w →
  Forall (λ e, decoded_in w e ∧ (∀ id, tasks w !! id ≠ Some (dec_ptr e)) ∧
               taskObjs w0 !! dec_ptr e = None) l →
  NoDup (dec_ptr <$> l) → NoDup (dec_arr <$> l) →
  evolves w0 (foldl (loadOne now) w l).
Proof.
  induction l as [|e0 l IH]; intros w Hev Hall Hp Ha; [done|].
  apply Forall_cons in Hall as [(H0 & Hn0 & Hw0) Hall].
  rewrite fmap_cons in Hp, Ha. apply NoDup_cons in Hp as [Hp0 Hp], Ha as [Ha0 Ha].
  simpl. apply IH; [by apply loadOne_evolves| |done|done].
  apply Forall_forall. intros e He.
  destruct (proj1 (Forall_forall _ _) Hall e He) as (H1 & H2 & H3).
  assert (dec_ptr e ≠ dec_ptr e0) as Hne.
  { intros Heq. apply Hp0. rewrite <- Heq. by apply list_elem_of_fmap_2. }
  split_and!; [|simpl|done].
  - apply decoded_in_loadOne; [done| |done].
    intros Heq. apply Ha0. rewrite <- Heq. by apply list_elem_of_fmap_2.
  - intros id. rewrite lookup_insert_Some. intros [[_ Heq]|[_ Heq]]; [done|].
    by destruct (H2 id).
Qed.

(** ** LoadFromSnapshot as a whole *)

Lemma LoadFromSnapshot_layout entries w :
  ∃ l,
    entries = (λ e, (dec_id e, dec_doc e)) <$> l ∧
    NoDup (dec_ptr <$> l) ∧ NoDup (dec_arr <$> l) ∧
    Forall (λ e, taskObjs w !! dec_ptr e = None ∧ fileArrays w !! dec_arr e = None) l ∧
    (fits w (sentBy entries) →
     ∃ w', LoadFromSnapshot (Some entries) w = Returns () w' ∧
       tasks w' = foldl (λ m e, <[dec_id e := dec_ptr e]> m) (tasks w) l ∧
       (∀ e, e ∈ l →
          taskObjs w' !! dec_ptr e = Some (loadedTask (clock w (ticks w)) e) ∧
          fileArrays w' !! dec_arr e = Some (resetFile <$> doc_Files (dec_doc e))) ∧
       (∀ q, is_Some (taskObjs w !! q) → taskObjs w' !! q = taskObjs w !! q) ∧
       (∀ a, is_Some (fileArrays w !! a) → fileArrays w' !! a = fileArrays w !! a) ∧
       jobs w' = jobs w ++ sentBy entries ∧ queueSize w' = queueSize w ∧
       draining w' = draining w ∧ clock w' = clock w ∧ ticks w' = S (ticks w) ∧
       (∀ w0, evolves w0 w → evolves w0 w')) ∧
    (¬ fits w (sentBy entries) → ∃ wb, LoadFromSnapshot (Some entries) w = Blocks wb).
Proof.
  unfold LoadFromSnapshot. destruct (decode entries w) as [ptrs w1] eqn:E.
  destruct (decode_layout entries w ptrs w1 E)
    as (l & -> & Hent & Hdec & Hnp & Hna & Hnew & Hsame & Hobjs & Harrs & Hev).
  destruct Hsame as (Hs1 & Hs2 & Hs3 & Hs4 & Hs5 & Hs6).
  exists l. split_and!; try done.
  - intros Hfits. simpl. rewrite Hs5, Hs6.
    set (now := clock w (ticks w)). set (w2 := set_ticks (S (ticks w)) w1).
    assert (Forall (decoded_in w2) l) as Hdec2 by done.
    rewrite load_loop; [|done|done|done|].
    2:{ rewrite requeuedAll_sentBy, <- Hent.
        destruct Hfits as [?|?]; [by left|right]. simpl. by rewrite Hs2, Hs3. }
    eexists. split; [done|].
    destruct (loadAll_fields now l w2) as (-> & -> & -> & -> & -> & -> & -> & ->).
    simpl. rewrite Hs1, Hs2, Hs3, Hs4, Hs5, requeuedAll_sentBy, <- Hent.
    split_and!; try done.
    + intros e He. split.
      * by apply (foldl_insert_in dec_ptr (loadedTask now)).
      * by apply (foldl_insert_in dec_arr (λ e, resetFile <$> doc_Files (dec_doc e))).
    + intros q Hq. rewrite foldl_insert_out; [by apply Hobjs|].
      intros (e & -> & He)%list_elem_of_fmap.
      apply (proj1 (Forall_forall _ _) Hnew) in He as [He _].
      destruct Hq as [x Hx]. congruence.
    + intros a Ha. rewrite foldl_insert_out; [by apply Harrs|].
      intros (e & -> & He)%list_elem_of_fmap.
      apply (proj1 (Forall_forall _ _) Hnew) in He as [_ He].
      destruct Ha as [x Hx]. congruence.
    + intros w0 Hw0.
      assert (evolves w0 w2) as Hev2.
      { apply (evolves_same_heap w0 w1); [by apply Hev|done]. }
      apply (load_loop_evolves now w0 l w2 Hev2); [|done|done].
      apply Forall_forall. intros e He.
      destruct (proj1 (Forall_forall _ _) Hnew e He) as [Hn1 Hn2].
      split_and!.
      * by apply (proj1 (Forall_forall _ _) Hdec2).
      * simpl. rewrite Hs1. intros id Hid.
        destruct (wf_stored w (ev_wf _ _ Hw0) id _ Hid) as [x Hx]. congruence.
      * destruct (taskObjs w0 !! dec_ptr e) eqn:E0; [|done].
        destruct (ev_structs _ _ Hw0 (dec_ptr e)) as [x Hx]; [eauto|congruence].
  - intros Hfits. simpl.
    apply load_loop_blocks; [done|done|done|].
    rewrite requeuedAll_sentBy, <- Hent.
    intros [?|?]; apply Hfits; [by left|right]. simpl in *. by rewrite <- Hs2, <- Hs3.
Qed.

Lemma foldl_insert_cases {K V E : Type} `{Countable K} (k : E → K) (v : E → V)
    (l : list E) : ∀ (m : gmap K V) key x,
  foldl (λ m e, <[k e := v e]> m) m l !! key = Some x →
  (∃ e, e ∈ l ∧ k e = key ∧ v e = x) ∨ ((key ∉ k <$> l) ∧ m !! key = Some x).
Proof.
  induction l as [|e0 l IH]; intros m key x; simpl.
  { intros Hm. right. split; [apply not_elem_of_nil|done]. }
  intros Hm. apply IH in Hm as [(e & He & Hk & Hv)|[Hout Hm]].
  - left. exists e. split; [by apply elem_of_cons; right|done].
  - apply lookup_insert_Some in Hm as [[<- <-]|[Hne Hm]].
    + left. exists e0. split; [by apply elem_of_cons; left|done].
    + right. split; [|done]. by apply not_elem_of_cons.
Qed.

(** What a returning [LoadFromSnapshot] leaves in the store. *)
Lemma LoadFromSnapshot_returns entries w w' :
  wf w → LoadFromSnapshot (Some entries) w = Returns () w' →
  fits w (sentBy entries) ∧
  jobs w' = jobs w ++ sentBy entries ∧
  (∀ id t files, stored w' id = Some (t, files) →
     (∃ d, (id, d) ∈ entries ∧
           t = Task.mk (doc_ID d) (Task.Files t) "in‑progress" (doc_CreatedAt d)
                       (clock w (ticks w)) ∧
           files = resetFile <$> doc_Files d) ∨
     ((id ∉ fst <$> entries) ∧ stored w id = Some (t, files))) ∧
  (∀ id, id ∉ fst <$> entries → stored w' id = stored w id) ∧
  (NoDup (fst <$> entries) → ∀ id d, (id, d) ∈ entries →
     ∃ a, stored w' id =
          Some (Task.mk (doc_ID d) a "in‑progress" (doc_CreatedAt d) (clock w (ticks w)),
                resetFile <$> doc_Files d)).
Proof.
  intros Hwf Hret.
  destruct (LoadFromSnapshot_layout entries w)
    as (l & Hent & Hnp & Hna & Hnew & Hfit & Hblock).
  destruct (fits_decide w (sentBy entries)) as [Hfits|Hno].
  2:{ destruct (Hblock Hno) as [wb Hwb]. congruence. }
  split; [done|].
  destruct (Hfit Hfits)
    as (w'' & Heq & Htasks & Hin & Hobjs & Harrs & Hjobs & _ & _ & _ & _ & _).
  assert (w'' = w') as -> by congruence. split; [done|].
  assert ((fst <$> entries) = dec_id <$> l) as Hids.
  { rewrite Hent at 1. rewrite <- list_fmap_compose. done. }
  assert (∀ id q, tasks w !! id = Some q → deref w' q = deref w q) as Hold.
  { intros id q Hq. unfold deref.
    destruct (wf_stored w Hwf id q Hq) as [tq Htq].
    rewrite Hobjs, Htq by eauto.
    rewrite Harrs by (by apply (wf_files w Hwf q)). done. }
  assert (∀ e, e ∈ l → deref w' (dec_ptr e)
            = Some (loadedTask (clock w (ticks w)) e, resetFile <$> doc_Files (dec_doc e)))
    as Hnewd.
  { intros e He. destruct (Hin e He) as [H1 H2]. unfold deref. rewrite H1. simpl.
    by rewrite H2. }
  split_and!.
  - intros id t files Hs. unfold stored in Hs.
    destruct (tasks w' !! id) as [q|] eqn:Hq; [|done]. rewrite Htasks in Hq.
    apply foldl_insert_cases in Hq as [(e & He & <- & <-)|Hq].
    + left. exists (dec_doc e). rewrite Hnewd in Hs by done.
      injection Hs as <- <-. split; [|done].
      rewrite Hent. by apply (list_elem_of_fmap_2 (λ e, (dec_id e, dec_doc e))).
    + destruct Hq as [Hout Hq]. right. split; [by rewrite Hids|].
      unfold stored. rewrite Hq, <- (Hold id q Hq). done.
  - intros id Hid. unfold stored. rewrite Htasks, foldl_insert_out by (by rewrite <- Hids).
    destruct (tasks w !! id) as [q|] eqn:Hq; [|done]. by apply (Hold id).
  - intros Hnd id d Hd. rewrite Hent in Hd.
    apply list_elem_of_fmap in Hd as (e & [= -> ->] & He).
    exists (dec_arr e). unfold stored. rewrite Htasks.
    rewrite (foldl_insert_in dec_id dec_ptr) by (by rewrite <- ?Hids).
    by apply Hnewd.
Qed.

Lemma LoadFromSnapshot_evolves w0 snapshot w w' :
  evolves w0 w → LoadFromSnapshot snapshot w = Returns () w' → evolves w0 w'.
Proof.
  intros Hev. destruct snapshot as [entries|]; [|by intros [= <-]].
  intros Hret.
  destruct (LoadFromSnapshot_layout entries w) as (l & _ & _ & _ & _ & Hfit & Hblock).
  destruct (fits_decide w (sentBy entries)) as [Hfits|Hno].
  - destruct (Hfit Hfits) as (w'' & Heq & _ & _ & _ & _ & _ & _ & _ & _ & _ & Hevo).
    assert (w'' = w') as -> by congruence. by apply Hevo.
  - destruct (Hblock Hno) as [wb Hwb]. congruence.
Qed.

(** ** Invariants of the transition system *)

Lemma step_evolves w0 w w' : evolves w0 w → step w w' → evolves w0 w'.
Proof.
  intros Hev Hstep. destruct Hstep.
  - by apply registerTask_evolves.
  - apply (evolves_touches w0 w w' id); [done|].
    apply (enqueueJob_touches id idx). by rewrite H.
  - by apply (evolves_same_heap w0 w).
  - apply (evolves_touches w0 w w' (TaskID job)); [done|].
    apply processJob_begin_touches. by rewrite H.
  - apply (evolves_touches w0 w w' id); [done|].
    apply (updateFileState_touches id idx "error" err). by rewrite H.
  - apply (evolves_touches w0 w w' id); [done|].
    apply (updateFileState_touches id idx "completed" ""). by rewrite H.
  - by apply (GetTask_evolves w0 id w copy w').
  - by apply (LoadFromSnapshot_evolves w0 snapshot w w').
Qed.

Lemma steps_evolves w0 w w' : evolves w0 w → rtc step w w' → evolves w0 w'.
Proof.
  intros Hev Hsteps. induction Hsteps as [|w w1 w2 Hstep _ IH]; [done|].
  apply IH. by apply (step_evolves w0 w).
Qed.

Lemma NewManager_wf size clk : wf (NewManager size (boot clk)).
Proof. split; simpl; intros *; rewrite ?lookup_empty; done. Qed.

Lemma reachable_wf w : reachable w → wf w.
Proof.
  intros (clk & size & Hsteps).
  apply (ev_wf (NewManager size (boot clk))).
  apply (steps_evolves _ (NewManager size (boot clk))); [|done].
  apply evolves_refl, NewManager_wf.
Qed.

(** The sequential functions are runs of the transition system. *)
Lemma forEach_steps {A : Type} (body : A → World → result unit) (l : list A) :
  (∀ x w w', body x w = Returns () w' → step w w') →
  ∀ w w', forEach body l w = Returns () w' → rtc step w w'.
Proof.
  intros Hbody. induction l as [|x l IH]; intros w w'.
  - intros [= <-]. done.
  - rewrite forEach_cons. destruct (body x w) as [[] w1| |] eqn:E; [|done|done].
    rewrite bind_Returns. intros Hrest.
    eapply rtc_l; [by apply (Hbody x)|by apply IH].
Qed.

Lemma AddTask_steps id urls w r w' :
  AddTask id urls w = Returns r w' → rtc step w w'.
Proof.
  unfold AddTask. case_decide as Hlen; [intros [= <- <-]; done|].
  assert (urls ≠ []) as Hne by (by destruct urls).
  pose proof (step_register id urls w Hne) as Hreg.
  destruct (registerTask id urls w) as [t w1]. simpl in Hreg.
  destruct (draining w1).
  - intros [= <- <-]. by apply rtc_once.
  - destruct (forEach _ _ w1) as [[] w2| |] eqn:E; [|done|done].
    rewrite bind_Returns. intros [= <- <-].
    eapply rtc_l; [done|].
    apply (forEach_steps (λ idx, enqueueJob id (Z.of_nat idx)) (seq 0 (length urls)));
      [|done].
    intros x v v' Hx. by apply (step_enqueue id (Z.of_nat x)).
Qed.

Lemma processJob_steps job mkdirErr downloadErr w w' :
  processJob job mkdirErr downloadErr w = Returns () w' → rtc step w w'.
Proof.
  unfold processJob.
  destruct (processJob_begin job w) as [started w1| |] eqn:E; [|done|done].
  rewrite bind_Returns. pose proof (step_begin job started w w1 E) as Hb.
  destruct started as [url|]; [|intros [= <-]; by apply rtc_once].
  destruct mkdirErr as [err|]; [|destruct downloadErr as [err|]]; intros Hu;
    (eapply rtc_l; [exact Hb|]); apply rtc_once.
  - by apply (step_failed (TaskID job) (FileIndex job) err).
  - by apply (step_failed (TaskID job) (FileIndex job) err).
  - by apply (step_completed (TaskID job) (FileIndex job)).
Qed.

Lemma workerTurn_steps mkdirErr downloadErr w w' :
  workerTurn mkdirErr downloadErr w = Returns () w' → rtc step w w'.
Proof.
  unfold workerTurn, receive. destruct (jobs w) as [|job rest] eqn:E; [done|].
  intros Hp. eapply rtc_l; [by apply (step_receive job rest)|].
  by apply (processJob_steps job mkdirErr downloadErr).
Qed.

Lemma LoadFromSnapshot_steps snapshot w w' :
  LoadFromSnapshot snapshot w = Returns () w' → rtc step w w'.
Proof. intros H. by apply rtc_once, (step_load snapshot). Qed.

(** ** The scenarios *)

Lemma three_submitted_returns :
  ∃ t, three_submitted = Returns (inl t) three_submitted_world.
Proof. eexists. vm_compute. reflexivity. Qed.

Lemma three_submitted_reachable : reachable three_submitted_world.
Proof.
  exists clock0, 100. destruct three_submitted_returns as [t H].
  exact (AddTask_steps _ _ _ _ _ H).
Qed.

Lemma three_submitted_stored :
  stored three_submitted_world "t1" =
  Some (Task.mk "t1" 1%positive "pending" 1000%Z 1003%Z,
        [FileState.mk "https://x/a" "pending" "";
         FileState.mk "https://x/b" "pending" "";
         FileState.mk "https://x/c" "pending" ""]).
Proof. vm_compute. reflexivity. Qed.

Lemma updateFileState_frame_witness :
  ∃ w', updateFileState "t1" 1 "error" "boom" three_submitted_world = Returns () w' ∧
        jobs w' = jobs three_submitted_world ∧
        ∀ id, id ≠ "t1" → stored w' id = stored three_submitted_world id.
Proof.
  destruct (updateFileState_frame three_submitted_world "t1" 1 "error" "boom" _ _
              (reachable_wf _ three_submitted_reachable) three_submitted_stored)
    as (w' & t' & files' & Hret & _ & _ & _ & _ & _ & _ & _ & Hother & _ & Hjobs & _).
  - simpl. lia.
  - exists w'. split_and!; assumption.
Defined.

(** C1.  Three files are submitted and processed, the second download
    fails: every file ends in a terminal state and one of them in "error",
    and the status [updateFileState] stores is "in‑progress", not
    "completed_with_errors". *)
Theorem second_fails_in_progress :
  ∃ t files,
    second_fails = Returns () second_fails_world ∧
    jobs second_fails_world = [] ∧
    stored second_fails_world "t1" = Some (t, files) ∧
    FileState.Status <$> files = ["completed"; "error"; "completed"] ∧
    FileState.Error <$> files = [""; "boom"; ""] ∧
    Forall terminal files ∧
    Task.Status t = "in‑progress" ∧
    Task.Status t ≠ "completed_with_errors".
Proof.
  eexists _, _. split; [vm_compute; reflexivity|].
  split; [vm_compute; reflexivity|].
  split; [vm_compute; reflexivity|]. simpl. split_and!; try done.
  repeat constructor; unfold terminal; simpl; tauto.
Qed.

(** The defect behind it: a file in state "error" is not "completed", so
    [allDone] is false whenever [anyErrors] is true. *)
Lemma aggregateStatus_terminal_error (files : list FileState.t) f :
  Forall terminal files → f ∈ files → FileState.Status f = "error" →
  aggregateStatus files = "in‑progress".
Proof.
  intros _ Hin Herr. apply (aggregateStatus_not_completed files f); [done|].
  by rewrite Herr.
Qed.

Lemma updateFileState_never_with_errors w w' id idx status errMsg t files :
  updateFileState id idx status errMsg w = Returns () w' →
  stored w id = Some (t, files) → (0 ≤ idx < Z.of_nat (length files))%Z →
  ∃ t' files', stored w' id = Some (t', files') ∧
               Task.Status t' = aggregateStatus files' ∧
               Task.Status t' ≠ "completed_with_errors".
Proof.
  intros Hret (p & Hp & Ht & Hf)%stored_Some Hi.
  rewrite (updateFileState_known w id idx status errMsg p t files) in Hret by done.
  injection Hret as <-. eexists _, _. split.
  - unfold stored, deref. simpl. rewrite Hp, lookup_insert_eq. simpl.
    rewrite lookup_insert_eq. done.
  - simpl. split; [done|]. apply aggregateStatus_not_with_errors.
Qed.

(** ** Status values *)

Lemma store_ok_same_heap w w' : same_heap w w' → store_ok w → store_ok w'.
Proof.
  intros Hsame Hok id t files. rewrite (stored_same_heap w w') by done. apply Hok.
Qed.

Lemma store_ok_allocates w w' p task files :
  wf w → allocates w w' p task files → store_ok w → store_ok w'.
Proof.
  intros Hwf Hal Hok id t fs. rewrite (stored_allocates w w' p task files) by done.
  apply Hok.
Qed.

Lemma store_ok_overwrites w w' id p task' files' :
  wf w → store_ok w → tasks w !! id = Some p → overwrites w w' p task' files' →
  statuses_ok task' files' → store_ok w'.
Proof.
  intros Hwf Hok Hid Hov Hnew id' t fs Hs.
  destruct (decide (id' = id)) as [->|Hne].
  - destruct Hov as (task & Hp & Hfiles & Htasks & Hobjs & Harrs) eqn:E.
    unfold stored in Hs. rewrite Htasks, Hid in Hs.
    rewrite (overwrites_deref w w' p task' files') in Hs by (by eexists).
    by injection Hs as <- <-.
  - rewrite (overwrites_stored_other w w' p task' files' id id') in Hs by done.
    by apply (Hok id').
Qed.

Lemma fileStatus_pending : "pending" ∈ fileStatuses.
Proof. unfold fileStatuses. set_solver. Qed.
Lemma fileStatus_in_progress : "in‑progress" ∈ fileStatuses.
Proof. unfold fileStatuses. set_solver. Qed.
Lemma fileStatus_completed : "completed" ∈ fileStatuses.
Proof. unfold fileStatuses. set_solver. Qed.
Lemma fileStatus_error : "error" ∈ fileStatuses.
Proof. unfold fileStatuses. set_solver. Qed.
Lemma taskStatus_pending : "pending" ∈ taskStatuses.
Proof. unfold taskStatuses. set_solver. Qed.
Lemma taskStatus_in_progress : "in‑progress" ∈ taskStatuses.
Proof. unfold taskStatuses. set_solver. Qed.

Lemma taskStatus_aggregate files : aggregateStatus files ∈ taskStatuses.
Proof.
  rewrite aggregateStatus_cases. unfold taskStatuses.
  destruct (forallb _ files); set_solver.
Qed.

Lemma Forall_fileStatus_alter status i (files : list FileState.t) :
  status ∈ fileStatuses →
  Forall (λ f, FileState.Status f ∈ fileStatuses) files →
  Forall (λ f, FileState.Status f ∈ fileStatuses)
         (alter (FileState.set_Status status) i files).
Proof. intros Hs Hall. apply Forall_alter; [done|]. intros f _ _. done. Qed.

Lemma Forall_fileStatus_alter_Error err i (files : list FileState.t) :
  Forall (λ f, FileState.Status f ∈ fileStatuses) files →
  Forall (λ f, FileState.Status f ∈ fileStatuses)
         (alter (FileState.set_Error err) i files).
Proof. intros Hall. apply Forall_alter; [done|]. intros f _ Hf. done. Qed.

Lemma resetFile_status f :
  FileState.Status (resetFile f) = "completed" ∨
  FileState.Status (resetFile f) = "pending".
Proof.
  unfold resetFile.
  destruct (String.eqb_spec (FileState.Status f) "completed") as [->|]; [by left|by right].
Qed.

Lemma Forall_fileStatus_reset (files : list FileState.t) :
  Forall (λ f, FileState.Status f ∈ fileStatuses) (resetFile <$> files).
Proof.
  apply Forall_fmap, Forall_forall. intros f _. simpl.
  destruct (resetFile_status f) as [->| ->];
    [apply fileStatus_completed|apply fileStatus_pending].
Qed.

Lemma enqueueJob_store_ok id idx w w' :
  wf w → store_ok w → world_of (enqueueJob id idx w) = Some w' → store_ok w'.
Proof.
  intros Hwf Hok. unfold enqueueJob.
  destruct (tasks w !! id) as [p|] eqn:Hp; [|by intros [= <-]].
  destruct (taskObjs w !! p) as [task|] eqn:Ht; [|done].
  destruct (fileArrays w !! Task.Files task) as [files|] eqn:Hf; [|done].
  destruct (outOfRange idx files); [by intros [= <-]|].
  destruct (files !! Z.to_nat idx) as [f|]; [|done].
  destruct (String.eqb (FileState.Status f) "completed"); [by intros [= <-]|].
  simpl. intros Hsend. apply send_world in Hsend as [(H1 & H2 & H3) _]. simpl in *.
  destruct (Hok id task files) as [Hts Hfs]; [apply stored_Some; eauto|].
  apply (store_ok_overwrites w w' id p
           (Task.set_UpdatedAt (clock w (ticks w)) task)
           (alter (FileState.set_Status "pending") (Z.to_nat idx) files)); try done.
  - by exists task.
  - split; [done|]. apply Forall_fileStatus_alter; [apply fileStatus_pending|done].
Qed.

Lemma processJob_begin_store_ok job w started w' :
  wf w → store_ok w → processJob_begin job w = Returns started w' → store_ok w'.
Proof.
  intros Hwf Hok. unfold processJob_begin.
  destruct (tasks w !! TaskID job) as [p|] eqn:Hp; [|by intros [= <- <-]].
  destruct (taskObjs w !! p) as [task|] eqn:Ht; [|done].
  destruct (fileArrays w !! Task.Files task) as [files|] eqn:Hf; [|done].
  destruct (outOfRange (FileIndex job) files); [by intros [= <- <-]|].
  destruct (files !! Z.to_nat (FileIndex job)) as [f|]; [|done].
  destruct (String.eqb (FileState.Status f) "completed"); [by intros [= <- <-]|].
  simpl. intros [= <- <-].
  destruct (Hok (TaskID job) task files) as [Hts Hfs]; [apply stored_Some; eauto|].
  eapply (store_ok_overwrites w _ (TaskID job) p
           (Task.set_Status "in‑progress" (Task.set_UpdatedAt (clock w (ticks w)) task))
           (alter (FileState.set_Status "in‑progress") (Z.to_nat (FileIndex job)) files));
    try done.
  - by exists task.
  - split; [apply taskStatus_in_progress|].
    apply Forall_fileStatus_alter; [apply fileStatus_in_progress|done].
Qed.

Lemma updateFileState_store_ok id idx status errMsg w w' :
  wf w → store_ok w → status ∈ fileStatuses →
  updateFileState id idx status errMsg w = Returns () w' → store_ok w'.
Proof.
  intros Hwf Hok Hst. unfold updateFileState.
  destruct (tasks w !! id) as [p|] eqn:Hp; [|by intros [= <-]].
  destruct (taskObjs w !! p) as [task|] eqn:Ht; [|done].
  destruct (fileArrays w !! Task.Files task) as [files|] eqn:Hf; [|done].
  destruct (outOfRange idx files); [by intros [= <-]|].
  simpl. intros [= <-].
  destruct (Hok id task files) as [Hts Hfs]; [apply stored_Some; eauto|].
  eapply (store_ok_overwrites w _ id p
           (Task.set_Status _ (Task.set_UpdatedAt (clock w (ticks w)) task))
           (alter (FileState.set_Error errMsg) (Z.to_nat idx)
              (alter (FileState.set_Status status) (Z.to_nat idx) files)));
    try done.
  - by exists task.
  - split; [apply taskStatus_aggregate|].
    by apply Forall_fileStatus_alter_Error, Forall_fileStatus_alter.
Qed.

(** The store after [registerTask]. *)
Lemma registerTask_stored id urls w id' :
  wf w →
  stored (registerTask id urls w).2 id' =
  if decide (id' = id)
  then Some (Task.mk id (fresh (dom (fileArrays w))) "pending"
                     (clock w (ticks w)) (clock w (ticks w)),
             (λ u, FileState.mk u "pending" "") <$> urls)
  else stored w id'.
Proof.
  intros Hwf. rewrite registerTask_eq. unfold stored, deref. simpl.
  case_decide as Hid.
  - subst. rewrite lookup_insert_eq. rewrite lookup_insert_eq. simpl.
    rewrite lookup_insert_eq. done.
  - rewrite lookup_insert_ne by done.
    destruct (tasks w !! id') as [q|] eqn:Hq; [|done].
    destruct (wf_stored w Hwf id' q Hq) as [tq Htq].
    rewrite lookup_insert_ne.
    2:{ intros <-. pose proof (fresh_struct w). congruence. }
    rewrite Htq. destruct (wf_files w Hwf q tq Htq) as [fs Hfs].
    rewrite lookup_insert_ne.
    2:{ intros Heq. pose proof (fresh_array w). congruence. }
    done.
Qed.

Lemma registerTask_store_ok id urls w :
  wf w → store_ok w → store_ok (registerTask id urls w).2.
Proof.
  intros Hwf Hok id' t files. rewrite registerTask_stored by done.
  case_decide; [|apply Hok]. intros [= <- <-]. split; [apply taskStatus_pending|].
  apply Forall_fmap, Forall_forall. intros u _. apply fileStatus_pending.
Qed.

Lemma GetTask_stored id w r w' id' :
  wf w → GetTask id w = Returns r w' → stored w' id' = stored w id'.
Proof.
  intros Hwf. destruct (tasks w !! id) as [p|] eqn:Hp.
  - destruct (wf_stored w Hwf id p Hp) as [t Ht].
    destruct (wf_files w Hwf p t Ht) as [files Hf].
    rewrite (GetTask_known id w p t files) by done. intros [= <- <-].
    eapply (stored_allocates w); [done|].
    split_and!; try done; [apply fresh_struct|apply fresh_array].
  - rewrite GetTask_unknown by done. by intros [= <- <-].
Qed.

Lemma LoadFromSnapshot_store_ok snapshot w w' :
  wf w → store_ok w → LoadFromSnapshot snapshot w = Returns () w' → store_ok w'.
Proof.
  intros Hwf Hok. destruct snapshot as [entries|]; [|by intros [= <-]].
  intros Hret id t files Hs.
  destruct (LoadFromSnapshot_returns entries w w' Hwf Hret) as (_ & _ & Hcases & _).
  destruct (Hcases id t files Hs) as [(d & Hd & -> & ->)|[_ Hold]].
  - split; [apply taskStatus_in_progress|apply Forall_fileStatus_reset].
  - by apply (Hok id).
Qed.

Lemma step_store_ok w w' : wf w → store_ok w → step w w' → store_ok w'.
Proof.
  intros Hwf Hok Hstep. destruct Hstep.
  - by apply registerTask_store_ok.
  - apply (enqueueJob_store_ok id idx w w'); [done|done|]. by rewrite H.
  - by apply (store_ok_same_heap w).
  - by apply (processJob_begin_store_ok job w started w').
  - apply (updateFileState_store_ok id idx "error" err w w'); try done.
    apply fileStatus_error.
  - apply (updateFileState_store_ok id idx "completed" "" w w'); try done.
    apply fileStatus_completed.
  - intros id' t files. rewrite (GetTask_stored id w copy w') by done. apply Hok.
  - by apply (LoadFromSnapshot_store_ok snapshot w w').
Qed.

Lemma reachable_store_ok w : reachable w → store_ok w.
Proof.
  intros (clk & size & Hsteps).
  assert (wf (NewManager size (boot clk)) ∧ store_ok (NewManager size (boot clk))) as H0.
  { split; [apply NewManager_wf|]. intros id t files. unfold stored. simpl.
    by rewrite lookup_empty. }
  revert H0. induction Hsteps as [|w w1 w2 Hstep _ IH]; [tauto|].
  intros [Hwf Hok]. apply IH. split.
  - apply (ev_wf w). apply (step_evolves w w w1); [by apply evolves_refl|done].
  - by apply (step_store_ok w).
Qed.

(** C4.  In every world the manager can reach, the status of every stored
    file is one of "pending", "in‑progress", "completed", "error" and the
    status of every stored task one of "pending", "in‑progress",
    "completed", "completed_with_errors", where "in‑progress" is written
    with the non-breaking hyphen U+2011; the copy [GetTask] returns has the
    same statuses. *)
Theorem reachable_statuses w id t files :
  reachable w → stored w id = Some (t, files) →
  (Task.Status t ∈ taskStatuses ∧
   Forall (λ f, FileState.Status f ∈ fileStatuses) files) ∧
  ∃ copy w' a,
    GetTask id w = Returns (Some copy) w' ∧
    deref w' copy = Some (Task.set_Files a t, files).
Proof.
  intros Hreach Hs. split; [by apply (reachable_store_ok w Hreach id)|].
  apply stored_Some in Hs as (p & Hp & Ht & Hf).
  eexists _, _, _. split; [by apply (GetTask_known id w p t files)|].
  unfold deref. simpl. rewrite lookup_insert_eq. simpl. by rewrite lookup_insert_eq.
Qed.

Lemma in_progress_spelling : "in‑progress" ≠ "in-progress".
Proof. discriminate. Qed.

Lemma first_started_reachable : reachable first_started_world.
Proof.
  destruct three_submitted_reachable as (clk & size & Hsteps).
  exists clk, size. eapply rtc_r; [exact Hsteps|].
  apply (step_begin (mkJob "t1" 0) (Some "https://x/a")).
  vm_compute. reflexivity.
Qed.

Lemma first_started_stored :
  stored first_started_world "t1" =
  Some (Task.mk "t1" 1%positive "in‑progress" 1000%Z 1004%Z,
        [FileState.mk "https://x/a" "in‑progress" "";
         FileState.mk "https://x/b" "pending" "";
         FileState.mk "https://x/c" "pending" ""]).
Proof. vm_compute. reflexivity. Qed.

(** C4, as the specification spells it, fails: once a worker has started on
    a file, the stored statuses are "in‑progress" with U+2011, which is not
    in the lists written with the ASCII hyphen. *)
Lemma spec_statuses_claim_fails : ¬ spec_statuses_claim.
Proof.
  intros Hclaim.
  destruct (Hclaim first_started_world "t1" _ _ first_started_reachable
              first_started_stored) as [Ht _].
  simpl in Ht. unfold specTaskStatuses in Ht.
  rewrite !elem_of_cons in Ht. destruct Ht as [?|[?|[?|[?|Ht]]]]; try discriminate.
  by apply elem_of_nil in Ht.
Qed.

Lemma reachable_statuses_witness :
  (Task.Status (Task.mk "t1" 1%positive "in‑progress" 1000%Z 1004%Z) ∈ taskStatuses ∧
   Forall (λ f, FileState.Status f ∈ fileStatuses)
     [FileState.mk "https://x/a" "in‑progress" "";
      FileState.mk "https://x/b" "pending" "";
      FileState.mk "https://x/c" "pending" ""]) ∧
  ∃ copy w' a,
    GetTask "t1" first_started_world = Returns (Some copy) w' ∧
    deref w' copy =
      Some (Task.set_Files a (Task.mk "t1" 1%positive "in‑progress" 1000%Z 1004%Z),
            [FileState.mk "https://x/a" "in‑progress" "";
             FileState.mk "https://x/b" "pending" "";
             FileState.mk "https://x/c" "pending" ""]).
Proof.
  exact (reachable_statuses first_started_world "t1" _ _ first_started_reachable
           first_started_stored).
Defined.

(** ** GetTask *)

Lemma caller_writes_overwrites copy t0 t files w :
  taskObjs w !! copy = Some t0 →
  overwrites w (caller_writes copy t files w) copy
             (Task.set_Files (Task.Files t0) t) files.
Proof.
  intros Hc. unfold caller_writes. rewrite Hc. exists t0. split_and!; done.
Qed.

(** C7.  [GetTask] returns [None] for an absent id and leaves the world as
    it is; for a present id it returns a pointer to a new struct with a new
    array that hold the value of the stored task.  It never blocks or
    panics.  Whatever the caller writes through that pointer, the store
    reads as before; whatever steps the manager takes afterwards, the copy
    reads as before. *)
Theorem GetTask_deep_copy w id :
  wf w →
  (tasks w !! id = None → GetTask id w = Returns None w) ∧
  (∀ p, tasks w !! id = Some p →
     ∃ t files copy a w',
       stored w id = Some (t, files) ∧
       GetTask id w = Returns (Some copy) w' ∧
       deref w' copy = Some (Task.set_Files a t, files) ∧
       taskObjs w !! copy = None ∧ fileArrays w !! a = None ∧
       (∀ id', stored w' id' = stored w id') ∧
       (∀ t2 files2 id',
          stored (caller_writes copy t2 files2 w') id' = stored w' id') ∧
       (∀ w2, rtc step w' w2 → deref w2 copy = deref w' copy)).
Proof.
  intros Hwf. split; [apply GetTask_unknown|]. intros p Hp.
  destruct (wf_stored w Hwf id p Hp) as [t Ht].
  destruct (wf_files w Hwf p t Ht) as [files Hf].
  set (copy := fresh (dom (taskObjs w))). set (a := fresh (dom (fileArrays w))).
  pose proof (GetTask_known id w p t files Hp Ht Hf) as Hget. fold copy a in Hget.
  match type of Hget with _ = Returns _ ?x => set (w' := x) in * end.
  assert (allocates w w' copy (Task.set_Files a t) files) as Hal.
  { split_and!; try done; [apply fresh_struct|apply fresh_array]. }
  assert (wf w') as Hwf' by by apply (wf_allocates w w' copy (Task.set_Files a t) files).
  assert (deref w' copy = Some (Task.set_Files a t, files)) as Hcopy.
  { unfold deref. simpl. rewrite lookup_insert_eq. simpl. by rewrite lookup_insert_eq. }
  assert (private w' copy) as Hpriv.
  { split; [simpl; rewrite lookup_insert_eq; eauto|]. simpl. intros id' Hid'.
    destruct (wf_stored w Hwf id' copy Hid') as [x Hx].
    pose proof (fresh_struct w). unfold copy in Hx. congruence. }
  exists t, files, copy, a, w'. split_and!; try done.
  - apply stored_Some. eauto.
  - apply fresh_struct.
  - apply fresh_array.
  - intros id'. by apply (stored_allocates w w' copy (Task.set_Files a t) files).
  - intros t2 files2 id'.
    assert (taskObjs w' !! copy = Some (Task.set_Files a t)) as Hc
      by (simpl; apply lookup_insert_eq).
    pose proof (caller_writes_overwrites copy _ t2 files2 w' Hc) as Hov.
    pose proof Hov as (_ & _ & _ & Htasks & _).
    unfold stored. rewrite Htasks.
    destruct (tasks w' !! id') as [q|] eqn:Hq; [|done].
    eapply (overwrites_deref_other w' _ copy _ _ q Hwf' Hov).
    intros ->. by destruct (proj2 Hpriv id').
  - intros w2 Hsteps.
    pose proof (steps_evolves w' w' w2 (evolves_refl w' Hwf') Hsteps) as Hev.
    by destruct (ev_frame _ _ Hev copy Hpriv).
Qed.

Lemma GetTask_deep_copy_witness :
  GetTask "t0" three_submitted_world = Returns None three_submitted_world ∧
  ∃ copy w',
    GetTask "t1" three_submitted_world = Returns (Some copy) w' ∧
    (∀ id', stored w' id' = stored three_submitted_world id') ∧
    (∀ t2 files2 id',
       stored (caller_writes copy t2 files2 w') id' = stored w' id') ∧
    (∀ w2, rtc step w' w2 → deref w2 copy = deref w' copy).
Proof.
  destruct (GetTask_deep_copy three_submitted_world "t0"
              (reachable_wf _ three_submitted_reachable)) as [Habsent _].
  destruct (GetTask_deep_copy three_submitted_world "t1"
              (reachable_wf _ three_submitted_reachable)) as [_ Hpresent].
  split; [apply Habsent; vm_compute; reflexivity|].
  destruct (Hpresent 1%positive) as (t & files & copy & a & w' & H);
    [vm_compute; reflexivity|].
  exists copy, w'. tauto.
Defined.

(** ** AddTask *)

Lemma alter_pending i urls :
  alter (FileState.set_Status "pending") i (pendingFiles urls) = pendingFiles urls.
Proof.
  apply list_eq. intros j. destruct (decide (j = i)) as [->|Hne].
  - rewrite list_lookup_alter_eq. unfold pendingFiles. rewrite list_lookup_fmap.
    by destruct (urls !! i).
  - by rewrite list_lookup_alter_ne.
Qed.

Lemma pendingFiles_lookup i urls :
  i < length urls →
  ∃ u, pendingFiles urls !! i = Some (FileState.mk u "pending" "").
Proof.
  intros Hi. apply lookup_lt_is_Some in Hi as [u Hu]. exists u.
  unfold pendingFiles. by rewrite list_lookup_fmap, Hu.
Qed.

(** One call of [enqueueJob] by [AddTask]: the file is pending already, the
    task gets a new [UpdatedAt] and the job is sent. *)
Lemma enqueueJob_registered id t a now urls i w :
  registered id t a now urls w → i < length urls →
  ∃ w1, registered id t a now urls w1 ∧ jobs w1 = jobs w ∧
        queueSize w1 = queueSize w ∧
        enqueueJob id (Z.of_nat i) w = send (mkJob id (Z.of_nat i)) w1.
Proof.
  intros (Ht & task & Htask & Hid & Ha & Hst & Hcr & Hfiles) Hi.
  unfold enqueueJob. rewrite Ht, Htask, Ha, Hfiles.
  assert (outOfRange (Z.of_nat i) (pendingFiles urls) = false) as ->.
  { apply outOfRange_false. unfold pendingFiles. rewrite length_fmap. lia. }
  rewrite Nat2Z.id. destruct (pendingFiles_lookup i urls Hi) as [u ->]. simpl.
  rewrite alter_pending. eexists. split_and!; [| | |done]; try done.
  split; [done|]. exists (Task.set_UpdatedAt (clock w (ticks w)) task).
  simpl. rewrite !lookup_insert_eq. split_and!; done.
Qed.

Lemma send_registered id t a now urls job w w' :
  registered id t a now urls w → world_of (send job w) = Some w' →
  registered id t a now urls w'.
Proof.
  intros Hreg. unfold send. case_decide; intros [= <-]; done.
Qed.

Lemma enqueue_loop id t a now urls : ∀ k i w,
  registered id t a now urls w → (i + k ≤ length urls)%nat →
  ((length (jobs w) + k ≤ queueSize w)%nat →
   ∃ w', forEach (λ idx, enqueueJob id (Z.of_nat idx)) (seq i k) w = Returns () w' ∧
         registered id t a now urls w' ∧
         jobs w' = jobs w ++ ((λ j, mkJob id (Z.of_nat j)) <$> seq i k)) ∧
  (0 < k → queueSize w < length (jobs w) + k →
   ∃ w', forEach (λ idx, enqueueJob id (Z.of_nat idx)) (seq i k) w = Blocks w' ∧
         registered id t a now urls w').
Proof.
  induction k as [|k IH]; intros i w Hreg Hik.
  { split; [|lia]. intros _. exists w. simpl. by rewrite app_nil_r. }
  destruct (enqueueJob_registered id t a now urls i w Hreg) as (w1 & Hreg1 & Hj1 & Hq1 & Heq);
    [lia|].
  change (seq i (S k)) with (i :: seq (S i) k). rewrite forEach_cons, Heq.
  unfold send. rewrite Hj1, Hq1. case_decide as Hroom.
  - rewrite bind_Returns.
    set (w2 := set_jobs (jobs w ++ [mkJob id (Z.of_nat i)]) w1).
    assert (registered id t a now urls w2) as Hreg2 by done.
    destruct (IH (S i) w2 Hreg2) as [Hret Hblock]; [lia|].
    assert (length (jobs w2) = S (length (jobs w))) as Hlen
      by (simpl; rewrite length_app; simpl; lia).
    assert (queueSize w2 = queueSize w) as Hq2 by done.
    split; [intros Hk|intros _ Hk].
    + destruct Hret as (w' & Hw' & Hreg' & Hjobs'); [lia|].
      exists w'. split_and!; [done|done|].
      rewrite Hjobs'. simpl. by rewrite <- app_assoc.
    + destruct Hblock as (w' & Hw' & Hreg'); [lia|lia|]. by exists w'.
  - rewrite bind_Blocks. split; [lia|]. intros _ _. by exists w1.
Qed.

Lemma registerTask_registered id urls w :
  registered id (fresh (dom (taskObjs w))) (fresh (dom (fileArrays w)))
             (clock w (ticks w)) urls (registerTask id urls w).2.
Proof.
  rewrite registerTask_eq. split; simpl; [apply lookup_insert_eq|].
  eexists. rewrite !lookup_insert_eq. split_and!; done.
Qed.

(** [AddTask] on a non-empty list: the task is in the store with one
    pending file per URL, whether the call returns or parks on the full
    channel; it returns when the manager drains or the channel has room. *)
Lemma AddTask_nonempty id urls w :
  urls ≠ [] →
  ∃ t a w',
    (AddTask id urls w = Returns (inl t) w' ∨
     (AddTask id urls w = Blocks w' ∧ draining w = false ∧
      queueSize w < length (jobs w) + length urls)) ∧
    registered id t a (clock w (ticks w)) urls w' ∧
    (draining w = true ∨ (length (jobs w) + length urls ≤ queueSize w)%nat →
     AddTask id urls w = Returns (inl t) w' ∧
     (draining w = false →
      jobs w' = jobs w ++ ((λ j, mkJob id (Z.of_nat j)) <$> seq 0 (length urls)))).
Proof.
  intros Hne. unfold AddTask. rewrite decide_False by (by destruct urls).
  pose proof (registerTask_registered id urls w) as Hreg.
  rewrite registerTask_eq in *. simpl in *.
  set (t := fresh (dom (taskObjs w))) in *. set (a := fresh (dom (fileArrays w))) in *.
  match type of Hreg with registered _ _ _ _ _ ?x => set (w1 := x) in * end.
  destruct (draining w) eqn:Hdr.
  - exists t, a, w1. split_and!; [by left|done|]. intros _. split; [done|]. done.
  - destruct (enqueue_loop id t a (clock w (ticks w)) urls (length urls) 0 w1 Hreg)
      as [Hret Hblock]; [lia|].
    destruct (le_gt_dec (length (jobs w) + length urls) (queueSize w)) as [Hroom|Hfull].
    + destruct Hret as (w' & Hw' & Hreg' & Hjobs'); [done|].
      exists t, a, w'. rewrite Hw', bind_Returns. split_and!; [by left|done|].
      intros _. split; [done|]. intros _. done.
    + destruct Hblock as (w' & Hw' & Hreg'); [destruct urls; [done|simpl; lia]|simpl; lia|].
      exists t, a, w'. rewrite Hw', bind_Blocks. split_and!; [right; split_and!; [done|done|lia]|done|].
      intros [?|?]; [done|lia].
Qed.

Lemma cleanURLs_filter (strings_TrimSpace : string → string) (urls : list string) :
  cleanURLs strings_TrimSpace urls =
  filter (λ s, s ≠ "") (strings_TrimSpace <$> urls).
Proof.
  unfold cleanURLs.
  assert (∀ acc,
    foldl (λ clean s,
             let s := strings_TrimSpace s in
             if bool_decide (s ≠ "") then clean ++ [s] else clean) acc urls =
    acc ++ filter (λ s, s ≠ "") (strings_TrimSpace <$> urls)) as Hgen.
  { induction urls as [|u urls IH]; intros acc; simpl.
    - by rewrite app_nil_r.
    - rewrite IH, filter_cons.
      destruct (decide (strings_TrimSpace u ≠ "")) as [Hu|Hu].
      + rewrite bool_decide_eq_true_2 by done. by rewrite <- app_assoc.
      + rewrite bool_decide_eq_false_2 by done. done. }
  apply (Hgen []).
Qed.




(** ** Recovery *)

(** [LoadFromSnapshot] returns exactly when the channel has room for every
    job it sends. *)
Lemma LoadFromSnapshot_returns_iff entries w :
  (∃ w', LoadFromSnapshot (Some entries) w = Returns () w') ↔ fits w (sentBy entries).
Proof.
  destruct (LoadFromSnapshot_layout entries w) as (l & _ & _ & _ & _ & Hfit & Hblock).
  split.
  - intros [w' Hw']. destruct (fits_decide w (sentBy entries)) as [?|Hno]; [done|].
    destruct (Hblock Hno) as [wb Hwb]. congruence.
  - intros Hfits. destruct (Hfit Hfits) as (w' & Hw' & _). eauto.
Qed.

Lemma LoadFromSnapshot_blocks entries w :
  queueSize w < length (jobs w) + length (sentBy entries) →
  sentBy entries ≠ [] →
  ∃ wb, LoadFromSnapshot (Some entries) w = Blocks wb.
Proof.
  intros Hfull Hne.
  destruct (LoadFromSnapshot_layout entries w) as (l & _ & _ & _ & _ & _ & Hblock).
  apply Hblock. intros [?|?]; [done|lia].
Qed.

(** C5.  With the queue of 100 jobs that [main] creates and a snapshot of
    101 files that are not completed, [LoadFromSnapshot] does not return: it
    parks on the send of the 101st job, with the 100 others in the channel
    and no worker started. *)
Theorem recovery_blocks_on_large_snapshot :
  ∃ wb, main_recovery (Some large_snapshot) clock0 = Blocks wb ∧
        length (jobs wb) = 100 ∧ queueSize wb = 100.
Proof.
  eexists. split; [vm_compute; reflexivity|]. split; reflexivity.
Qed.

(** C3.  A snapshot task whose only file is completed is not loaded as it
    was saved: no job is sent and its file is untouched, but its status
    becomes "in‑progress" and its [UpdatedAt] the time of the load. *)
Theorem finished_task_not_loaded_as_is :
  ∃ w' t,
    main_recovery (Some finished_snapshot) clock0 = Returns () w' ∧
    jobs w' = [] ∧
    stored w' "t1" = Some (t, [FileState.mk "https://x/a" "completed" ""]) ∧
    Task.Status t = "in‑progress" ∧ Task.Status t ≠ "completed" ∧
    Task.UpdatedAt t = clock0 0 ∧ Task.UpdatedAt t ≠ 7%Z ∧
    Task.CreatedAt t = 5%Z.
Proof.
  eexists _, _. split; [vm_compute; reflexivity|].
  split; [reflexivity|]. split; [vm_compute; reflexivity|]. simpl. split_and!; done.
Qed.

(** ** The jobs of a recovery *)

Lemma timesSent_none job sent : (∀ j, j ∈ sent → j ≠ job) → timesSent job sent = 0.
Proof.
  unfold timesSent. induction sent as [|j sent IH]; intros Hall; [done|].
  rewrite filter_cons_False by (apply Hall; by left).
  apply IH. intros j' Hj'. apply Hall. by right.
Qed.

Lemma timesSent_app job sent1 sent2 :
  timesSent job (sent1 ++ sent2) = timesSent job sent1 + timesSent job sent2.
Proof. unfold timesSent. by rewrite filter_app, length_app. Qed.

Lemma requeued_elem id files : ∀ start job,
  job ∈ requeued id start files →
  TaskID job = id ∧ (Z.of_nat start ≤ FileIndex job)%Z.
Proof.
  induction files as [|f files IH]; intros start job; simpl.
  - intros H. by apply elem_of_nil in H.
  - destruct (String.eqb (FileState.Status f) "completed").
    + intros [? ?]%IH. split; [done|lia].
    + intros [->|[? ?]%IH]%elem_of_cons; simpl; [split; [done|lia]|split; [done|lia]].
Qed.

Lemma requeued_count id files : ∀ start i,
  timesSent (mkJob id (Z.of_nat (start + i))) (requeued id start files) =
  match files !! i with
  | Some f => if String.eqb (FileState.Status f) "completed" then 0 else 1
  | None => 0
  end.
Proof.
  induction files as [|f files IH]; intros start i; [done|].
  assert (∀ k, timesSent (mkJob id (Z.of_nat start)) (requeued id (S start + k) files) = 0)
    as Hlater.
  { intros k. apply timesSent_none. intros j Hj ->.
    apply requeued_elem in Hj as [_ Hj]. simpl in Hj. lia. }
  destruct i as [|i]; simpl.
  - rewrite Nat.add_0_r. specialize (Hlater 0). rewrite Nat.add_0_r in Hlater.
    destruct (String.eqb (FileState.Status f) "completed"); [done|].
    unfold timesSent in *. rewrite filter_cons_True by done. simpl. by rewrite Hlater.
  - replace (start + S i) with (S start + i) by lia.
    destruct (String.eqb (FileState.Status f) "completed"); [apply IH|].
    unfold timesSent. rewrite filter_cons_False; [apply IH|].
    intros [= Heq]. lia.
Qed.

Lemma sentBy_elem entries job :
  job ∈ sentBy entries → TaskID job ∈ fst <$> entries.
Proof.
  unfold sentBy. induction entries as [|[id d] entries IH]; simpl.
  - intros H. by apply elem_of_nil in H.
  - intros [H|H]%elem_of_app.
    + apply requeued_elem in H as [-> _]. by left.
    + right. by apply IH.
Qed.

Lemma sentBy_elem_inv entries job :
  job ∈ sentBy entries →
  ∃ d, (TaskID job, d) ∈ entries ∧ job ∈ requeued (TaskID job) 0 (doc_Files d).
Proof.
  unfold sentBy. induction entries as [|[id d] entries IH]; simpl.
  - intros H. by apply elem_of_nil in H.
  - intros [H|H]%elem_of_app.
    + pose proof (requeued_elem _ _ _ _ H) as [<- _]. exists d. split; [by left|done].
    + destruct (IH H) as (d' & Hd' & Hj). exists d'. split; [by right|done].
Qed.

Lemma NoDup_fst_agree {A : Type} (l : list (string * A)) k a b :
  NoDup (fst <$> l) → (k, a) ∈ l → (k, b) ∈ l → a = b.
Proof.
  induction l as [|[k0 x] l IH]; intros Hnd Ha Hb.
  { by apply elem_of_nil in Ha. }
  rewrite fmap_cons in Hnd. apply NoDup_cons in Hnd as [Hnew Hnd]. simpl in Hnew.
  apply elem_of_cons in Ha as [Ha|Ha]; apply elem_of_cons in Hb as [Hb|Hb].
  - congruence.
  - injection Ha as -> _. destruct Hnew. by apply (list_elem_of_fmap_2 fst _ (k0, b)).
  - injection Hb as -> _. destruct Hnew. by apply (list_elem_of_fmap_2 fst _ (k0, a)).
  - by apply IH.
Qed.

Lemma sentBy_count entries id d i :
  NoDup (fst <$> entries) → (id, d) ∈ entries →
  timesSent (mkJob id (Z.of_nat i)) (sentBy entries) =
  match doc_Files d !! i with
  | Some f => if String.eqb (FileState.Status f) "completed" then 0 else 1
  | None => 0
  end.
Proof.
  induction entries as [|[id0 d0] entries IH]; intros Hnd Hin.
  { by apply elem_of_nil in Hin. }
  rewrite fmap_cons in Hnd. apply NoDup_cons in Hnd as [Hnew Hnd]. simpl in Hnew.
  change (sentBy ((id0, d0) :: entries))
    with (requeued id0 0 (doc_Files d0) ++ sentBy entries).
  rewrite timesSent_app. apply elem_of_cons in Hin as [[= <- <-]|Hin].
  - pose proof (requeued_count id (doc_Files d) 0 i) as Hc. simpl in Hc. rewrite Hc.
    rewrite (timesSent_none _ (sentBy entries)); [lia|].
    intros j Hj ->. apply sentBy_elem in Hj. done.
  - rewrite IH by done.
    rewrite timesSent_none; [done|]. intros j Hj ->.
    apply requeued_elem in Hj as [Hj _]. simpl in Hj. subst.
    apply Hnew. apply list_elem_of_fmap. eexists (_, d). split; [|exact Hin]. done.
Qed.

Lemma resetFile_all_completed (files : list FileState.t) :
  Forall (λ f, FileState.Status f = "completed") files → resetFile <$> files = files.
Proof.
  induction 1 as [|f files Hf _ IH]; [done|]. rewrite fmap_cons. f_equal; [|exact IH].
  apply resetFile_completed. by rewrite Hf.
Qed.

Lemma requeued_all_completed id (files : list FileState.t) : ∀ start,
  Forall (λ f, FileState.Status f = "completed") files → requeued id start files = [].
Proof.
  induction files as [|f files IH]; intros start Hall; [done|].
  apply Forall_cons in Hall as [Hf Hall]. simpl. rewrite Hf. simpl. by apply IH.
Qed.

(** What [LoadFromSnapshot] does right (C3): every file that is not
    completed is made pending with its error cleared and gets exactly one
    job; every completed file is kept as it is and gets no job; a task
    whose files are all completed gets no job and keeps its files, [ID] and
    [CreatedAt]. *)
Lemma LoadFromSnapshot_requeues entries w w' id d :
  wf w → NoDup (fst <$> entries) →
  LoadFromSnapshot (Some entries) w = Returns () w' → (id, d) ∈ entries →
  ∃ t files,
    stored w' id = Some (t, files) ∧
    jobs w' = jobs w ++ sentBy entries ∧
    length files = length (doc_Files d) ∧
    Task.ID t = doc_ID d ∧ Task.CreatedAt t = doc_CreatedAt d ∧
    (∀ i f, doc_Files d !! i = Some f → FileState.Status f = "completed" →
       files !! i = Some f ∧
       timesSent (mkJob id (Z.of_nat i)) (sentBy entries) = 0) ∧
    (∀ i f, doc_Files d !! i = Some f → FileState.Status f ≠ "completed" →
       files !! i = Some (FileState.mk (FileState.URL f) "pending" "") ∧
       timesSent (mkJob id (Z.of_nat i)) (sentBy entries) = 1) ∧
    (Forall (λ f, FileState.Status f = "completed") (doc_Files d) →
       files = doc_Files d ∧ ∀ job, job ∈ sentBy entries → TaskID job ≠ id).
Proof.
  intros Hwf Hnd Hret Hin.
  destruct (LoadFromSnapshot_returns entries w w' Hwf Hret) as (_ & Hjobs & _ & _ & Hnew).
  destruct (Hnew Hnd id d Hin) as [a Hs].
  eexists _, _. split; [exact Hs|]. split; [done|]. simpl.
  split; [by rewrite length_fmap|]. split; [done|]. split; [done|]. split_and!.
  - intros i f Hi Hf. rewrite list_lookup_fmap, Hi. simpl.
    rewrite resetFile_completed by (by rewrite Hf).
    split; [done|]. rewrite (sentBy_count entries id d i) by done.
    rewrite Hi, Hf. done.
  - intros i f Hi Hf. rewrite list_lookup_fmap, Hi. simpl.
    assert (String.eqb (FileState.Status f) "completed" = false) as Hc.
    { by apply String.eqb_neq. }
    split; [by rewrite <- resetFile_not_completed|].
    rewrite (sentBy_count entries id d i) by done. by rewrite Hi, Hc.
  - intros Hall. split; [by apply resetFile_all_completed|].
    intros job Hjob <-. apply sentBy_elem_inv in Hjob as (d' & Hd' & Hjob).
    rewrite <- (NoDup_fst_agree entries _ d d' Hnd Hin Hd') in Hjob.
    rewrite requeued_all_completed in Hjob by done. by apply elem_of_nil in Hjob.
Qed.

(** ** The stored status and the derivation rule *)

Lemma existsb_negb_forallb {A : Type} (p : A → bool) (l : list A) :
  existsb (λ x, negb (p x)) l = negb (forallb p l).
Proof.
  induction l as [|x l IH]; [done|]. simpl. rewrite IH. by destruct (p x).
Qed.

(** The status the code computes is the one the rule of the specification
    gives, except for the spelling of the hyphen. *)
Lemma aggregateStatus_derived (files : list FileState.t) :
  aggregateStatus files =
  if decide (derivedStatus files = "in-progress") then "in‑progress"
  else derivedStatus files.
Proof.
  rewrite aggregateStatus_cases. unfold derivedStatus.
  rewrite (existsb_negb_forallb (λ f, String.eqb (FileState.Status f) "completed")).
  destruct (forallb _ files) eqn:E; simpl; [|done].
  by rewrite completed_no_error.
Qed.

Lemma enqueueJob_keeps_status w w' id idx t files :
  stored w id = Some (t, files) → enqueueJob id idx w = Returns () w' →
  ∃ t' files', stored w' id = Some (t', files') ∧ Task.Status t' = Task.Status t.
Proof.
  intros Hs. pose proof Hs as (p & Hp & Ht & Hf)%stored_Some.
  unfold enqueueJob. rewrite Hp, Ht, Hf.
  destruct (outOfRange idx files); [intros [= <-]; eauto|].
  destruct (files !! Z.to_nat idx) as [f|]; [|done].
  destruct (String.eqb (FileState.Status f) "completed"); [intros [= <-]; eauto|].
  simpl. unfold send. case_decide; [|done]. intros [= <-].
  eexists (Task.set_UpdatedAt (clock w (ticks w)) t), _. split; [|reflexivity].
  unfold stored, deref. simpl. rewrite Hp, lookup_insert_eq. simpl.
  by rewrite lookup_insert_eq.
Qed.

Lemma AddTask_stores_pending w w' id urls t :
  AddTask id urls w = Returns (inl t) w' →
  ∃ task files, stored w' id = Some (task, files) ∧ Task.Status task = "pending".
Proof.
  intros Hret. destruct (decide (urls = [])) as [->|Hne].
  { unfold AddTask in Hret. simpl in Hret. done. }
  destruct (AddTask_nonempty id urls w Hne)
    as (t0 & a & w0 & Hres & (Ht & task & Htask & Hid & Ha & Hst & Hcr & Hfiles) & _).
  assert (w0 = w') as -> by (destruct Hres as [Hr|[Hr _]]; congruence).
  exists task, (pendingFiles urls). split; [|done].
  apply stored_Some. exists t0. rewrite Ha. done.
Qed.

(** C2, as the specification states it, fails: right after [AddTask] the
    stored status is "pending", and the rule gives "in-progress". *)
Lemma spec_derivation_claim_fails : ¬ spec_derivation_claim.
Proof.
  intros Hclaim.
  pose proof (Hclaim three_submitted_world "t1" _ _ three_submitted_reachable
                three_submitted_stored) as H.
  vm_compute in H. discriminate.
Qed.

Lemma derivedStatus_completed (files : list FileState.t) :
  Forall (λ f, FileState.Status f = "completed") files →
  aggregateStatus files = "completed" ∧ derivedStatus files = "completed".
Proof.
  intros Hall.
  assert (forallb (λ f, String.eqb (FileState.Status f) "completed") files = true) as E.
  { apply forallb_forall. intros f Hf%list_elem_of_In.
    apply String.eqb_eq. by apply (proj1 (Forall_forall _ _) Hall). }
  rewrite aggregateStatus_cases. unfold derivedStatus.
  rewrite (existsb_negb_forallb (λ f, String.eqb (FileState.Status f) "completed")), E.
  simpl. by rewrite completed_no_error.
Qed.

Lemma derivedStatus_not_terminal (files : list FileState.t) f :
  f ∈ files → ¬ terminal f →
  aggregateStatus files = "in‑progress" ∧ derivedStatus files = "in-progress".
Proof.
  intros Hin Hnt.
  assert (FileState.Status f ≠ "completed") as Hnc by (intros H; apply Hnt; by left).
  split; [by apply (aggregateStatus_not_completed files f)|].
  unfold derivedStatus.
  rewrite (existsb_negb_forallb (λ f, String.eqb (FileState.Status f) "completed")).
  destruct (forallb _ files) eqn:E; [|done].
  rewrite forallb_forall in E. apply list_elem_of_In, E, String.eqb_eq in Hin. done.
Qed.

(** C2.  After [updateFileState] on a known task with an index in range
    the stored status is "completed" when every file is completed and
    "in‑progress", written with U+2011, when some file is not in a terminal
    state; both are the rule's value up to the spelling of the hyphen.
    [AddTask] stores "pending" and [enqueueJob] leaves the stored status as
    it is.  [LoadFromSnapshot] stores "in‑progress", the rule's value, for
    every task it loads with a file that is not completed. *)
Theorem stored_status_by_operation :
  (∀ w w' id idx status errMsg t files,
     stored w id = Some (t, files) → (0 ≤ idx < Z.of_nat (length files))%Z →
     updateFileState id idx status errMsg w = Returns () w' →
     ∃ t' files',
       stored w' id = Some (t', files') ∧
       (Forall (λ f, FileState.Status f = "completed") files' →
        Task.Status t' = "completed" ∧ derivedStatus files' = "completed") ∧
       ((∃ f, f ∈ files' ∧ ¬ terminal f) →
        Task.Status t' = "in‑progress" ∧ derivedStatus files' = "in-progress")) ∧
  (∀ w w' id urls t,
     AddTask id urls w = Returns (inl t) w' →
     ∃ task files, stored w' id = Some (task, files) ∧ Task.Status task = "pending") ∧
  (∀ w w' id idx t files,
     stored w id = Some (t, files) → enqueueJob id idx w = Returns () w' →
     ∃ t' files', stored w' id = Some (t', files') ∧ Task.Status t' = Task.Status t) ∧
  (∀ w w' entries id d,
     wf w → NoDup (fst <$> entries) →
     LoadFromSnapshot (Some entries) w = Returns () w' → (id, d) ∈ entries →
     (∃ f, f ∈ doc_Files d ∧ FileState.Status f ≠ "completed") →
     ∃ t files, stored w' id = Some (t, files) ∧
                Task.Status t = "in‑progress" ∧
                derivedStatus files = "in-progress").
Proof.
  split_and!.
  - intros w w' id idx status errMsg t files Hs Hi Hret.
    destruct (updateFileState_never_with_errors w w' id idx status errMsg t files
                Hret Hs Hi) as (t' & files' & H1 & H2 & _).
    exists t', files'. split; [done|]. rewrite H2. split.
    + apply derivedStatus_completed.
    + intros (f & Hf & Hnt). by apply (derivedStatus_not_terminal files' f).
  - apply AddTask_stores_pending.
  - apply enqueueJob_keeps_status.
  - intros w w' entries id d Hwf Hnd Hret Hin (f & Hf & Hnc).
    destruct (LoadFromSnapshot_returns entries w w' Hwf Hret) as (_ & _ & _ & _ & Hnew).
    destruct (Hnew Hnd id d Hin) as [a Hs].
    eexists _, _. split; [exact Hs|]. simpl. split; [done|].
    apply (derivedStatus_not_terminal _ (resetFile f)).
    + by apply list_elem_of_fmap_2.
    + unfold terminal, resetFile. apply String.eqb_neq in Hnc. rewrite Hnc. simpl.
      intros [?|?]; discriminate.
Qed.

Lemma stored_status_by_operation_witness :
  (∃ w' t' files',
     updateFileState "t1" 0 "error" "boom" three_submitted_world = Returns () w' ∧
     stored w' "t1" = Some (t', files') ∧
     Task.Status t' = "in‑progress" ∧ derivedStatus files' = "in-progress") ∧
  (∃ task files,
     stored three_submitted_world "t1" = Some (task, files) ∧
     Task.Status task = "pending") ∧
  (∃ w' t files,
     main_recovery (Some failed_snapshot) clock0 = Returns () w' ∧
     stored w' "t1" = Some (t, files) ∧
     Task.Status t = "in‑progress" ∧ derivedStatus files = "in-progress").
Proof.
  destruct stored_status_by_operation as (Hupdate & Hadd & _ & Hload).
  split_and!.
  - assert (∃ w', updateFileState "t1" 0 "error" "boom" three_submitted_world
                  = Returns () w') as [w' Hret] by (eexists; vm_compute; reflexivity).
    destruct (Hupdate _ _ _ _ _ _ _ _ three_submitted_stored
                (conj (Z.le_refl 0) eq_refl) Hret) as (t' & files' & Hs & _ & Hip).
    exists w', t', files'. split; [done|]. split; [done|]. apply Hip.
    assert (files' !! 1 = Some (FileState.mk "https://x/b" "pending" "")) as Hf.
    { apply (f_equal (λ r, match r with Returns _ v => stored v "t1" | _ => None end))
        in Hret.
      rewrite Hs in Hret. vm_compute in Hret. by injection Hret as _ <-. }
    exists (FileState.mk "https://x/b" "pending" "").
    split; [by apply (list_elem_of_lookup_2 _ 1)|].
    intros [?|?]; discriminate.
  - destruct three_submitted_returns as [t Ht]. exact (Hadd _ _ _ _ _ Ht).
  - assert (∃ w', main_recovery (Some failed_snapshot) clock0 = Returns () w') as [w' Hw'].
    { eexists. vm_compute. reflexivity. }
    destruct (Hload (NewManager 100 (boot clock0)) w' failed_snapshot "t1"
                (mkTaskDoc "t1" [FileState.mk "https://x/a" "completed" "";
                                 FileState.mk "https://x/b" "error" "boom"]
                           "in‑progress" 5%Z 7%Z))
      as (t & files & Hs & Hst & Hagg).
    + apply NewManager_wf.
    + apply NoDup_singleton.
    + exact Hw'.
    + by left.
    + exists (FileState.mk "https://x/b" "error" "boom").
      split; [by apply (list_elem_of_lookup_2 _ 1)|done].
    + exists w', t, files. split_and!; done.
Defined.

(** * Further properties *)

(** ** A worker at work *)

Lemma alter_thrice_insert (files : list FileState.t) i f s e s0 :
  files !! i = Some f →
  alter (FileState.set_Error e) i
    (alter (FileState.set_Status s) i (alter (FileState.set_Status s0) i files)) =
  <[i := FileState.mk (FileState.URL f) s e]> files.
Proof.
  intros Hf. apply list_eq. intros j. destruct (decide (j = i)) as [->|Hne].
  - rewrite !list_lookup_alter_eq, Hf. simpl.
    rewrite list_lookup_insert_eq by (by eapply lookup_lt_Some). done.
  - rewrite !list_lookup_alter_ne by done. by rewrite list_lookup_insert_ne.
Qed.


Lemma processJob_live w id idx mkdirErr downloadErr p task files f :
  tasks w !! id = Some p → taskObjs w !! p = Some task →
  fileArrays w !! Task.Files task = Some files →
  (0 ≤ idx)%Z → files !! Z.to_nat idx = Some f →
  FileState.Status f ≠ "completed" →
  let files' := <[Z.to_nat idx := fileAfter (FileState.URL f) mkdirErr downloadErr]> files in
  processJob (mkJob id idx) mkdirErr downloadErr w =
  Returns () (mkWorld (tasks w) (jobs w) (queueSize w) (draining w)
    (<[p := Task.mk (Task.ID task) (Task.Files task) (aggregateStatus files')
                    (Task.CreatedAt task) (clock w (S (ticks w)))]> (taskObjs w))
    (<[Task.Files task := files']> (fileArrays w))
    (clock w) (S (S (ticks w)))).
Proof.
  intros Hp Ht Hf Hidx Hi Hst files'.
  assert (0 ≤ idx < Z.of_nat (length files))%Z as Hrange.
  { apply lookup_lt_Some in Hi. lia. }
  unfold processJob, processJob_begin. simpl. rewrite Hp, Ht, Hf.
  rewrite (proj2 (outOfRange_false idx files)) by done. rewrite Hi.
  destruct (String.eqb_spec (FileState.Status f) "completed") as [?|_]; [done|].
  simpl.
  set (files1 := alter (FileState.set_Status "in‑progress") (Z.to_nat idx) files).
  set (w1 := set_taskObjs _ _).
  assert (∀ s e,
    updateFileState id idx s e w1 =
    Returns () (mkWorld (tasks w) (jobs w) (queueSize w) (draining w)
      (<[p := Task.mk (Task.ID task) (Task.Files task)
                (aggregateStatus (<[Z.to_nat idx := FileState.mk (FileState.URL f) s e]> files))
                (Task.CreatedAt task) (clock w (S (ticks w)))]> (taskObjs w))
      (<[Task.Files task := <[Z.to_nat idx := FileState.mk (FileState.URL f) s e]> files]>
         (fileArrays w))
      (clock w) (S (S (ticks w))))) as Hupd.
  { intros s e.
    rewrite (updateFileState_known w1 id idx s e p
               (Task.set_Status "in‑progress" (Task.set_UpdatedAt (clock w (ticks w)) task))
               files1).
    - subst w1 files1. simpl. rewrite !insert_insert_eq.
      rewrite (alter_thrice_insert files (Z.to_nat idx) f) by done. done.
    - done.
    - subst w1. simpl. by rewrite lookup_insert_eq.
    - subst w1. simpl. by rewrite lookup_insert_eq.
    - subst files1. by rewrite length_alter. }
  subst files'. destruct mkdirErr as [e1|], downloadErr as [e2|]; simpl; apply Hupd.
Qed.

(** X1.  A job whose task is not in the map, whose index is out of range or
    whose file is already completed is dropped: neither [enqueueJob] nor
    [processJob] changes anything, whatever the download would have done. *)
Theorem stale_job_dropped job mkdirErr downloadErr w :
  staleJob job w →
  processJob job mkdirErr downloadErr w = Returns () w ∧
  enqueueJob (TaskID job) (FileIndex job) w = Returns () w.
Proof.
  unfold staleJob. destruct (stored w (TaskID job)) as [[t files]|] eqn:Hs.
  - apply stored_Some in Hs as (p & Hp & Ht & Hf). intros Hstale.
    unfold processJob, processJob_begin, enqueueJob. rewrite Hp, Ht, Hf.
    destruct (outOfRange (FileIndex job) files) eqn:Hout; [done|].
    destruct Hstale as [?|(f & Hi & Hst)]; [done|].
    rewrite Hi, Hst. done.
  - intros Hnone. unfold processJob, processJob_begin, enqueueJob.
    by rewrite Hnone.
Qed.

Lemma stale_job_dropped_witness :
  (processJob (mkJob "t9" 0) None None three_submitted_world
     = Returns () three_submitted_world ∧
   enqueueJob "t9" 0 three_submitted_world = Returns () three_submitted_world) ∧
  (processJob (mkJob "t1" 3) None (Some "boom") three_submitted_world
     = Returns () three_submitted_world ∧
   enqueueJob "t1" 3 three_submitted_world = Returns () three_submitted_world) ∧
  (processJob (mkJob "t1" 0) None (Some "boom") second_fails_world
     = Returns () second_fails_world ∧
   enqueueJob "t1" 0 second_fails_world = Returns () second_fails_world).
Proof.
  split; [|split].
  - apply (stale_job_dropped (mkJob "t9" 0)). vm_compute. reflexivity.
  - apply (stale_job_dropped (mkJob "t1" 3)). vm_compute. by left.
  - apply (stale_job_dropped (mkJob "t1" 0)). vm_compute. right.
    eexists. split; reflexivity.
Defined.

(** X2.  A job for a stored file that is not completed ends with the
    outcome of its download recorded in that file: "completed" with an
    empty error, or "error" with the message of the failed step, the error
    of creating the directory first.  The URL and the other files are
    kept, the task status is recomputed from the files, the queue and the
    other tasks are left alone. *)
Theorem processJob_records_outcome w id idx mkdirErr downloadErr t files f :
  wf w → stored w id = Some (t, files) →
  (0 ≤ idx)%Z → files !! Z.to_nat idx = Some f →
  FileState.Status f ≠ "completed" →
  ∃ w' t',
    processJob (mkJob id idx) mkdirErr downloadErr w = Returns () w' ∧
    stored w' id =
      Some (t', <[Z.to_nat idx := fileAfter (FileState.URL f) mkdirErr downloadErr]> files) ∧
    Task.Status t' =
      aggregateStatus
        (<[Z.to_nat idx := fileAfter (FileState.URL f) mkdirErr downloadErr]> files) ∧
    Task.ID t' = Task.ID t ∧ Task.CreatedAt t' = Task.CreatedAt t ∧
    Task.UpdatedAt t' = clock w (S (ticks w)) ∧
    jobs w' = jobs w ∧
    (∀ id', id' ≠ id → stored w' id' = stored w id').
Proof.
  intros Hwf Hs Hidx Hi Hst. apply stored_Some in Hs as (p & Hp & Ht & Hf).
  pose proof (processJob_live w id idx mkdirErr downloadErr p t files f
                Hp Ht Hf Hidx Hi Hst) as Hrun.
  simpl in Hrun. revert Hrun.
  set (files' := <[Z.to_nat idx := _]> files).
  set (t' := Task.mk _ _ _ _ _). set (w' := mkWorld _ _ _ _ _ _ _ _).
  intros Hrun. exists w', t'.
  assert (overwrites w w' p t' files') as Hov by (by exists t).
  split_and!; try done.
  - unfold stored. simpl. rewrite Hp. by apply (overwrites_deref w).
  - intros id' Hne. by apply (overwrites_stored_other w w' p t' files' id id').
Qed.

Lemma processJob_records_outcome_witness :
  ∃ w' t',
    processJob (mkJob "t1" 1) None (Some "boom") three_submitted_world = Returns () w' ∧
    stored w' "t1" =
      Some (t', [FileState.mk "https://x/a" "pending" "";
                 FileState.mk "https://x/b" "error" "boom";
                 FileState.mk "https://x/c" "pending" ""]) ∧
    Task.Status t' = "in‑progress" ∧
    jobs w' = jobs three_submitted_world.
Proof.
  destruct (processJob_records_outcome three_submitted_world "t1" 1 None (Some "boom")
              _ _ (FileState.mk "https://x/b" "pending" "")
              (reachable_wf _ three_submitted_reachable) three_submitted_stored)
    as (w' & t' & Hrun & Hs & Hst & _ & _ & _ & Hjobs & _);
    [lia|reflexivity|discriminate|].
  exists w', t'. split_and!; done.
Defined.

(** The files of a task once its jobs have been processed. *)
Lemma forallb_fileAfter urls : ∀ outcomes,
  length outcomes = length urls →
  forallb (λ f, String.eqb (FileState.Status f) "completed")
          (zip_with (λ u o, fileAfter u o.1 o.2) urls outcomes) =
  forallb succeeded outcomes.
Proof.
  induction urls as [|u urls IH]; intros [|[[e1|] [e2|]] outcomes] [=]; simpl;
    rewrite ?IH by done; done.
Qed.

Lemma workerRun_loop id p : ∀ urls outcomes done w task,
  length outcomes = length urls →
  tasks w !! id = Some p → taskObjs w !! p = Some task →
  fileArrays w !! Task.Files task = Some (done ++ pendingFiles urls) →
  jobs w = (λ j, mkJob id (Z.of_nat j)) <$> seq (length done) (length urls) →
  ∃ w' task',
    workerRun outcomes w = Returns () w' ∧
    tasks w' = tasks w ∧ taskObjs w' !! p = Some task' ∧
    Task.ID task' = Task.ID task ∧ Task.Files task' = Task.Files task ∧
    Task.CreatedAt task' = Task.CreatedAt task ∧
    fileArrays w' !! Task.Files task =
      Some (done ++ zip_with (λ u o, fileAfter u o.1 o.2) urls outcomes) ∧
    jobs w' = [] ∧
    (urls = [] → task' = task) ∧
    (urls ≠ [] →
     Task.Status task' =
       aggregateStatus (done ++ zip_with (λ u o, fileAfter u o.1 o.2) urls outcomes)).
Proof.
  induction urls as [|u urls IH]; intros [|o outcomes] done w task [=] Hp Ht Hf Hjobs.
  - exists w, task. simpl in *. split_and!; done.
  - simpl in Hjobs. unfold workerRun. rewrite forEach_cons.
    unfold workerTurn, receive. rewrite Hjobs.
    set (w1 := set_jobs _ w).
    assert ((done ++ pendingFiles (u :: urls)) !! Z.to_nat (Z.of_nat (length done)) =
            Some (FileState.mk u "pending" "")) as Hi.
    { rewrite Nat2Z.id.
      change (pendingFiles (u :: urls))
        with (FileState.mk u "pending" "" :: pendingFiles urls).
      by apply list_lookup_middle. }
    rewrite (processJob_live w1 id (Z.of_nat (length done)) o.1 o.2 p task
               (done ++ pendingFiles (u :: urls)) (FileState.mk u "pending" ""));
      [|done|done|done|lia|done|discriminate].
    rewrite bind_Returns. rewrite Nat2Z.id. simpl FileState.URL.
    rewrite list_insert_alter.
    change (pendingFiles (u :: urls)) with (FileState.mk u "pending" "" :: pendingFiles urls).
    rewrite (alter_middle (λ _, fileAfter u o.1 o.2)).
    set (x := fileAfter u o.1 o.2).
    set (task2 := Task.mk _ _ _ _ _). set (w2 := mkWorld _ _ _ _ _ _ _ _).
    destruct (IH outcomes (done ++ [x]) w2 task2) as
      (w' & task' & Hrun & Htasks & Hobj & Hid & Hfiles & Hcreated & Harr & Hq & Hnil & Hst).
    + done.
    + done.
    + subst w2. simpl. by rewrite lookup_insert_eq.
    + subst w2. simpl. rewrite lookup_insert_eq. by rewrite <- app_assoc.
    + subst w2. simpl. rewrite length_app. simpl. by rewrite Nat.add_1_r.
    + exists w', task'. rewrite <- app_assoc in Harr, Hst. simpl in Harr, Hst.
      split_and!; try done.
      intros _. destruct urls as [|u' urls'].
      * rewrite (Hnil eq_refl). destruct outcomes; done.
      * by apply Hst.
Qed.

(** X3.  A task submitted to an idle manager with room in its queue, and
    then worked off by one worker, ends with every file in the state its
    download gave it and with an empty queue.  The task is "completed" when
    every download succeeded and "in‑progress" as soon as one failed. *)
Theorem AddTask_then_workers id urls outcomes w :
  urls ≠ [] → jobs w = [] → draining w = false →
  (length urls ≤ queueSize w)%nat → length outcomes = length urls →
  ∃ t w1 w2 task,
    AddTask id urls w = Returns (inl t) w1 ∧
    workerRun outcomes w1 = Returns () w2 ∧
    jobs w2 = [] ∧
    stored w2 id = Some (task, zip_with (λ u o, fileAfter u o.1 o.2) urls outcomes) ∧
    Task.ID task = id ∧ Task.CreatedAt task = clock w (ticks w) ∧
    Task.Status task =
      (if forallb succeeded outcomes then "completed" else "in‑progress").
Proof.
  intros Hurls Hjobs Hdr Hroom Hlen.
  destruct (AddTask_nonempty id urls w Hurls) as (t & a & w1 & _ & Hreg & Hret).
  destruct Hret as [Hadd Hsent]; [right; rewrite Hjobs; simpl; lia|].
  specialize (Hsent Hdr). rewrite Hjobs in Hsent. simpl in Hsent.
  destruct Hreg as (Ht & task & Hobj & Hid & Hfiles & _ & Hcreated & Harr).
  destruct (workerRun_loop id t urls outcomes [] w1 task) as
    (w2 & task' & Hrun & Htasks & Hobj' & Hid' & Hfiles' & Hcreated' & Harr' & Hq & _ & Hst);
    try done.
  { by rewrite Hfiles. }
  exists t, w1, w2, task'. split_and!; try done.
  - unfold stored, deref. rewrite Htasks, Ht, Hobj', Hfiles', Harr'. done.
  - congruence.
  - congruence.
  - rewrite (Hst Hurls). simpl. rewrite aggregateStatus_cases.
    by rewrite forallb_fileAfter.
Qed.

Lemma AddTask_then_workers_witness :
  ∃ t w1 w2 task,
    AddTask "t1" ["https://x/a"; "https://x/b"] fresh_manager = Returns (inl t) w1 ∧
    workerRun [(None, None); (None, Some "boom")] w1 = Returns () w2 ∧
    jobs w2 = [] ∧
    stored w2 "t1" = Some (task, [FileState.mk "https://x/a" "completed" "";
                                  FileState.mk "https://x/b" "error" "boom"]) ∧
    Task.Status task = "in‑progress".
Proof.
  destruct (AddTask_then_workers "t1" ["https://x/a"; "https://x/b"]
              [(None, None); (None, Some "boom")] fresh_manager)
    as (t & w1 & w2 & task & Hadd & Hrun & Hjobs & Hs & _ & _ & Hst);
    [discriminate|reflexivity|reflexivity|simpl; lia|reflexivity|].
  exists t, w1, w2, task. split_and!; done.
Defined.

(** ** The queue *)

Lemma send_queue_inv size job w w' :
  queue_inv size w → send job w = Returns () w' → queue_inv size w'.
Proof.
  intros (Hsize & Hdr & Hlen). unfold send. case_decide as Hroom; [|done].
  intros [= <-]. unfold queue_inv. simpl. rewrite length_app. simpl.
  split_and!; [done|done|lia].
Qed.

Lemma enqueueJob_queue_inv size id idx w w' :
  queue_inv size w → enqueueJob id idx w = Returns () w' → queue_inv size w'.
Proof.
  intros Hq. unfold enqueueJob.
  destruct (tasks w !! id) as [p|]; [|by intros [= <-]].
  destruct (taskObjs w !! p) as [task|]; [|done].
  destruct (fileArrays w !! Task.Files task) as [files|]; [|done].
  destruct (outOfRange idx files); [by intros [= <-]|].
  destruct (files !! Z.to_nat idx) as [f|]; [|done].
  destruct (String.eqb (FileState.Status f) "completed"); [by intros [= <-]|].
  simpl. apply send_queue_inv. done.
Qed.

Lemma processJob_begin_queue_inv size job started w w' :
  queue_inv size w → processJob_begin job w = Returns started w' → queue_inv size w'.
Proof.
  intros Hq. unfold processJob_begin.
  destruct (tasks w !! TaskID job) as [p|]; [|by intros [= <- <-]].
  destruct (taskObjs w !! p) as [task|]; [|done].
  destruct (fileArrays w !! Task.Files task) as [files|]; [|done].
  destruct (outOfRange (FileIndex job) files); [by intros [= <- <-]|].
  destruct (files !! Z.to_nat (FileIndex job)) as [f|]; [|done].
  destruct (String.eqb (FileState.Status f) "completed"); [by intros [= <- <-]|].
  simpl. by intros [= <- <-].
Qed.

Lemma updateFileState_queue_inv size id idx status errMsg w w' :
  queue_inv size w → updateFileState id idx status errMsg w = Returns () w' →
  queue_inv size w'.
Proof.
  intros Hq. unfold updateFileState.
  destruct (tasks w !! id) as [p|]; [|by intros [= <-]].
  destruct (taskObjs w !! p) as [task|]; [|done].
  destruct (fileArrays w !! Task.Files task) as [files|]; [|done].
  destruct (outOfRange idx files); [by intros [= <-]|].
  simpl. by intros [= <-].
Qed.

Lemma GetTask_queue_inv size id r w w' :
  queue_inv size w → GetTask id w = Returns r w' → queue_inv size w'.
Proof.
  intros Hq. unfold GetTask.
  destruct (tasks w !! id) as [p|]; [|by intros [= <- <-]].
  destruct (taskObjs w !! p) as [task|]; [|done]. simpl.
  destruct (fileArrays w !! Task.Files task) as [files|]; [|done].
  simpl. by intros [= <- <-].
Qed.

Lemma LoadFromSnapshot_queue_inv size snapshot w w' :
  queue_inv size w → LoadFromSnapshot snapshot w = Returns () w' → queue_inv size w'.
Proof.
  intros (Hsize & Hdr & Hlen). destruct snapshot as [entries|]; [|by intros [= <-]].
  intros Hret.
  destruct (LoadFromSnapshot_layout entries w) as (l & _ & _ & _ & _ & Hfits & Hblocks).
  destruct (fits_decide w (sentBy entries)) as [Hf|Hf].
  - destruct (Hfits Hf) as (w'' & Hret' & _ & _ & _ & _ & Hjobs & Hsz & Hd & _).
    rewrite Hret in Hret'. injection Hret' as <-.
    unfold queue_inv. rewrite Hsz, Hd, Hjobs, length_app.
    split_and!; [done|done|].
    destruct Hf as [->|Hf]; simpl; lia.
  - destruct (Hblocks Hf) as (wb & Hb). congruence.
Qed.

Lemma step_queue_inv size w w' : queue_inv size w → step w w' → queue_inv size w'.
Proof.
  intros Hq Hstep. destruct Hstep.
  - rewrite registerTask_eq. exact Hq.
  - by apply (enqueueJob_queue_inv size id idx w).
  - destruct Hq as (Hsize & Hdr & Hlen). unfold queue_inv. simpl.
    rewrite H in Hlen. simpl in Hlen. split_and!; [done|done|lia].
  - by apply (processJob_begin_queue_inv size job started w).
  - by apply (updateFileState_queue_inv size id idx "error" err w).
  - by apply (updateFileState_queue_inv size id idx "completed" "" w).
  - by apply (GetTask_queue_inv size id copy w).
  - by apply (LoadFromSnapshot_queue_inv size snapshot w).
Qed.

Lemma reachable_queue_inv w : reachable w → queue_inv (queueSize w) w.
Proof.
  intros (clk & size & Hsteps).
  assert (queue_inv size (NewManager size (boot clk))) as H0.
  { unfold queue_inv. simpl. split_and!; [done|done|lia]. }
  assert (queue_inv size w) as Hq.
  { revert H0. induction Hsteps as [|w0 w1 w2 Hstep _ IH]; [done|].
    intros H0. apply IH. by apply (step_queue_inv size w0). }
  destruct Hq as (Hsize & Hq). by rewrite Hsize.
Qed.

(** X5.  Nothing in the manager ever sets [draining]: it is false in every
    reachable state, so the branch of [AddTask] that skips the queue is never
    taken.  A non-empty submission always sends its jobs, one per file in
    index order behind the jobs already queued, or waits on the full
    channel. *)
Theorem reachable_never_draining w id urls :
  reachable w → urls ≠ [] →
  draining w = false ∧
  ∃ t w',
    (AddTask id urls w = Returns (inl t) w' ∧
     jobs w' = jobs w ++ ((λ j, mkJob id (Z.of_nat j)) <$> seq 0 (length urls))) ∨
    (AddTask id urls w = Blocks w' ∧
     queueSize w < length (jobs w) + length urls).
Proof.
  intros Hr Hurls. destruct (reachable_queue_inv w Hr) as (_ & Hdr & _).
  split; [done|].
  destruct (AddTask_nonempty id urls w Hurls) as (t & a & w' & Hcase & _ & Hroom).
  exists t, w'.
  destruct (decide (length (jobs w) + length urls ≤ queueSize w)%nat) as [Hfit|Hfit].
  - left. destruct Hroom as [Hret Hjobs]; [by right|]. split; [done|by apply Hjobs].
  - destruct Hcase as [Hret|(Hb & _ & Hfull)]; [|by right].
    left. split; [done|]. exfalso.
    (* a return on a channel without room would need [draining] *)
    unfold AddTask in Hret. case_decide as Hlen; [by destruct urls|].
    destruct (registerTask id urls w) as [t1 w1] eqn:Hreg.
    assert (w1 = (registerTask id urls w).2) as Hw1 by (by rewrite Hreg).
    rewrite registerTask_eq in Hw1. simpl in Hw1.
    assert (draining w1 = false) as Hdr1 by (by subst w1).
    rewrite Hdr1 in Hret.
    destruct (enqueue_loop id t1 (fresh (dom (fileArrays w))) (clock w (ticks w)) urls
                (length urls) 0 w1) as [_ Hblocks].
    { pose proof (registerTask_registered id urls w) as Hregd.
      rewrite Hreg in Hregd. simpl in Hregd.
      assert (t1 = fresh (dom (taskObjs w))) as ->.
      { pose proof (registerTask_eq id urls w) as E. rewrite Hreg in E. by injection E. }
      done. }
    { lia. }
    destruct Hblocks as (wb & Hb & _).
    { destruct urls; [done|simpl; lia]. }
    { subst w1. simpl. lia. }
    rewrite Hb in Hret. done.
Qed.

Lemma reachable_never_draining_witness :
  draining three_submitted_world = false ∧
  ∃ t w',
    (AddTask "t2" ["https://x/d"] three_submitted_world = Returns (inl t) w' ∧
     jobs w' = jobs three_submitted_world ++
               ((λ j, mkJob "t2" (Z.of_nat j)) <$> seq 0 1)) ∨
    (AddTask "t2" ["https://x/d"] three_submitted_world = Blocks w' ∧
     queueSize three_submitted_world < length (jobs three_submitted_world) + 1).
Proof.
  apply (reachable_never_draining three_submitted_world "t2" ["https://x/d"]
           three_submitted_reachable). discriminate.
Defined.

(** ** No nil or dangling pointer, no index out of range *)

Lemma send_no_panic job w : send job w ≠ Panics.
Proof. unfold send. by case_decide. Qed.

Lemma enqueueJob_no_panic id idx w : wf w → enqueueJob id idx w ≠ Panics.
Proof.
  intros Hwf. unfold enqueueJob.
  destruct (tasks w !! id) as [p|] eqn:Hp; [|done].
  destruct (wf_stored w Hwf id p Hp) as [task Ht]. rewrite Ht.
  destruct (wf_files w Hwf p task Ht) as [files Hf]. rewrite Hf.
  destruct (outOfRange idx files) eqn:Hout; [done|].
  apply outOfRange_false in Hout.
  destruct (lookup_lt_is_Some_2 files (Z.to_nat idx)) as [f Hi]; [lia|]. rewrite Hi.
  destruct (String.eqb (FileState.Status f) "completed"); [done|].
  simpl. apply send_no_panic.
Qed.







(** ** The stored status *)

Lemma store_sat_same_heap P w w' : same_heap w w' → store_sat P w → store_sat P w'.
Proof.
  intros Hsame Hok id t files. rewrite (stored_same_heap w w') by done. apply Hok.
Qed.

Lemma store_sat_overwrites P w w' id p task' files' :
  wf w → store_sat P w → tasks w !! id = Some p → overwrites w w' p task' files' →
  P task' files' → store_sat P w'.
Proof.
  intros Hwf Hok Hid Hov Hnew id' t fs Hs.
  destruct (decide (id' = id)) as [->|Hne].
  - pose proof Hov as (task & Hp & Hfiles & Htasks & Hobjs & Harrs).
    unfold stored in Hs. rewrite Htasks, Hid in Hs.
    rewrite (overwrites_deref w w' p task' files') in Hs by done.
    by injection Hs as <- <-.
  - rewrite (overwrites_stored_other w w' p task' files' id id') in Hs by done.
    by apply (Hok id').
Qed.

Lemma assigned_pending : "pending" ∈ assignedStatuses.
Proof. by apply (list_elem_of_lookup_2 _ 0). Qed.
Lemma assigned_in_progress : "in‑progress" ∈ assignedStatuses.
Proof. by apply (list_elem_of_lookup_2 _ 1). Qed.
Lemma assigned_completed : "completed" ∈ assignedStatuses.
Proof. by apply (list_elem_of_lookup_2 _ 2). Qed.

Lemma status_sound_aggregate t files :
  Task.Status t = aggregateStatus files → status_sound t files.
Proof.
  unfold status_sound. intros ->. rewrite aggregateStatus_cases.
  destruct (forallb _ files) eqn:Hall.
  - split; [apply assigned_completed|]. intros _.
    apply Forall_forall. intros f Hf.
    rewrite forallb_forall in Hall. apply String.eqb_eq, Hall.
    by apply list_elem_of_In.
  - split; [apply assigned_in_progress|done].
Qed.

Lemma enqueueJob_status_sound id idx w w' :
  wf w → store_sat status_sound w → enqueueJob id idx w = Returns () w' →
  store_sat status_sound w'.
Proof.
  intros Hwf Hok. unfold enqueueJob.
  destruct (tasks w !! id) as [p|] eqn:Hp; [|by intros [= <-]].
  destruct (taskObjs w !! p) as [task|] eqn:Ht; [|done].
  destruct (fileArrays w !! Task.Files task) as [files|] eqn:Hf; [|done].
  destruct (outOfRange idx files); [by intros [= <-]|].
  destruct (files !! Z.to_nat idx) as [f|] eqn:Hi; [|done].
  destruct (String.eqb_spec (FileState.Status f) "completed") as [|Hnc];
    [by intros [= <-]|].
  simpl. intros Hsend.
  assert (world_of (send (mkJob id idx)
            (set_taskObjs (<[p := Task.set_UpdatedAt (clock w (ticks w)) task]> (taskObjs w))
               (set_ticks (S (ticks w))
                  (set_fileArrays
                     (<[Task.Files task :=
                          alter (FileState.set_Status "pending") (Z.to_nat idx) files]>
                        (fileArrays w)) w)))) = Some w') as Hw by (by rewrite Hsend).
  apply send_world in Hw as [(H1 & H2 & H3) _]. simpl in *.
  destruct (Hok id task files) as [Hts Hfs]; [apply stored_Some; eauto|].
  apply (store_sat_overwrites status_sound w w' id p
           (Task.set_UpdatedAt (clock w (ticks w)) task)
           (alter (FileState.set_Status "pending") (Z.to_nat idx) files)); try done.
  - by exists task.
  - split; [done|]. simpl. intros Hc. specialize (Hfs Hc).
    rewrite Forall_lookup in Hfs. by specialize (Hfs _ _ Hi).
Qed.

Lemma processJob_begin_status_sound job w started w' :
  wf w → store_sat status_sound w → processJob_begin job w = Returns started w' →
  store_sat status_sound w'.
Proof.
  intros Hwf Hok. unfold processJob_begin.
  destruct (tasks w !! TaskID job) as [p|] eqn:Hp; [|by intros [= <- <-]].
  destruct (taskObjs w !! p) as [task|] eqn:Ht; [|done].
  destruct (fileArrays w !! Task.Files task) as [files|] eqn:Hf; [|done].
  destruct (outOfRange (FileIndex job) files); [by intros [= <- <-]|].
  destruct (files !! Z.to_nat (FileIndex job)) as [f|]; [|done].
  destruct (String.eqb (FileState.Status f) "completed"); [by intros [= <- <-]|].
  simpl. intros [= <- <-].
  eapply (store_sat_overwrites status_sound w _ (TaskID job) p
           (Task.set_Status "in‑progress" (Task.set_UpdatedAt (clock w (ticks w)) task))
           (alter (FileState.set_Status "in‑progress") (Z.to_nat (FileIndex job)) files));
    try done.
  - by exists task.
  - split; [apply assigned_in_progress|done].
Qed.

Lemma updateFileState_status_sound id idx status errMsg w w' :
  wf w → store_sat status_sound w →
  updateFileState id idx status errMsg w = Returns () w' → store_sat status_sound w'.
Proof.
  intros Hwf Hok. unfold updateFileState.
  destruct (tasks w !! id) as [p|] eqn:Hp; [|by intros [= <-]].
  destruct (taskObjs w !! p) as [task|] eqn:Ht; [|done].
  destruct (fileArrays w !! Task.Files task) as [files|] eqn:Hf; [|done].
  destruct (outOfRange idx files); [by intros [= <-]|].
  simpl. intros [= <-].
  eapply (store_sat_overwrites status_sound w _ id p
           (Task.set_Status _ (Task.set_UpdatedAt (clock w (ticks w)) task))
           (alter (FileState.set_Error errMsg) (Z.to_nat idx)
              (alter (FileState.set_Status status) (Z.to_nat idx) files)));
    try done.
  - by exists task.
  - by apply status_sound_aggregate.
Qed.

Lemma step_status_sound w w' :
  wf w → store_sat status_sound w → step w w' → store_sat status_sound w'.
Proof.
  intros Hwf Hok Hstep. destruct Hstep.
  - intros id' t files. rewrite registerTask_stored by done.
    case_decide; [|apply Hok]. intros [= <- <-]. split; [apply assigned_pending|done].
  - by apply (enqueueJob_status_sound id idx w w').
  - by apply (store_sat_same_heap _ w).
  - by apply (processJob_begin_status_sound job w started w').
  - by apply (updateFileState_status_sound id idx "error" err w w').
  - by apply (updateFileState_status_sound id idx "completed" "" w w').
  - intros id' t files. rewrite (GetTask_stored id w copy w') by done. apply Hok.
  - destruct snapshot as [entries|]; [|by injection H as <-].
    intros id' t files Hs.
    destruct (LoadFromSnapshot_returns entries w w' Hwf H) as (_ & _ & Hcases & _).
    destruct (Hcases id' t files Hs) as [(d & Hd & -> & ->)|[_ Hold]].
    + split; [apply assigned_in_progress|done].
    + by apply (Hok id').
Qed.

Lemma reachable_status_sound w : reachable w → store_sat status_sound w.
Proof.
  intros (clk & size & Hsteps).
  assert (wf (NewManager size (boot clk)) ∧
          store_sat status_sound (NewManager size (boot clk))) as H0.
  { split; [apply NewManager_wf|]. intros id t files. unfold stored. simpl.
    by rewrite lookup_empty. }
  revert H0. induction Hsteps as [|w w1 w2 Hstep _ IH]; [tauto|].
  intros [Hwf Hok]. apply IH. split.
  - apply (ev_wf w). apply (step_evolves w w w1); [by apply evolves_refl|done].
  - by apply (step_status_sound w).
Qed.

(** X7.  The manager only ever assigns three task statuses: "pending",
    "in‑progress" and "completed"; "completed_with_errors" is never stored.
    A stored status "completed" is never premature: every file of such a
    task is completed. *)
Theorem reachable_status_sound_completed w id t files :
  reachable w → stored w id = Some (t, files) →
  Task.Status t ∈ assignedStatuses ∧
  Task.Status t ≠ "completed_with_errors" ∧
  (Task.Status t = "completed" →
   Forall (λ f, FileState.Status f = "completed") files).
Proof.
  intros Hr Hs. destruct (reachable_status_sound w Hr id t files Hs) as [Hin Hall].
  split_and!; [done| |done].
  intros Heq. rewrite Heq in Hin. unfold assignedStatuses in Hin.
  rewrite !elem_of_cons in Hin. destruct Hin as [?|[?|[?|Hin]]]; try discriminate.
  by apply elem_of_nil in Hin.
Qed.

Lemma reachable_status_sound_completed_witness :
  Task.Status (Task.mk "t1" 1%positive "in‑progress" 1000%Z 1004%Z) ∈ assignedStatuses ∧
  Task.Status (Task.mk "t1" 1%positive "in‑progress" 1000%Z 1004%Z)
    ≠ "completed_with_errors" ∧
  (Task.Status (Task.mk "t1" 1%positive "in‑progress" 1000%Z 1004%Z) = "completed" →
   Forall (λ f, FileState.Status f = "completed")
     [FileState.mk "https://x/a" "in‑progress" "";
      FileState.mk "https://x/b" "pending" "";
      FileState.mk "https://x/c" "pending" ""]).
Proof.
  exact (reachable_status_sound_completed first_started_world "t1" _ _
           first_started_reachable first_started_stored).
Defined.

(** ** The scenario in which the second download fails *)

Lemma second_fails_reachable : reachable second_fails_world.
Proof.
  destruct three_submitted_reachable as (clk & size & Hsteps).
  exists clk, size. eapply rtc_trans; [exact Hsteps|].
  assert (∃ w2 w3,
    workerTurn None None three_submitted_world = Returns () w2 ∧
    workerTurn None (Some "boom") w2 = Returns () w3 ∧
    workerTurn None None w3 = Returns () second_fails_world) as (w2 & w3 & E1 & E2 & E3).
  { eexists _, _. split; [vm_compute; reflexivity|].
    split; vm_compute; reflexivity. }
  eapply rtc_trans; [by apply (workerTurn_steps None None _ w2)|].
  eapply rtc_trans; [by apply (workerTurn_steps None (Some "boom") _ w3)|].
  by apply (workerTurn_steps None None _ second_fails_world).
Qed.

Lemma second_fails_stored :
  ∃ t, stored second_fails_world "t1" =
         Some (t, [FileState.mk "https://x/a" "completed" "";
                   FileState.mk "https://x/b" "error" "boom";
                   FileState.mk "https://x/c" "completed" ""]) ∧
       Task.Status t = "in‑progress".
Proof. eexists. split; vm_compute; reflexivity. Qed.

(** ** writeSnapshot *)

Lemma copyTask_allocates id p t files w :
  taskObjs w !! p = Some t → fileArrays w !! Task.Files t = Some files →
  ∃ w',
    copyTask (id, p) w = Returns (id, fresh (dom (taskObjs w))) w' ∧
    allocates w w' (fresh (dom (taskObjs w)))
              (Task.set_Files (fresh (dom (fileArrays w))) t) files ∧
    jobs w' = jobs w ∧ queueSize w' = queueSize w ∧ draining w' = draining w ∧
    clock w' = clock w ∧ ticks w' = ticks w.
Proof.
  intros Ht Hf. unfold copyTask. rewrite Ht. simpl. rewrite Hf. simpl.
  eexists. split; [done|]. rewrite insert_insert_eq, insert_insert_eq.
  rewrite copy_slice_zeroed. unfold allocates. simpl. split_and!; try done.
  all: try apply fresh_struct; try apply fresh_array.
Qed.

Lemma collect_cons {A B : Type} (body : A → World → result B) x rest w :
  collect body (x :: rest) w =
  bind (body x w) (λ y w1,
  bind (collect body rest w1) (λ ys w2, Returns (y :: ys) w2)).
Proof. reflexivity. Qed.

Lemma collect_copyTask l : ∀ w,
  wf w → (∀ e, e ∈ l → is_Some (taskObjs w !! e.2)) →
  ∃ copies w',
    collect copyTask l w = Returns copies w' ∧
    wf w' ∧ tasks w' = tasks w ∧ jobs w' = jobs w ∧
    queueSize w' = queueSize w ∧ draining w' = draining w ∧
    clock w' = clock w ∧ ticks w' = ticks w ∧
    (∀ q, is_Some (taskObjs w !! q) → deref w' q = deref w q) ∧
    (∀ q, is_Some (taskObjs w !! q) → is_Some (taskObjs w' !! q)) ∧
    Forall2 (copied w w') l copies.
Proof.
  induction l as [|[id p] l IH]; intros w Hwf Hall.
  - exists [], w. simpl. split_and!; done.
  - destruct (Hall (id, p)) as [t Ht]; [left|]. simpl in Ht.
    destruct (wf_files w Hwf p t Ht) as [files Hf].
    destruct (copyTask_allocates id p t files w Ht Hf)
      as (w1 & Hcopy & Hal & Hj1 & Hq1 & Hd1 & Hc1 & Hk1).
    pose proof (wf_allocates w w1 _ _ _ Hwf Hal) as Hwf1.
    assert (∀ q, is_Some (taskObjs w !! q) → is_Some (taskObjs w1 !! q)) as Hkeep1.
    { intros q Hq. pose proof Hal as (Hfresh & _ & _ & Hobjs & _).
      rewrite Hobjs, lookup_insert_ne; [done|]. intros <-. rewrite Hfresh in Hq.
      by destruct Hq. }
    destruct (IH w1 Hwf1) as
      (copies & w' & Hrest & Hwf' & Ht' & Hj' & Hq' & Hd' & Hc' & Hk' & Hderef & Hkeep & Hall2).
    { intros e He. apply Hkeep1, Hall. by right. }
    exists ((id, fresh (dom (taskObjs w))) :: copies), w'.
    rewrite collect_cons, Hcopy, bind_Returns, Hrest, bind_Returns.
    pose proof Hal as (Hfresh & Hfresha & Htasks1 & Hobjs1 & Harrs1).
    split_and!; try congruence.
    + intros q Hq. rewrite Hderef by (by apply Hkeep1).
      by eapply (deref_allocates w w1); [|exact Hal|].
    + intros q Hq. by apply Hkeep, Hkeep1.
    + constructor.
      * split; [done|]. exists t, files, (fresh (dom (fileArrays w))). simpl. split.
        { unfold deref. by rewrite Ht, Hf. }
        rewrite Hderef.
        2:{ rewrite Hobjs1, lookup_insert_eq. by eexists. }
        unfold deref. rewrite Hobjs1, lookup_insert_eq. simpl.
        by rewrite Harrs1, lookup_insert_eq.
      * apply Forall2_same_length_lookup in Hall2 as [Hlen Hall2].
        apply Forall2_same_length_lookup. split; [done|].
        intros i e c He Hc. destruct (Hall2 i e c He Hc) as (Hid & t0 & files0 & a0 & Hd & Hdc).
        split; [done|]. exists t0, files0, a0. split; [|done].
        rewrite <- Hd. symmetry. eapply (deref_allocates w w1); [done|exact Hal|].
        apply Hall. right. by apply (list_elem_of_lookup_2 _ i).
Qed.

Lemma Forall2_fst_eq {A B : Type} (R : string * A → string * B → Prop) l k :
  (∀ e x, R e x → x.1 = e.1) → Forall2 R l k → fst <$> k = fst <$> l.
Proof.
  intros HR Hall. induction Hall as [|e x l k Hex _ IH]; [done|].
  rewrite !fmap_cons, IH, (HR e x Hex). done.
Qed.

Lemma writeSnapshot_encoded w :
  wf w →
  ∃ data w',
    (∀ marshalErr mkdirErr writeErr renameErr,
       writeSnapshot marshalErr mkdirErr writeErr renameErr w =
       Returns (if marshalErr || mkdirErr || writeErr || renameErr
                then None else Some data) w') ∧
    Forall2 (encoded w) (map_to_list (tasks w)) data ∧
    wf w' ∧ tasks w' = tasks w ∧ jobs w' = jobs w ∧
    queueSize w' = queueSize w ∧ draining w' = draining w ∧
    clock w' = clock w ∧ ticks w' = ticks w ∧
    (∀ q, is_Some (taskObjs w !! q) → deref w' q = deref w q).
Proof.
  intros Hwf.
  destruct (collect_copyTask (map_to_list (tasks w)) w Hwf) as
    (copies & w' & Hrun & Hwf' & Ht' & Hj' & Hq' & Hd' & Hc' & Hk' & Hderef & _ & Hall).
  { intros [id p] He. apply elem_of_map_to_list in He. by apply (wf_stored w Hwf id). }
  assert (∃ data, marshal copies w' = Some data ∧
                  Forall2 (encoded w) (map_to_list (tasks w)) data) as (data & Hm & Henc).
  { clear Hrun. unfold marshal.
    induction Hall as [|e c l copies (Hid & t & files & a & He & Hc) _ IH].
    - exists []. split; [done|constructor].
    - destruct IH as (data & Hm & Henc).
      exists ((e.1, docOf t files) :: data). split.
      + rewrite mapM_Some. constructor.
        * rewrite Hc. simpl. by rewrite Hid.
        * by apply mapM_Some.
      + constructor; [|done]. split; [done|]. by exists t, files. }
  exists data, w'. split_and!; try done.
  intros marshalErr mkdirErr writeErr renameErr. unfold writeSnapshot.
  rewrite Hrun, bind_Returns, Hm.
  by destruct marshalErr, mkdirErr, writeErr, renameErr.
Qed.

Lemma encoded_entries w data :
  Forall2 (encoded w) (map_to_list (tasks w)) data →
  NoDup (fst <$> data) ∧
  ∀ id d, (id, d) ∈ data ↔
          ∃ t files, stored w id = Some (t, files) ∧ d = docOf t files.
Proof.
  intros Henc. split.
  - rewrite (Forall2_fst_eq (encoded w) (map_to_list (tasks w)) data);
      [apply NoDup_fst_map_to_list|by intros e x [? _]|done].
  - intros id d. split.
    + intros Hin. apply list_elem_of_lookup_1 in Hin as [i Hi].
      destruct (Forall2_lookup_r _ _ _ _ _ Henc Hi) as ([id' p] & He & Hid & t & files & Hd & Hx).
      simpl in *. subst id'. exists t, files. split; [|done].
      apply list_elem_of_lookup_2, elem_of_map_to_list in He.
      unfold stored. by rewrite He.
    + intros (t & files & Hs & ->). unfold stored in Hs.
      destruct (tasks w !! id) as [p|] eqn:Hp; [|done].
      apply elem_of_map_to_list, list_elem_of_lookup_1 in Hp as [i Hi].
      destruct (Forall2_lookup_l _ _ _ _ _ Henc Hi) as ([id' d] & Hx & Hid & t0 & files0 & Hd & Hdoc).
      simpl in *. subst id'. rewrite Hs in Hd. injection Hd as <- <-. subst d.
      by apply (list_elem_of_lookup_2 _ i).
Qed.

(** X8.  [writeSnapshot] serialises a copy of the store and nothing else:
    the document has exactly one entry per stored task, under its id and
    with the task's fields and files by value, and the store, the queue and
    the clock are as before.  When a step of the output fails the snapshot
    file is left as it was. *)
Theorem writeSnapshot_copies_store marshalErr mkdirErr writeErr renameErr w :
  wf w →
  ∃ data w',
    writeSnapshot marshalErr mkdirErr writeErr renameErr w =
      Returns (if marshalErr || mkdirErr || writeErr || renameErr
               then None else Some data) w' ∧
    NoDup (fst <$> data) ∧
    (∀ id d, (id, d) ∈ data ↔
             ∃ t files, stored w id = Some (t, files) ∧ d = docOf t files) ∧
    (∀ id, stored w' id = stored w id) ∧
    jobs w' = jobs w ∧ ticks w' = ticks w.
Proof.
  intros Hwf.
  destruct (writeSnapshot_encoded w Hwf) as
    (data & w' & Hrun & Henc & Hwf' & Ht' & Hj' & _ & _ & _ & Hk' & Hderef).
  destruct (encoded_entries w data Henc) as [Hnodup Hdata].
  exists data, w'. split_and!; try done.
  intros id. unfold stored. rewrite Ht'.
  destruct (tasks w !! id) as [p|] eqn:Hp; [|done].
  apply Hderef. by apply (wf_stored w Hwf id).
Qed.

Lemma writeSnapshot_copies_store_witness :
  ∃ data w',
    writeSnapshot false false false false three_submitted_world = Returns (Some data) w' ∧
    (∀ id d, (id, d) ∈ data ↔
             ∃ t files, stored three_submitted_world id = Some (t, files) ∧
                        d = docOf t files) ∧
    (∀ id, stored w' id = stored three_submitted_world id).
Proof.
  destruct (writeSnapshot_copies_store false false false false three_submitted_world
              (reachable_wf _ three_submitted_reachable))
    as (data & w' & Hrun & _ & Hdata & Hstore & _).
  exists data, w'. split; [exact Hrun|split; [exact Hdata|exact Hstore]].
Defined.

(** ** Snapshot and restart *)

(** X9.  A snapshot round trip loses no task and no finished download.  When
    a new process loads the document [writeSnapshot] wrote, and its queue
    has room for the jobs, it holds exactly the tasks that were stored, each
    with its id and creation time; every completed file is kept as it was,
    every other file is pending with its error cleared, and the queue holds
    exactly one job for each file that is not completed and none for a
    completed one. *)
Theorem snapshot_restart_round_trip w data w' entries size clk :
  wf w →
  writeSnapshot false false false false w = Returns (Some data) w' →
  entries ≡ₚ data →
  fits (NewManager size (boot clk)) (sentBy entries) →
  ∃ w1,
    restart size clk (Some entries) = Returns () w1 ∧
    (∀ id, stored w id = None → stored w1 id = None) ∧
    (∀ id t files, stored w id = Some (t, files) →
       ∃ t1, stored w1 id = Some (t1, resetFile <$> files) ∧
             Task.ID t1 = Task.ID t ∧ Task.CreatedAt t1 = Task.CreatedAt t ∧
             Task.Status t1 = "in‑progress" ∧ Task.UpdatedAt t1 = clk 0 ∧
             ∀ i f, files !! i = Some f →
               timesSent (mkJob id (Z.of_nat i)) (jobs w1) =
               if String.eqb (FileState.Status f) "completed" then 0 else 1).
Proof.
  intros Hwf Hwrite Hperm Hfits.
  destruct (writeSnapshot_encoded w Hwf) as (data0 & w0 & Hrun & Henc & _).
  rewrite (Hrun false false false false) in Hwrite. injection Hwrite as <- <-.
  destruct (encoded_entries w data0 Henc) as [Hnodup Hdata].
  assert (NoDup (fst <$> entries)) as Hnd by (by rewrite Hperm).
  assert (∀ id d, (id, d) ∈ entries ↔
                  ∃ t files, stored w id = Some (t, files) ∧ d = docOf t files) as Hent.
  { intros id d. rewrite Hperm. apply Hdata. }
  destruct (proj2 (LoadFromSnapshot_returns_iff entries (NewManager size (boot clk))) Hfits)
    as [w1 Hload].
  destruct (LoadFromSnapshot_returns entries _ w1 (NewManager_wf size clk) Hload)
    as (_ & Hjobs & _ & Hout & Hin).
  exists w1. split; [exact Hload|]. split.
  - intros id Hnone. rewrite Hout.
    + unfold stored. simpl. by rewrite lookup_empty.
    + intros Hk. apply list_elem_of_fmap in Hk as ([id' d] & -> & Hd). simpl in Hnone.
      apply Hent in Hd as (t & files & Hs & _). congruence.
  - intros id t files Hs.
    assert ((id, docOf t files) ∈ entries) as Hd by (apply Hent; eauto).
    destruct (Hin Hnd id _ Hd) as (a & Hs1). simpl in Hs1.
    eexists. split; [exact Hs1|]. split_and!; try done.
    intros i f Hi. simpl in Hjobs. rewrite Hjobs.
    rewrite (sentBy_count entries id (docOf t files) i Hnd Hd). simpl. by rewrite Hi.
Qed.

Lemma snapshot_restart_round_trip_witness :
  ∃ data w' w1 t1,
    writeSnapshot false false false false second_fails_world = Returns (Some data) w' ∧
    restart 100 clock0 (Some data) = Returns () w1 ∧
    stored w1 "t1" =
      Some (t1, [FileState.mk "https://x/a" "completed" "";
                 FileState.mk "https://x/b" "pending" "";
                 FileState.mk "https://x/c" "completed" ""]) ∧
    timesSent (mkJob "t1" 1) (jobs w1) = 1 ∧
    timesSent (mkJob "t1" 0) (jobs w1) = 0.
Proof.
  pose proof (reachable_wf _ second_fails_reachable) as Hwf.
  assert (∃ data w',
    writeSnapshot false false false false second_fails_world = Returns (Some data) w' ∧
    fits (NewManager 100 (boot clock0)) (sentBy data)) as (data & w' & Hrun & Hfits).
  { eexists _, _. split; [vm_compute; reflexivity|]. right. vm_compute. lia. }
  destruct (snapshot_restart_round_trip second_fails_world data w' data 100 clock0
              Hwf Hrun (reflexivity _) Hfits) as (w1 & Hload & _ & Hkept).
  destruct second_fails_stored as (t & Hs & _).
  destruct (Hkept "t1" _ _ Hs) as (t1 & Hs1 & _ & _ & _ & _ & Hsent).
  exists data, w', w1, t1. split; [done|]. split; [done|]. split; [done|]. split.
  - apply (Hsent 1 (FileState.mk "https://x/b" "error" "boom")). reflexivity.
  - apply (Hsent 0 (FileState.mk "https://x/a" "completed" "")). reflexivity.
Defined.

(** ** Characters of a string *)

Lemma occurs_append c a b : occurs c (a +:+ b) ↔ occurs c a ∨ occurs c b.
Proof.
  induction a as [|x a IH].
  - change ("" +:+ b) with b. simpl. tauto.
  - rewrite append_cons. simpl. rewrite IH. tauto.
Qed.

Lemma pretty_N_char_digit x : occurs (pretty_N_char x) "0123456789".
Proof. unfold pretty_N_char. repeat case_match; simpl; tauto. Qed.

Lemma pretty_N_go_digits x : ∀ s c,
  occurs c (pretty_N_go x s) → occurs c "0123456789" ∨ occurs c s.
Proof.
  induction (N.lt_wf_0 x) as [x _ IH]. intros s c.
  assert (x = 0 ∨ 0 < x)%N as [->|Hpos] by lia.
  - rewrite pretty_N_go_0. tauto.
  - rewrite pretty_N_go_step by done. intros Hc.
    apply IH in Hc; [|by apply N.div_lt].
    destruct Hc as [Hc|Hc]; [by left|].
    simpl in Hc. destruct Hc as [<-|Hc]; [|by right].
    left. apply pretty_N_char_digit.
Qed.

Lemma pretty_N_digits (x : N) c : occurs c (pretty x) → occurs c "0123456789".
Proof.
  unfold pretty, pretty_N. case_decide.
  - simpl. tauto.
  - intros Hc. apply pretty_N_go_digits in Hc as [Hc|Hc]; [done|by simpl in Hc].
Qed.

Lemma pretty_N_nonempty (x : N) : pretty x ≠ "".
Proof.
  unfold pretty, pretty_N. case_decide; [done|].
  assert (∀ y s, s ≠ "" → pretty_N_go y s ≠ "") as Hgo.
  { intros y. induction (N.lt_wf_0 y) as [y _ IH]. intros s Hs.
    assert (y = 0 ∨ 0 < y)%N as [->|Hpos] by lia; [by rewrite pretty_N_go_0|].
    rewrite pretty_N_go_step by done. apply IH; [by apply N.div_lt|done]. }
  rewrite pretty_N_go_step by lia. by apply Hgo.
Qed.

Lemma pretty_Z_chars (z : Z) c : occurs c (pretty z) → occurs c "-0123456789".
Proof.
  unfold pretty, pretty_Z. destruct z as [|p|p].
  - simpl. tauto.
  - intros Hc. apply (pretty_N_digits (Npos p)) in Hc. simpl in *. tauto.
  - rewrite occurs_append. intros [Hc|Hc]; [simpl in *; tauto|].
    apply (pretty_N_digits (Npos p)) in Hc. simpl in *. tauto.
Qed.

Lemma pretty_Z_nonempty (z : Z) : pretty z ≠ "".
Proof.
  unfold pretty, pretty_Z. destruct z as [|p|p]; [done|apply (pretty_N_nonempty (Npos p))|].
  rewrite append_cons. done.
Qed.

(** ** GenerateID *)

Lemma hexDigit_hextable i : occurs (hexDigit i) hextable.
Proof.
  unfold hexDigit, hextable.
  destruct (N.to_nat i) as [|[|[|[|[|[|[|[|[|[|[|[|[|[|[|[|n]]]]]]]]]]]]]]]];
    simpl; tauto.
Qed.

Lemma hex_EncodeToString_length src :
  String.length (hex_EncodeToString src) = 2 * length src.
Proof. induction src as [|v src IH]; simpl; [done|]. rewrite IH. lia. Qed.

Lemma hex_EncodeToString_chars src c :
  occurs c (hex_EncodeToString src) → occurs c hextable.
Proof.
  induction src as [|v src IH]; simpl; [done|].
  intros [<-|[<-|Hc]]; [apply hexDigit_hextable|apply hexDigit_hextable|by apply IH].
Qed.

Lemma hex_byte_inj (v1 v2 : Byte.byte) :
  hexDigit (N.shiftr (Byte.to_N v1) 4) = hexDigit (N.shiftr (Byte.to_N v2) 4) →
  hexDigit (N.land (Byte.to_N v1) 15) = hexDigit (N.land (Byte.to_N v2) 15) →
  v1 = v2.
Proof.
  intros Hhi Hlo.
  assert (∀ i j, (i < 16)%N → (j < 16)%N → hexDigit i = hexDigit j → i = j) as Hinj.
  { intros i j Hi Hj.
    assert (i = 0 ∨ i = 1 ∨ i = 2 ∨ i = 3 ∨ i = 4 ∨ i = 5 ∨ i = 6 ∨ i = 7 ∨ i = 8 ∨
            i = 9 ∨ i = 10 ∨ i = 11 ∨ i = 12 ∨ i = 13 ∨ i = 14 ∨ i = 15)%N as Hi' by lia.
    assert (j = 0 ∨ j = 1 ∨ j = 2 ∨ j = 3 ∨ j = 4 ∨ j = 5 ∨ j = 6 ∨ j = 7 ∨ j = 8 ∨
            j = 9 ∨ j = 10 ∨ j = 11 ∨ j = 12 ∨ j = 13 ∨ j = 14 ∨ j = 15)%N as Hj' by lia.
    clear Hi Hj.
    repeat (destruct Hi' as [->|Hi']); try subst i;
      repeat (destruct Hj' as [->|Hj']); try subst j;
      vm_compute; intros E; first [reflexivity|discriminate E]. }
  pose proof (Byte.to_N_bounded v1) as B1. pose proof (Byte.to_N_bounded v2) as B2.
  assert (Byte.to_N v1 = Byte.to_N v2) as Heq.
  { apply Hinj in Hhi, Hlo.
    - rewrite (N.div_mod (Byte.to_N v1) 16), (N.div_mod (Byte.to_N v2) 16) by done.
      rewrite !N.shiftr_div_pow2 in Hhi. change (2 ^ 4)%N with 16%N in Hhi.
      change 15%N with (N.ones 4) in Hlo. rewrite !N.land_ones in Hlo.
      change (2 ^ 4)%N with 16%N in Hlo. lia.
    - change 15%N with (N.ones 4). rewrite N.land_ones. by apply N.mod_lt.
    - change 15%N with (N.ones 4). rewrite N.land_ones. by apply N.mod_lt.
    - rewrite N.shiftr_div_pow2. change (2 ^ 4)%N with 16%N.
      apply N.Div0.div_lt_upper_bound. lia.
    - rewrite N.shiftr_div_pow2. change (2 ^ 4)%N with 16%N.
      apply N.Div0.div_lt_upper_bound. lia. }
  pose proof (Byte.of_to_N v1) as E1. pose proof (Byte.of_to_N v2) as E2.
  rewrite Heq in E1. congruence.
Qed.

Lemma hex_EncodeToString_inj src1 : ∀ src2,
  hex_EncodeToString src1 = hex_EncodeToString src2 → src1 = src2.
Proof.
  induction src1 as [|v1 src1 IH]; intros [|v2 src2]; simpl; try done.
  intros [= Hhi Hlo Hrest]. f_equal; [|by apply IH].
  by apply hex_byte_inj.
Qed.

(** X10.  An id made by [GenerateID] from 16 random bytes has 32 characters,
    all of them lower-case hexadecimal digits, and different random bytes
    give different ids.  Whether from random bytes or from the clock, the id
    is never empty and has no "/", so the path check of the get-task handler
    accepts it. *)
Theorem GenerateID_format random unixNano :
  (∀ b, random = Some b → length b = 16) →
  GenerateID random unixNano ≠ "" ∧
  ¬ occurs "/" (GenerateID random unixNano) ∧
  (∀ b, random = Some b →
     String.length (GenerateID random unixNano) = 32 ∧
     (∀ c, occurs c (GenerateID random unixNano) → occurs c hextable) ∧
     (∀ b' nano', GenerateID (Some b') nano' = GenerateID random unixNano → b' = b)).
Proof.
  intros Hlen. destruct random as [b|]; simpl.
  - specialize (Hlen b eq_refl). split_and!.
    + intros Hid. pose proof (hex_EncodeToString_length b) as Hl.
      rewrite Hid, Hlen in Hl. simpl in Hl. lia.
    + intros Hc. apply hex_EncodeToString_chars in Hc. unfold hextable in Hc.
      simpl in Hc. repeat (destruct Hc as [Hc|Hc]; [discriminate Hc|]). done.
    + intros b0 [= <-]. split_and!.
      * rewrite hex_EncodeToString_length. lia.
      * apply hex_EncodeToString_chars.
      * intros b' _. apply hex_EncodeToString_inj.
  - split_and!; [apply pretty_Z_nonempty| |done].
    intros Hc. apply pretty_Z_chars in Hc. simpl in Hc.
    repeat (destruct Hc as [Hc|Hc]; [discriminate Hc|]). done.
Qed.

Lemma GenerateID_format_witness :
  GenerateID (Some (replicate 16 Byte.xa7)) 0 ≠ "" ∧
  ¬ occurs "/" (GenerateID (Some (replicate 16 Byte.xa7)) 0) ∧
  String.length (GenerateID (Some (replicate 16 Byte.xa7)) 0) = 32.
Proof.
  destruct (GenerateID_format (Some (replicate 16 Byte.xa7)) 0) as (Hne & Hslash & Hhex).
  { by intros b [= <-]. }
  split; [exact Hne|split; [exact Hslash|]].
  by destruct (Hhex _ eq_refl) as [Hl _].
Defined.

(** ** The path of the get-task handler *)

Lemma strings_Split_tasks rest :
  strings_Split ("/tasks/" +:+ rest) "/" = "" :: "tasks" :: strings_Split rest "/".
Proof.
  change ("/tasks/" +:+ rest) with
    (String "/" (String "t" (String "a" (String "s" (String "k" (String "s"
       (String "/" rest))))))).
  reflexivity.
Qed.

Lemma strings_Split_length_cons s c x :
  x ≠ c → length (strings_Split (String x s) c) = length (strings_Split s c).
Proof.
  intros Hne. simpl. destruct (Ascii.eqb_spec x c) as [?|_]; [done|].
  pose proof (strings_Split_nonempty s c).
  by destruct (strings_Split s c).
Qed.

Lemma strings_Split_occurs s c :
  occurs c s → (2 ≤ length (strings_Split s c))%nat.
Proof.
  induction s as [|x s IH]; simpl; [done|].
  destruct (Ascii.eqb_spec x c) as [->|Hne].
  - intros _. pose proof (strings_Split_nonempty s c).
    destruct (strings_Split s c); [done|simpl; lia].
  - intros [?|Hc]; [done|]. specialize (IH Hc).
    pose proof (strings_Split_nonempty s c).
    destruct (strings_Split s c); [done|simpl in *; lia].
Qed.

Lemma countCompleted_filter files :
  countCompleted files =
  Z.of_nat (length (filter (λ f, FileState.Status f = "completed") files)).
Proof.
  unfold countCompleted.
  assert (∀ acc,
    foldl (λ completed f,
             if String.eqb (FileState.Status f) "completed"
             then (completed + 1)%Z else completed) acc files =
    (acc + Z.of_nat (length (filter (λ f, FileState.Status f = "completed") files)))%Z)
    as Hgen; [|by rewrite Hgen].
  induction files as [|f files IH]; intros acc; simpl; [lia|].
  rewrite IH. rewrite filter_cons.
  destruct (String.eqb_spec (FileState.Status f) "completed") as [Hc|Hc].
  - rewrite decide_True by done. simpl. lia.
  - rewrite decide_False by done. done.
Qed.

Lemma length_filter_all {A : Type} (P : A → Prop) `{∀ x, Decision (P x)} (l : list A) :
  length (filter P l) = length l ↔ Forall P l.
Proof.
  induction l as [|x l IH]; [by split|].
  rewrite filter_cons. pose proof (length_filter P l) as Hle.
  destruct (decide (P x)) as [Hx|Hx]; simpl.
  - rewrite Forall_cons. split.
    + intros [= Hl]. split; [done|by apply IH].
    + intros [_ Hl]. f_equal. by apply IH.
  - split; [lia|]. intros Hall. by apply Forall_cons in Hall as [? _].
Qed.

(** X11.  The get-task handler takes the id from a path "/tasks/<id>": an
    empty id and an id with a further "/" are answered with 400 "task id
    missing", and an id that is not in the store with 404; in all three
    cases nothing changes. *)
Theorem GetTaskHandler_rejects rest w :
  (rest = "" ∨ occurs "/" rest →
   NewGetTaskHandler ("/tasks/" +:+ rest) w =
     Returns (http_Error "task id missing" 400) w) ∧
  (rest ≠ "" → ¬ occurs "/" rest → tasks w !! rest = None →
   NewGetTaskHandler ("/tasks/" +:+ rest) w = Returns http_NotFound w).
Proof.
  unfold NewGetTaskHandler. rewrite strings_Split_tasks. split.
  - intros [->|Hc]; [done|].
    apply (strings_Split_occurs rest "/") in Hc.
    rewrite bool_decide_eq_true_2; [done|]. simpl. lia.
  - intros Hne Hc Hnone. rewrite strings_Split_no_sep by done. simpl.
    rewrite bool_decide_eq_false_2 by (by intros [= ?]).
    by rewrite GetTask_unknown.
Qed.

Lemma GetTaskHandler_rejects_witness :
  NewGetTaskHandler "/tasks/" three_submitted_world =
    Returns (http_Error "task id missing" 400) three_submitted_world ∧
  NewGetTaskHandler "/tasks/t1/files" three_submitted_world =
    Returns (http_Error "task id missing" 400) three_submitted_world ∧
  NewGetTaskHandler "/tasks/t9" three_submitted_world =
    Returns http_NotFound three_submitted_world.
Proof.
  split; [|split].
  - apply (GetTaskHandler_rejects "" three_submitted_world). by left.
  - apply (GetTaskHandler_rejects "t1/files" three_submitted_world). right.
    simpl. tauto.
  - apply (GetTaskHandler_rejects "t9" three_submitted_world); [done| |reflexivity].
    simpl. intros [H|[H|H]]; done.
Defined.

Lemma GetTaskHandler_found w id t files :
  wf w → stored w id = Some (t, files) → id ≠ "" → ¬ occurs "/" id →
  ∃ w',
    NewGetTaskHandler ("/tasks/" +:+ id) w =
      Returns (http_JSON 200
                 (GetResponse.mk (Task.ID t) (Task.Status t) (countCompleted files)
                    (Z.of_nat (length files)) files (Task.CreatedAt t)
                    (Task.UpdatedAt t))) w' ∧
    (∀ id', stored w' id' = stored w id').
Proof.
  intros Hwf Hs Hne Hc. apply stored_Some in Hs as (p & Hp & Ht & Hf).
  pose proof (GetTask_known id w p t files Hp Ht Hf) as Hget.
  unfold NewGetTaskHandler. rewrite strings_Split_tasks.
  rewrite strings_Split_no_sep by done. simpl.
  rewrite bool_decide_eq_false_2 by (by intros [= ?]).
  rewrite Hget, bind_Returns. unfold deref. simpl.
  rewrite lookup_insert_eq. simpl. rewrite lookup_insert_eq.
  eexists. split; [reflexivity|].
  intros id'. by apply (GetTask_stored id w _ _ id' Hwf Hget).
Qed.

(** X12.  For a stored task the get-task handler answers 200 with the
    task's id, status, times and files as stored; [total] is the number of
    files, [completed] the number of files whose status is "completed", so
    that [0 ≤ completed ≤ total], with equality exactly when every file is
    completed.  The store is not changed. *)
Theorem GetTaskHandler_reports w id t files :
  wf w → stored w id = Some (t, files) → id ≠ "" → ¬ occurs "/" id →
  ∃ w' r,
    NewGetTaskHandler ("/tasks/" +:+ id) w = Returns (http_JSON 200 r) w' ∧
    GetResponse.ID r = Task.ID t ∧ GetResponse.Status r = Task.Status t ∧
    GetResponse.Files r = files ∧
    GetResponse.CreatedAt r = Task.CreatedAt t ∧
    GetResponse.UpdatedAt r = Task.UpdatedAt t ∧
    GetResponse.Total r = Z.of_nat (length files) ∧
    GetResponse.Completed r =
      Z.of_nat (length (filter (λ f, FileState.Status f = "completed") files)) ∧
    (0 ≤ GetResponse.Completed r ≤ GetResponse.Total r)%Z ∧
    (GetResponse.Completed r = GetResponse.Total r ↔
     Forall (λ f, FileState.Status f = "completed") files) ∧
    (∀ id', stored w' id' = stored w id').
Proof.
  intros Hwf Hs Hne Hc.
  destruct (GetTaskHandler_found w id t files Hwf Hs Hne Hc) as (w' & Hrun & Hstore).
  eexists _, _. split; [exact Hrun|]. simpl.
  pose proof (length_filter (λ f, FileState.Status f = "completed") files) as Hle.
  split_and!; try done.
  - apply countCompleted_filter.
  - rewrite countCompleted_filter. lia.
  - rewrite countCompleted_filter. lia.
  - rewrite countCompleted_filter, Nat2Z.inj_iff. apply length_filter_all.
Qed.

Lemma GetTaskHandler_reports_witness :
  ∃ w' r,
    NewGetTaskHandler "/tasks/t1" second_fails_world = Returns (http_JSON 200 r) w' ∧
    GetResponse.Status r = "in‑progress" ∧
    GetResponse.Total r = 3%Z ∧ GetResponse.Completed r = 2%Z.
Proof.
  destruct second_fails_stored as (t & Hs & Hst).
  destruct (GetTaskHandler_reports second_fails_world "t1" _ _
              (reachable_wf _ second_fails_reachable) Hs)
    as (w' & r & Hrun & _ & Hstatus & _ & _ & _ & Htotal & Hcompleted & _);
    [done|simpl; intros [H|[H|H]]; done|].
  exists w', r. split; [exact Hrun|]. split; [congruence|]. split; [exact Htotal|].
  exact Hcompleted.
Defined.

(** ** The create-task handler *)

(** X13.  The create-task handler changes nothing unless it accepts the
    request: any method but POST is answered with 405, a body that does not
    decode with 400 "invalid JSON" and a list without a non-blank URL with
    400 and the error of [AddTask], each time with the manager untouched.
    An accepted request is answered with 202, the id of the new task and the
    status read from it, which is "pending" when the handler runs without a
    worker in between, and the task is stored with one pending file per
    cleaned URL. *)
Theorem CreateTaskHandler_replies (strings_TrimSpace : string → string)
    (method : string) (body : option (list string)) (id : string) (w : World) :
  (method ≠ "POST" →
   NewCreateTaskHandler strings_TrimSpace method body id w =
     Returns (http_Error "method not allowed" 405) w) ∧
  (method = "POST" → body = None →
   NewCreateTaskHandler strings_TrimSpace method body id w =
     Returns (http_Error "invalid JSON" 400) w) ∧
  (∀ urls, method = "POST" → body = Some urls →
     filter (λ s, s ≠ "") (strings_TrimSpace <$> urls) = [] →
     NewCreateTaskHandler strings_TrimSpace method body id w =
       Returns (http_Error "task must contain at least one URL" 400) w) ∧
  (∀ urls, method = "POST" → body = Some urls →
     filter (λ s, s ≠ "") (strings_TrimSpace <$> urls) ≠ [] →
     (draining w = true ∨
      (length (jobs w) + length (filter (λ s, s ≠ "") (strings_TrimSpace <$> urls))
       ≤ queueSize w)%nat) →
     ∃ w' t,
       NewCreateTaskHandler strings_TrimSpace method body id w =
         Returns (http_JSON 202 (CreateResponse.mk id "pending")) w' ∧
       stored w' id =
         Some (t, pendingFiles (filter (λ s, s ≠ "") (strings_TrimSpace <$> urls)))).
Proof.
  unfold NewCreateTaskHandler, createTask. split_and!.
  - intros Hm. by rewrite bool_decide_eq_true_2.
  - intros -> ->. by rewrite bool_decide_eq_false_2 by (by intros ?).
  - intros urls -> -> Hclean. rewrite bool_decide_eq_false_2 by (by intros ?).
    rewrite cleanURLs_filter, Hclean. done.
  - intros urls -> -> Hclean Hroom. rewrite bool_decide_eq_false_2 by (by intros ?).
    rewrite cleanURLs_filter.
    destruct (AddTask_nonempty id _ w Hclean) as (t & a & w' & _ & Hreg & Hret).
    destruct (Hret Hroom) as [-> _]. rewrite bind_Returns.
    destruct Hreg as (Ht & task & Hobj & Hid & Hfiles & Hst & _ & Harr).
    rewrite Hobj, Hid, Hst. exists w', task. split; [done|].
    unfold stored, deref. by rewrite Ht, Hobj, Hfiles, Harr.
Qed.

Lemma CreateTaskHandler_replies_witness :
  NewCreateTaskHandler trimSpace_ascii "GET" (Some ["https://x/a"]) "t1" fresh_manager =
    Returns (http_Error "method not allowed" 405) fresh_manager ∧
  NewCreateTaskHandler trimSpace_ascii "POST" (Some ["  "; ""]) "t1" fresh_manager =
    Returns (http_Error "task must contain at least one URL" 400) fresh_manager ∧
  ∃ w' t,
    NewCreateTaskHandler trimSpace_ascii "POST" (Some [" https://x/a "; " "]) "t1"
                         fresh_manager =
      Returns (http_JSON 202 (CreateResponse.mk "t1" "pending")) w' ∧
    stored w' "t1" = Some (t, [FileState.mk "https://x/a" "pending" ""]).
Proof.
  split; [|split].
  - by apply (CreateTaskHandler_replies trimSpace_ascii "GET").
  - destruct (CreateTaskHandler_replies trimSpace_ascii "POST" (Some ["  "; ""]) "t1"
                fresh_manager) as (_ & _ & Hempty & _).
    by apply (Hempty ["  "; ""]).
  - destruct (CreateTaskHandler_replies trimSpace_ascii "POST"
                (Some [" https://x/a "; " "]) "t1" fresh_manager) as (_ & _ & _ & Hok).
    apply (Hok [" https://x/a "; " "]); [done|done|discriminate|].
    right. vm_compute. lia.
Defined.

(** ** The pointer AddTask returns *)

(** X14.  [AddTask] hands out the struct it has stored, not a copy: the
    pointer it returns is the one in the map, so what its caller writes
    through it is what the manager reads afterwards. *)
Theorem AddTask_returns_stored_struct id urls w t w' :
  AddTask id urls w = Returns (inl t) w' →
  tasks w' !! id = Some t ∧
  ∀ t2 files2, ∃ a,
    stored (caller_writes t t2 files2 w') id = Some (Task.set_Files a t2, files2).
Proof.
  intros Hret.
  assert (urls ≠ []) as Hurls.
  { intros ->. unfold AddTask in Hret. simpl in Hret. discriminate. }
  destruct (AddTask_nonempty id urls w Hurls) as (t0 & a & w0 & Hcase & Hreg & _).
  destruct Hcase as [Hr|[Hb _]]; [|congruence].
  rewrite Hret in Hr. injection Hr as <- <-.
  destruct Hreg as (Ht & task & Hobj & _). split; [done|].
  intros t2 files2. exists (Task.Files task).
  pose proof (caller_writes_overwrites t task t2 files2 w' Hobj) as Hov.
  pose proof Hov as (_ & _ & _ & Htasks & _).
  unfold stored. rewrite Htasks, Ht. by apply (overwrites_deref w').
Qed.

Lemma AddTask_returns_stored_struct_witness :
  ∃ t w',
    AddTask "t1" ["https://x/a"] fresh_manager = Returns (inl t) w' ∧
    tasks w' !! "t1" = Some t ∧
    ∃ a, stored (caller_writes t (Task.mk "zz" 1%positive "completed" 0%Z 0%Z) [] w') "t1" =
         Some (Task.set_Files a (Task.mk "zz" 1%positive "completed" 0%Z 0%Z), []).
Proof.
  assert (∃ t w', AddTask "t1" ["https://x/a"] fresh_manager = Returns (inl t) w')
    as (t & w' & Hret) by (eexists _, _; vm_compute; reflexivity).
  destruct (AddTask_returns_stored_struct "t1" _ fresh_manager t w' Hret) as [Ht Hw].
  exists t, w'. split; [exact Hret|]. split; [exact Ht|]. apply Hw.
Defined.

(** ** The room recovery needs *)

Lemma requeued_length id files : ∀ start,
  length (requeued id start files) =
  length (filter (λ f, FileState.Status f ≠ "completed") files).
Proof.
  induction files as [|f files IH]; intros start; simpl; [done|].
  rewrite filter_cons.
  destruct (String.eqb_spec (FileState.Status f) "completed") as [Hc|Hc].
  - rewrite decide_False by (by intros ?). apply IH.
  - rewrite decide_True by done. simpl. by rewrite IH.
Qed.

Lemma sentBy_length entries : length (sentBy entries) = unfinished entries.
Proof.
  unfold sentBy, unfinished. induction entries as [|e entries IH]; simpl; [done|].
  by rewrite length_app, IH, requeued_length.
Qed.

(** X15.  [LoadFromSnapshot] sends one job for every file of the snapshot
    that is not completed.  It returns, with these jobs behind the ones
    already queued, exactly when there is no such file or the channel has
    room for all of them; with more such files than free places it waits on
    the channel for ever, since no worker runs yet. *)
Theorem LoadFromSnapshot_needs_room entries w :
  length (sentBy entries) = unfinished entries ∧
  (unfinished entries = 0 ∨ (length (jobs w) + unfinished entries ≤ queueSize w)%nat →
   ∃ w', LoadFromSnapshot (Some entries) w = Returns () w' ∧
         jobs w' = jobs w ++ sentBy entries) ∧
  (0 < unfinished entries → queueSize w < length (jobs w) + unfinished entries →
   ∃ wb, LoadFromSnapshot (Some entries) w = Blocks wb).
Proof.
  pose proof (sentBy_length entries) as Hlen.
  destruct (LoadFromSnapshot_layout entries w) as (l & _ & _ & _ & _ & Hfits & Hblocks).
  split; [done|]. split.
  - intros Hroom.
    destruct Hfits as (w' & Hret & _ & _ & _ & _ & Hjobs & _).
    { destruct Hroom as [H0|Hle].
      - left. rewrite <- Hlen in H0. by destruct (sentBy entries).
      - right. by rewrite Hlen. }
    by exists w'.
  - intros Hpos Hfull. apply Hblocks. intros [Hnil|Hle].
    + rewrite Hnil in Hlen. simpl in Hlen. lia.
    + rewrite Hlen in Hle. lia.
Qed.

Lemma LoadFromSnapshot_needs_room_witness :
  (∃ w', LoadFromSnapshot (Some failed_snapshot) fresh_manager = Returns () w' ∧
         jobs w' = jobs fresh_manager ++ sentBy failed_snapshot) ∧
  (∃ wb, LoadFromSnapshot (Some large_snapshot) fresh_manager = Blocks wb).
Proof.
  split.
  - apply (LoadFromSnapshot_needs_room failed_snapshot fresh_manager).
    right. vm_compute. lia.
  - apply (LoadFromSnapshot_needs_room large_snapshot fresh_manager).
    + vm_compute. lia.
    + vm_compute. lia.
Defined.

(** ** The page and the stored status *)

(** X16.  The page stops polling a task only when the status it is sent is
    "completed": of the three statuses its test names, the manager never
    stores "completed_with_errors" or "error".  When polling stops, every
    file of the reply is completed and [completed] equals [total]; a task
    with a file that is not completed, failed ones included, is polled
    again. *)
Theorem page_polls_until_completed w id t files :
  reachable w → stored w id = Some (t, files) → id ≠ "" → ¬ occurs "/" id →
  ∃ w' r,
    NewGetTaskHandler ("/tasks/" +:+ id) w = Returns (http_JSON 200 r) w' ∧
    GetResponse.Files r = files ∧
    (pollingStops (GetResponse.Status r) = true ↔ GetResponse.Status r = "completed") ∧
    (pollingStops (GetResponse.Status r) = true →
     Forall (λ f, FileState.Status f = "completed") (GetResponse.Files r) ∧
     GetResponse.Completed r = GetResponse.Total r) ∧
    ((∃ f, f ∈ files ∧ FileState.Status f ≠ "completed") →
     pollingStops (GetResponse.Status r) = false).
Proof.
  intros Hr Hs Hne Hc. pose proof (reachable_wf w Hr) as Hwf.
  destruct (GetTaskHandler_found w id t files Hwf Hs Hne Hc) as (w' & Hrun & _).
  destruct (reachable_status_sound w Hr id t files Hs) as [Hin Hall].
  eexists _, _. split; [exact Hrun|]. simpl.
  assert (pollingStops (Task.Status t) = true ↔ Task.Status t = "completed") as Hstop.
  { unfold assignedStatuses in Hin. rewrite !elem_of_cons in Hin.
    destruct Hin as [->|[->|[->|Hin]]]; [done|done|done|by apply elem_of_nil in Hin]. }
  split_and!; try done.
  - intros Hp. apply Hstop in Hp. specialize (Hall Hp). split; [done|].
    rewrite countCompleted_filter, Nat2Z.inj_iff. by apply length_filter_all.
  - intros (f & Hf & Hnc). destruct (pollingStops (Task.Status t)) eqn:Hp; [|done].
    exfalso. apply Hnc. specialize (Hall (proj1 Hstop eq_refl)).
    rewrite Forall_forall in Hall. by apply Hall.
Qed.

Lemma page_polls_until_completed_witness :
  ∃ w' r,
    NewGetTaskHandler "/tasks/t1" first_started_world = Returns (http_JSON 200 r) w' ∧
    pollingStops (GetResponse.Status r) = false.
Proof.
  destruct (page_polls_until_completed first_started_world "t1" _ _
              first_started_reachable first_started_stored)
    as (w' & r & Hrun & _ & _ & _ & Hagain);
    [done|simpl; intros [H|[H|H]]; done|].
  exists w', r. split; [exact Hrun|]. apply Hagain.
  exists (FileState.mk "https://x/b" "pending" ""). split; [|done].
  by apply (list_elem_of_lookup_2 _ 1).
Defined.

(** ** DownloadWithContext *)

Lemma length_append (a b : string) :
  String.length (a +:+ b) = String.length a + String.length b.
Proof.
  induction a as [|x a IH]; [done|]. rewrite append_cons. simpl. by rewrite IH.
Qed.

Lemma part_ne dest : dest +:+ ".part" ≠ dest.
Proof.
  intros Heq. pose proof (length_append dest ".part") as Hl.
  rewrite Heq in Hl. simpl in Hl. lia.
Qed.

(** X17.  [DownloadWithContext] publishes a file in one step or not at all.
    When it returns an error the destination is as it was before the call;
    a reply outside 2xx is an error and writes nothing.  When it returns nil
    the reply was 2xx, the destination holds the whole body and the
    temporary file is gone.  No file other than the destination and its
    ".part" neighbour is ever touched. *)
Theorem DownloadWithContext_atomic env dest fs :
  let err := (DownloadWithContext env dest fs).1 in
  let fs' := (DownloadWithContext env dest fs).2 in
  (∀ path, path ≠ dest → path ≠ dest +:+ ".part" → fs' !! path = fs !! path) ∧
  (err ≠ None → fs' !! dest = fs !! dest) ∧
  (err = None →
   ∃ resp, doResult env = inr resp ∧
           (200 ≤ Response.StatusCode resp < 300)%Z ∧
           fs' !! dest = Some (Response.Body resp) ∧
           fs' !! (dest +:+ ".part") = None) ∧
  (∀ resp, newRequestErr env = None → doResult env = inr resp →
           ¬ (200 ≤ Response.StatusCode resp < 300)%Z →
           err ≠ None ∧ fs' = fs).
Proof.
  pose proof (part_ne dest) as Hpart. unfold DownloadWithContext.
  destruct (newRequestErr env) as [e0|]; [simpl; split_and!; done|].
  destruct (doResult env) as [e1|resp]; [simpl; split_and!; done|].
  destruct ((Response.StatusCode resp <? 200)%Z || (300 <=? Response.StatusCode resp)%Z)
    eqn:Hcode; [simpl; split_and!; done|].
  assert (200 ≤ Response.StatusCode resp < 300)%Z as Hrange.
  { apply orb_false_iff in Hcode as [H1 H2]. lia. }
  assert (∀ r : Response.t, inr resp = @inr string _ r →
            ¬ (200 ≤ Response.StatusCode r < 300)%Z → False) as Hok.
  { by intros r [= <-]. }
  destruct (createErr env) as [e2|].
  { simpl. split_and!; done. }
  destruct (copyErr env) as [[e3 n]|].
  { simpl. split_and!; try done;
      first [by (intros r _ Hr Hn; destruct (Hok r Hr Hn))
            |intros; by rewrite !lookup_insert_ne]. }
  destruct (syncErr env) as [e4|].
  { simpl. split_and!; try done;
      first [by (intros r _ Hr Hn; destruct (Hok r Hr Hn))
            |intros; by rewrite !lookup_insert_ne]. }
  destruct (closeErr env) as [e5|].
  { simpl. split_and!; try done;
      first [by (intros r _ Hr Hn; destruct (Hok r Hr Hn))
            |intros; by rewrite !lookup_insert_ne]. }
  destruct (renameErr env) as [e6|].
  { simpl. split_and!; try done;
      first [by (intros r _ Hr Hn; destruct (Hok r Hr Hn))
            |intros; by rewrite !lookup_insert_ne]. }
  simpl. split_and!; try done; [| |intros r _ Hr Hn; destruct (Hok r Hr Hn)].
  - intros path H1 H2.
    rewrite lookup_insert_ne, lookup_delete_ne, !lookup_insert_ne by done. done.
  - intros _. exists resp. split_and!; try done; try lia.
    + by rewrite lookup_insert_eq.
    + rewrite lookup_insert_ne by done. by rewrite lookup_delete_eq.
Qed.

(** ** DeriveFileName: the shape of the name *)

Lemma fallbackName_element index :
  fallbackName index ≠ "" ∧ ¬ occurs "/" (fallbackName index) ∧
  ¬ occurs "?" (fallbackName index).
Proof.
  unfold fallbackName. split_and!.
  - by rewrite append_cons.
  - rewrite occurs_append. intros [Hc|Hc].
    + simpl in Hc. repeat (destruct Hc as [Hc|Hc]; [discriminate Hc|]). done.
    + apply pretty_Z_chars in Hc. simpl in Hc.
      repeat (destruct Hc as [Hc|Hc]; [discriminate Hc|]). done.
  - rewrite occurs_append. intros [Hc|Hc].
    + simpl in Hc. repeat (destruct Hc as [Hc|Hc]; [discriminate Hc|]). done.
    + apply pretty_Z_chars in Hc. simpl in Hc.
      repeat (destruct Hc as [Hc|Hc]; [discriminate Hc|]). done.
Qed.

Lemma DeriveFileName_segment (url_Parse : string → option URL)
    (rawURL : string) (index : Z) u seg :
  url_Parse rawURL = Some u → lastSegment (Path u) seg → seg ≠ "" →
  ¬ occurs "?" seg → DeriveFileName url_Parse rawURL index = seg.
Proof.
  intros Hu Hseg Hne Hq. apply lastSegment_unique in Hseg.
  assert (Path u ≠ "" ∧ Path u ≠ "/") as [H1 H2].
  { split; intros Hp; rewrite Hp in Hseg; by subst seg. }
  unfold DeriveFileName. rewrite Hu.
  rewrite bool_decide_eq_false_2 by done.
  rewrite bool_decide_eq_false_2 by done. simpl. rewrite <- Hseg.
  assert (strings_Index seg "?" = (-1)%Z) as ->.
  { destruct (decide (strings_Index seg "?" = (-1)%Z)) as [|Hi]; [done|].
    destruct (strings_Index_present seg "?" Hi) as [_ (rest & Hrest)].
    exfalso. apply Hq. rewrite Hrest, occurs_append. right. simpl. by left. }
  repeat case_bool_decide; done.
Qed.

(** X18.  The name [DeriveFileName] returns is never empty and contains
    neither "/" nor "?", whatever the URL and whatever [url.Parse] makes of
    it.  It is not always the name of a file: for a path whose last segment
    is ".." or "." the name is that segment. *)
Theorem DeriveFileName_no_separator (url_Parse : string → option URL)
    (rawURL : string) (index : Z) :
  (DeriveFileName url_Parse rawURL index ≠ "" ∧
   ¬ occurs "/" (DeriveFileName url_Parse rawURL index) ∧
   ¬ occurs "?" (DeriveFileName url_Parse rawURL index)) ∧
  (∀ u dots, url_Parse rawURL = Some u → lastSegment (Path u) dots →
             dots = ".." ∨ dots = "." →
             DeriveFileName url_Parse rawURL index = dots).
Proof.
  split.
  - unfold DeriveFileName.
    destruct (url_Parse rawURL) as [u|]; [|apply fallbackName_element].
    destruct (bool_decide (Path u = "") || bool_decide (Path u = "/"));
      [apply fallbackName_element|].
    set (seg := List.last (strings_Split (Path u) "/") "").
    pose proof (strings_Split_lastSegment (Path u)) as [Hseg _]. fold seg in Hseg.
    pose proof (strings_Index_queryStripped seg) as [Hq Hname].
    set (name := if bool_decide (strings_Index seg "?" ≠ (-1)%Z)
                 then String.substring 0 (Z.to_nat (strings_Index seg "?")) seg
                 else seg) in *.
    destruct (bool_decide (name = "")) eqn:Hempty; [apply fallbackName_element|].
    apply bool_decide_eq_false in Hempty.
    clearbody name. clearbody seg.
    split_and!; [done| |done].
    intros Hc. apply Hseg. destruct Hname as [->|(query & ->)]; [done|].
    rewrite occurs_append. by left.
  - intros u dots Hu Hseg Hdots.
    apply (DeriveFileName_segment url_Parse rawURL index u dots Hu Hseg).
    + by destruct Hdots as [->| ->].
    + destruct Hdots as [->| ->]; simpl; intros H;
        repeat (destruct H as [H|H]; [discriminate H|]); done.
Qed.

Lemma DeriveFileName_no_separator_witness :
  DeriveFileName url_Parse_simple "https://x/a/.." 3 = "..".
Proof.
  destruct (DeriveFileName_no_separator url_Parse_simple "https://x/a/.." 3) as [_ Hdots].
  apply (Hdots (mkURL "/a/..") ".."); [reflexivity| |by left].
  split; [simpl; intros H; repeat (destruct H as [H|H]; [discriminate H|]); done|].
  right. by exists "/a".
Defined.

(** ** The labels of the page *)

(** X19.  The page never shows its label for a running download.  Its
    [translateStatus] knows "in-progress" with the ASCII hyphen only, and no
    status the manager stores is spelled so: a task that is "in‑progress" is
    labelled with the raw status, and for no stored task or file status the
    label is "в процессе". *)
Theorem page_labels w id t files :
  reachable w → stored w id = Some (t, files) →
  translateStatus (Task.Status t) ≠ "в процессе" ∧
  (Task.Status t = "in‑progress" → translateStatus (Task.Status t) = "in‑progress") ∧
  Forall (λ f, translateStatus (FileState.Status f) ≠ "в процессе") files.
Proof.
  intros Hr Hs.
  destruct (reachable_status_sound w Hr id t files Hs) as [Hin _].
  destruct (reachable_store_ok w Hr id t files Hs) as [_ Hfiles].
  split_and!.
  - unfold assignedStatuses in Hin. rewrite !elem_of_cons in Hin.
    destruct Hin as [->|[->|[->|Hin]]]; [done|done|done|by apply elem_of_nil in Hin].
  - by intros ->.
  - eapply Forall_impl; [exact Hfiles|]. intros f Hf. simpl in Hf.
    unfold fileStatuses in Hf. rewrite !elem_of_cons in Hf.
    destruct Hf as [->|[->|[->|[->|Hf]]]]; [done|done|done|done|by apply elem_of_nil in Hf].
Qed.

Lemma page_labels_witness :
  translateStatus "in‑progress" ≠ "в процессе" ∧
  translateStatus "in‑progress" = "in‑progress".
Proof.
  destruct (page_labels first_started_world "t1" _ _
              first_started_reachable first_started_stored) as (Hne & Heq & _).
  split; [exact Hne|]. by apply Heq.
Defined.

(** ** The send under the mutex *)

Lemma run_app s1 : ∀ s2 c,
  run (s1 ++ s2) c = match run s1 c with Some c' => run s2 c' | None => None end.
Proof.
  induction s1 as [|a s1 IH]; intros s2 c; simpl; [done|].
  destruct (exec a c); [apply IH|done].
Qed.

(** No action is possible once a send is parked on the full channel with
    no worker in its [select]. *)
Lemma parked_stuck c job :
  cfg_sender c = Some job →
  (queueSize (cfg_world c) ≤ length (jobs (cfg_world c)))%nat →
  Forall (λ g, g ≠ AtSelect) (cfg_workers c) →
  ∀ a, exec a c = None.
Proof.
  intros Hsender Hfull Hworkers a. destruct a; simpl; rewrite ?Hsender; try done.
  - destruct (cfg_workers c !! i) as [g|] eqn:Hi; [|done].
    rewrite Forall_lookup in Hworkers. specialize (Hworkers i g Hi).
    by destruct g.
  - unfold send. rewrite decide_False by lia. done.
Qed.

Lemma registered_set_jobs id t a now urls js w :
  registered id t a now urls w → registered id t a now urls (set_jobs js w).
Proof. done. Qed.

Lemma run_enqueue id t a now urls : ∀ k i r c,
  registered id t a now urls (cfg_world c) → cfg_sender c = None →
  cfg_pending c = (λ j, (id, Z.of_nat j)) <$> seq i r →
  (k ≤ r)%nat → (i + r ≤ length urls)%nat →
  (length (jobs (cfg_world c)) + k ≤ queueSize (cfg_world c))%nat →
  ∃ c',
    run (replicate k act_enqueue) c = Some c' ∧
    registered id t a now urls (cfg_world c') ∧ cfg_sender c' = None ∧
    cfg_workers c' = cfg_workers c ∧
    cfg_pending c' = (λ j, (id, Z.of_nat j)) <$> seq (i + k) (r - k) ∧
    jobs (cfg_world c') =
      jobs (cfg_world c) ++ ((λ j, mkJob id (Z.of_nat j)) <$> seq i k) ∧
    queueSize (cfg_world c') = queueSize (cfg_world c).
Proof.
  induction k as [|k IH]; intros i r c Hreg Hs Hp Hk Hr Hroom.
  - exists c. simpl. rewrite Nat.add_0_r, Nat.sub_0_r, app_nil_r. done.
  - destruct r as [|r]; [lia|]. simpl in Hp.
    destruct (enqueueJob_registered id t a now urls i (cfg_world c) Hreg)
      as (w1 & Hreg1 & Hj1 & Hq1 & Henq); [lia|].
    assert (send (mkJob id (Z.of_nat i)) w1 =
            Returns () (set_jobs (jobs w1 ++ [mkJob id (Z.of_nat i)]) w1)) as Hsend.
    { unfold send. rewrite decide_True; [done|]. rewrite Hj1, Hq1. lia. }
    destruct (IH (S i) r
                (mkConfig (set_jobs (jobs w1 ++ [mkJob id (Z.of_nat i)]) w1)
                          (cfg_workers c) None
                          ((λ j, (id, Z.of_nat j)) <$> seq (S i) r)))
      as (c' & Hrun & Hreg' & Hs' & Hw' & Hp' & Hj' & Hq'); simpl; try done; try lia.
    { rewrite length_app, Hj1, Hq1. simpl. lia. }
    exists c'. simpl. rewrite Hs, Hp, Henq, Hsend.
    split; [exact Hrun|]. split_and!; try done.
    + rewrite Hp'. f_equal. f_equal. lia.
    + rewrite Hj'. simpl. rewrite Hj1, <- app_assoc. done.
    + rewrite Hq'. simpl. done.
Qed.

Lemma run_receive : ∀ js done rest c,
  cfg_workers c = done ++ replicate (length js) AtSelect →
  jobs (cfg_world c) = js ++ rest →
  ∃ c',
    run (act_receive <$> seq (length done) (length js)) c = Some c' ∧
    cfg_workers c' = done ++ (AtLock <$> js) ∧
    cfg_world c' = set_jobs rest (cfg_world c) ∧
    cfg_sender c' = cfg_sender c ∧ cfg_pending c' = cfg_pending c.
Proof.
  induction js as [|job js IH]; intros done rest c Hw Hj.
  - exists c. simpl in *. rewrite app_nil_r in Hw. split_and!; try done.
    + by rewrite app_nil_r.
    + rewrite <- Hj. unfold set_jobs. by rewrite World_eta.
  - simpl in Hw, Hj.
    destruct (IH (done ++ [AtLock job]) rest
                (mkConfig (set_jobs (js ++ rest) (cfg_world c))
                          (<[length done := AtLock job]> (cfg_workers c))
                          (cfg_sender c) (cfg_pending c)))
      as (c' & Hrun & Hw' & Hwd' & Hs' & Hp').
    { simpl. rewrite Hw, insert_app_r_alt by lia. rewrite Nat.sub_diag. simpl.
      by rewrite <- app_assoc. }
    { done. }
    exists c'. simpl. rewrite Hw. rewrite list_lookup_middle by done.
    unfold receive. rewrite Hj. rewrite <- Hw.
    rewrite length_app in Hrun. simpl in Hrun. rewrite Nat.add_1_r in Hrun.
    split; [exact Hrun|]. rewrite Hw', <- app_assoc. split_and!; done.
Qed.

(** X20.  [enqueueJob] sends on the channel while it holds the mutex, and
    this can stop the whole manager.  When a task has more files than there
    are workers and places in the channel together, [AddTask] can overtake
    the workers: each worker has received a job and is about to lock the
    mutex, the channel is full, and [enqueueJob] is parked on its send with
    the mutex held.  From then on nothing can happen: no worker can enter
    or leave [processJob], none is left to receive, [AddTask] never returns
    and no [GetTask] is answered. *)
Theorem enqueueJob_send_under_lock_deadlocks n size id urls w :
  jobs w = [] → draining w = false → queueSize w = size →
  (n ≤ size)%nat → (n + size < length urls)%nat →
  ∃ c job,
    run (overtaking n size) (submitted n id urls w) = Some c ∧
    cfg_sender c = Some job ∧
    length (jobs (cfg_world c)) = size ∧
    length (cfg_workers c) = n ∧
    Forall (λ g, ∃ j, g = AtLock j) (cfg_workers c) ∧
    (∀ a, exec a c = None).
Proof.
  intros Hjobs Hdr Hsize Hn Hlen.
  pose proof (registerTask_registered id urls w) as Hreg.
  assert (jobs (registerTask id urls w).2 = [] ∧
          queueSize (registerTask id urls w).2 = size) as [Hj0 Hq0].
  { rewrite registerTask_eq. simpl. done. }
  unfold submitted. revert Hreg Hj0 Hq0.
  generalize (registerTask id urls w).2 (fresh (dom (taskObjs w)))
             (fresh (dom (fileArrays w))) (clock w (ticks w)).
  intros w1 t a now Hreg Hj0 Hq0.
  unfold overtaking. rewrite run_app.
  (* the first [n] jobs *)
  destruct (run_enqueue id t a now urls n 0 (length urls)
              (mkConfig w1 (replicate n AtSelect) None
                        ((λ i, (id, Z.of_nat i)) <$> seq 0 (length urls))))
    as (c1 & Hrun1 & Hreg1 & Hs1 & Hw1 & Hp1 & Hj1 & Hq1); simpl; try done; try lia.
  { rewrite Hj0, Hq0. simpl. lia. }
  rewrite Hrun1. simpl in Hw1, Hj1, Hq1, Hp1. rewrite Hj0 in Hj1. simpl in Hj1.
  (* every worker takes one *)
  destruct (run_receive ((λ j, mkJob id (Z.of_nat j)) <$> seq 0 n) [] [] c1)
    as (c2 & Hrun2 & Hw2 & Hwd2 & Hs2 & Hp2).
  { rewrite Hw1, length_fmap, length_seq. done. }
  { by rewrite Hj1, app_nil_r. }
  rewrite length_fmap, length_seq in Hrun2. simpl in Hrun2. rewrite run_app, Hrun2.
  (* the channel is filled *)
  destruct (run_enqueue id t a now urls size n (length urls - n) c2)
    as (c3 & Hrun3 & Hreg3 & Hs3 & Hw3 & Hp3 & Hj3 & Hq3); try lia.
  { rewrite Hwd2. by apply registered_set_jobs. }
  { congruence. }
  { by rewrite Hp2, Hp1. }
  { rewrite Hwd2. simpl. lia. }
  rewrite run_app, Hrun3. rewrite Hwd2 in Hj3, Hq3. simpl in Hj3, Hq3.
  (* one call more *)
  destruct (length urls - n - size) as [|r] eqn:Hr; [lia|]. simpl in Hp3.
  destruct (enqueueJob_registered id t a now urls (n + size) (cfg_world c3) Hreg3)
    as (w4 & Hreg4 & Hj4 & Hq4 & Henq); [lia|].
  assert (send (mkJob id (Z.of_nat (n + size))) w4 = Blocks w4) as Hsend.
  { unfold send. rewrite decide_False; [done|].
    rewrite Hj4, Hq4, Hj3, Hq3, Hq1, Hq0, length_fmap, length_seq. lia. }
  simpl. rewrite Hs3, Hp3, Henq, Hsend.
  eexists _, _. split; [reflexivity|]. simpl.
  assert (cfg_workers c3 = AtLock <$> ((λ j, mkJob id (Z.of_nat j)) <$> seq 0 n)) as Hws.
  { by rewrite Hw3, Hw2. }
  assert (length (jobs w4) = size) as Hfull.
  { by rewrite Hj4, Hj3, length_fmap, length_seq. }
  split_and!; try done.
  - by rewrite Hws, !length_fmap, length_seq.
  - rewrite Hws. apply Forall_fmap, Forall_forall. intros j _. by exists j.
  - apply (parked_stuck _ (mkJob id (Z.of_nat (n + size)))); simpl; [done| |].
    + rewrite Hfull, Hq4, Hq3, Hq1, Hq0. done.
    + rewrite Hws. apply Forall_fmap, Forall_forall. by intros j _.
Qed.

Lemma enqueueJob_send_under_lock_deadlocks_witness :
  ∃ c job,
    run (overtaking 5 100) (submitted 5 "t1" (replicate 106 "https://x/a") fresh_manager)
      = Some c ∧
    cfg_sender c = Some job ∧
    length (jobs (cfg_world c)) = 100 ∧
    length (cfg_workers c) = 5 ∧
    (∀ a, exec a c = None).
Proof.
  destruct (enqueueJob_send_under_lock_deadlocks 5 100 "t1" (replicate 106 "https://x/a")
              fresh_manager) as (c & job & Hrun & Hs & Hfull & Hn & _ & Hstuck);
    [reflexivity|reflexivity|reflexivity|lia|rewrite length_replicate; lia|].
  exists c, job. split; [exact Hrun|]. split; [exact Hs|]. split; [exact Hfull|].
  split; [exact Hn|exact Hstuck].
Defined.

(** ** DeriveFileName: colliding names *)

Lemma lastSegment_nonempty path seg :
  lastSegment path seg → seg ≠ "" → path ≠ "" ∧ path ≠ "/".
Proof.
  intros Hseg Hne. apply lastSegment_unique in Hseg. split.
  - intros ->. by subst seg.
  - intros ->. by subst seg.
Qed.

(** X21.  The index only enters the fallback name.  Two URLs whose paths end
    in the same non-empty segment without "?" get the same file name,
    whatever their indices, so two such files of one task are saved to the
    same destination; fallback names of different indices differ. *)
Theorem DeriveFileName_collisions (url_Parse : string → option URL)
    (rawURL1 rawURL2 : string) (index1 index2 : Z) :
  (∀ u1 u2 seg,
     url_Parse rawURL1 = Some u1 → url_Parse rawURL2 = Some u2 →
     lastSegment (Path u1) seg → lastSegment (Path u2) seg →
     seg ≠ "" → ¬ occurs "?" seg →
     DeriveFileName url_Parse rawURL1 index1 = seg ∧
     DeriveFileName url_Parse rawURL2 index2 = seg) ∧
  (fallbackName index1 = fallbackName index2 → index1 = index2).
Proof.
  split.
  - assert (∀ rawURL index u seg,
      url_Parse rawURL = Some u → lastSegment (Path u) seg → seg ≠ "" →
      ¬ occurs "?" seg → DeriveFileName url_Parse rawURL index = seg) as Hone.
    { intros rawURL index u seg Hu Hseg Hne Hq.
      destruct (lastSegment_nonempty _ _ Hseg Hne) as [H1 H2].
      apply lastSegment_unique in Hseg. unfold DeriveFileName. rewrite Hu.
      rewrite bool_decide_eq_false_2 by done.
      rewrite bool_decide_eq_false_2 by done. simpl. rewrite <- Hseg.
      assert (strings_Index seg "?" = (-1)%Z) as ->.
      { destruct (decide (strings_Index seg "?" = (-1)%Z)) as [|Hi]; [done|].
        destruct (strings_Index_present seg "?" Hi) as [_ (rest & Hrest)].
        exfalso. apply Hq. rewrite Hrest, occurs_append. right. simpl. by left. }
      repeat case_bool_decide; done. }
    intros u1 u2 seg Hu1 Hu2 Hs1 Hs2 Hne Hq. split; eapply Hone; eauto.
  - unfold fallbackName. intros Heq.
    assert (∀ a b c : string, a +:+ b = a +:+ c → b = c) as Hcancel.
    { induction a as [|x a IH]; intros b c; [done|].
      rewrite !append_cons. intros [= H]. by apply IH. }
    apply Hcancel in Heq. by apply (inj pretty).
Qed.

Lemma DeriveFileName_collisions_witness :
  DeriveFileName url_Parse_simple "https://x/a/f.zip" 0 = "f.zip" ∧
  DeriveFileName url_Parse_simple "https://y/b/f.zip" 1 = "f.zip".
Proof.
  destruct (DeriveFileName_collisions url_Parse_simple "https://x/a/f.zip"
              "https://y/b/f.zip" 0 1) as [Hsame _].
  apply (Hsame (mkURL "/a/f.zip") (mkURL "/b/f.zip") "f.zip"); try reflexivity.
  - split; [simpl; intros [H|[H|[H|[H|[H|H]]]]]; done|]. right. by exists "/a".
  - split; [simpl; intros [H|[H|[H|[H|[H|H]]]]]; done|]. right. by exists "/b".
  - done.
  - simpl. intros [H|[H|[H|[H|[H|H]]]]]; done.
Defined.

(** ** A submission that fits *)

Lemma enqueueJob_Returns_jobs id idx w w' :
  enqueueJob id idx w = Returns () w' →
  queueSize w' = queueSize w ∧ (length (jobs w') ≤ S (length (jobs w)))%nat.
Proof.
  unfold enqueueJob.
  destruct (tasks w !! id) as [p|]; [|intros [= <-]; split; [done|lia]].
  destruct (taskObjs w !! p) as [task|]; [|done].
  destruct (fileArrays w !! Task.Files task) as [files|]; [|done].
  destruct (outOfRange idx files); [intros [= <-]; split; [done|lia]|].
  destruct (files !! Z.to_nat idx) as [f|]; [|done].
  destruct (String.eqb (FileState.Status f) "completed");
    [intros [= <-]; split; [done|lia]|].
  simpl. unfold send. case_decide; [|done]. intros [= <-]. simpl.
  rewrite length_app. simpl. split; [done|lia].
Qed.

Lemma enqueueJob_Blocks_full id idx w wb :
  enqueueJob id idx w = Blocks wb → (queueSize w ≤ length (jobs w))%nat.
Proof.
  unfold enqueueJob.
  destruct (tasks w !! id) as [p|]; [|done].
  destruct (taskObjs w !! p) as [task|]; [|done].
  destruct (fileArrays w !! Task.Files task) as [files|]; [|done].
  destruct (outOfRange idx files); [done|].
  destruct (files !! Z.to_nat idx) as [f|]; [|done].
  destruct (String.eqb (FileState.Status f) "completed"); [done|].
  simpl. unfold send. case_decide as Hroom; [done|]. simpl in Hroom. intros _. lia.
Qed.

Lemma processJob_begin_jobs job started w w' :
  processJob_begin job w = Returns started w' →
  jobs w' = jobs w ∧ queueSize w' = queueSize w.
Proof.
  unfold processJob_begin.
  destruct (tasks w !! TaskID job) as [p|]; [|by intros [= <- <-]].
  destruct (taskObjs w !! p) as [task|]; [|done].
  destruct (fileArrays w !! Task.Files task) as [files|]; [|done].
  destruct (outOfRange (FileIndex job) files); [by intros [= <- <-]|].
  destruct (files !! Z.to_nat (FileIndex job)) as [f|]; [|done].
  destruct (String.eqb (FileState.Status f) "completed"); [by intros [= <- <-]|].
  simpl. by intros [= <- <-].
Qed.

Lemma updateFileState_jobs id idx status errMsg w w' :
  updateFileState id idx status errMsg w = Returns () w' →
  jobs w' = jobs w ∧ queueSize w' = queueSize w.
Proof.
  unfold updateFileState.
  destruct (tasks w !! id) as [p|]; [|by intros [= <-]].
  destruct (taskObjs w !! p) as [task|]; [|done].
  destruct (fileArrays w !! Task.Files task) as [files|]; [|done].
  destruct (outOfRange idx files); [by intros [= <-]|].
  simpl. by intros [= <-].
Qed.

Lemma GetTask_jobs id r w w' :
  GetTask id w = Returns r w' → jobs w' = jobs w ∧ queueSize w' = queueSize w.
Proof.
  unfold GetTask.
  destruct (tasks w !! id) as [p|]; [|by intros [= <- <-]].
  destruct (taskObjs w !! p) as [task|]; [|done]. simpl.
  destruct (fileArrays w !! Task.Files task) as [files|]; [|done].
  simpl. by intros [= <- <-].
Qed.

Lemma exec_roomy a c c' : roomy c → exec a c = Some c' → roomy c'.
Proof.
  intros [Hs Hroom]. unfold roomy. destruct a; simpl; rewrite ?Hs.
  - destruct (cfg_workers c !! i) as [[| |]|]; try done.
    unfold receive. destruct (jobs (cfg_world c)) as [|job rest] eqn:Hj; [done|].
    intros [= <-]. simpl in *. split; [done|lia].
  - destruct (cfg_workers c !! i) as [[|job|]|]; try done.
    destruct (processJob_begin job (cfg_world c)) as [[u|] w'| |] eqn:Hb; try done;
      intros [= <-]; simpl; apply processJob_begin_jobs in Hb as [-> ->]; done.
  - destruct (cfg_workers c !! i) as [[| |job]|]; try done.
    destruct mkdirErr as [e1|]; [|destruct downloadErr as [e2|]].
    all: match goal with
         | |- context [updateFileState ?a ?b ?s ?e ?w] =>
           destruct (updateFileState a b s e w) as [[] w'| |] eqn:Hu; try done;
           intros [= <-]; simpl; apply updateFileState_jobs in Hu as [-> ->]; done
         end.
  - destruct (cfg_pending c) as [|[id idx] rest] eqn:Hp; [done|]. simpl in Hroom.
    destruct (enqueueJob id idx (cfg_world c)) as [[] w'|wb|] eqn:He; [| |done].
    + intros [= <-]. simpl. apply enqueueJob_Returns_jobs in He as [-> Hlen].
      split; [done|lia].
    + apply enqueueJob_Blocks_full in He. lia.
  - done.
  - destruct (GetTask id (cfg_world c)) as [r w'| |] eqn:Hg; try done.
    intros [= <-]. simpl. apply GetTask_jobs in Hg as [-> ->]. done.
Qed.

Lemma touches_wf id w w' : wf w → touches id w w' → wf w'.
Proof.
  intros Hwf Ht. apply (ev_wf w).
  by apply (evolves_touches w w w' id); [apply evolves_refl|].
Qed.

Lemma exec_wf a c c' : wf (cfg_world c) → exec a c = Some c' → wf (cfg_world c').
Proof.
  intros Hwf. destruct a; simpl.
  - destruct (cfg_workers c !! i) as [[| |]|]; try done.
    unfold receive. destruct (jobs (cfg_world c)) as [|job rest]; [done|].
    intros [= <-]. simpl. by apply (wf_same_heap (cfg_world c)).
  - destruct (cfg_sender c); [done|].
    destruct (cfg_workers c !! i) as [[|job|]|]; try done.
    destruct (processJob_begin job (cfg_world c)) as [s w'| |] eqn:Hb; try done.
    assert (wf w') as Hwf'.
    { pose proof (processJob_begin_touches job (cfg_world c) w') as Ht.
      rewrite Hb in Ht. apply (touches_wf (TaskID job) (cfg_world c)); [done|].
      by apply Ht. }
    destruct s; by intros [= <-].
  - destruct (cfg_sender c); [done|].
    destruct (cfg_workers c !! i) as [[| |job]|]; try done.
    destruct mkdirErr as [e1|]; [|destruct downloadErr as [e2|]].
    all: match goal with
         | |- context [updateFileState ?a ?b ?s ?e ?w] =>
           destruct (updateFileState a b s e w) as [[] w'| |] eqn:Hu; try done;
           intros [= <-]; simpl;
           pose proof (updateFileState_touches a b s e w w') as Ht;
           rewrite Hu in Ht; apply (touches_wf a w); [done|by apply Ht]
         end.
  - destruct (cfg_sender c); [done|].
    destruct (cfg_pending c) as [|[id idx] rest]; [done|].
    pose proof (enqueueJob_touches id idx (cfg_world c)) as Ht.
    destruct (enqueueJob id idx (cfg_world c)) as [[] w'|wb|] eqn:He; [| |done].
    + intros [= <-]. simpl. apply (touches_wf id (cfg_world c)); [done|by apply Ht].
    + intros [= <-]. simpl. apply (touches_wf id (cfg_world c)); [done|by apply Ht].
  - destruct (cfg_sender c) as [job|]; [|done].
    pose proof (send_world job (cfg_world c)) as Ht.
    destruct (send job (cfg_world c)) as [[] w'| |] eqn:Hsend; try done.
    intros [= <-]. simpl. destruct (Ht w' eq_refl) as [Hsame _].
    by apply (wf_same_heap (cfg_world c)).
  - destruct (cfg_sender c); [done|].
    destruct (GetTask id (cfg_world c)) as [r w'| |] eqn:Hg; try done.
    intros [= <-]. simpl. apply (ev_wf (cfg_world c)).
    by apply (GetTask_evolves (cfg_world c) id (cfg_world c) r); [apply evolves_refl|].
Qed.

Lemma run_roomy schedule : ∀ c c',
  wf (cfg_world c) → roomy c → run schedule c = Some c' →
  wf (cfg_world c') ∧ roomy c'.
Proof.
  induction schedule as [|a schedule IH]; intros c c' Hwf Hroomy; simpl.
  - by intros [= <-].
  - destruct (exec a c) as [c1|] eqn:Ha; [|done].
    apply IH; [by apply (exec_wf a c)|by apply (exec_roomy a c)].
Qed.

(** X22.  A submission that fits never waits.  When the channel has room for
    every job [AddTask] has still to send, then in every interleaving with
    the workers and with callers of [GetTask] this stays so and no send is
    ever parked: as long as calls of [enqueueJob] are left the next one can
    be made and returns, so [AddTask] reaches its end and the mutex is never
    held across a wait. *)
Theorem submission_with_room_never_parks schedule c c' :
  wf (cfg_world c) → cfg_sender c = None →
  (length (jobs (cfg_world c)) + length (cfg_pending c) ≤ queueSize (cfg_world c))%nat →
  run schedule c = Some c' →
  cfg_sender c' = None ∧
  (length (jobs (cfg_world c')) + length (cfg_pending c')
   ≤ queueSize (cfg_world c'))%nat ∧
  (cfg_pending c' ≠ [] →
   ∃ c'', exec act_enqueue c' = Some c'' ∧ cfg_sender c'' = None ∧
          length (cfg_pending c'') < length (cfg_pending c')).
Proof.
  intros Hwf Hs Hroom Hrun.
  destruct (run_roomy schedule c c' Hwf (conj Hs Hroom) Hrun) as [Hwf' [Hs' Hroom']].
  split; [done|]. split; [done|]. intros Hp. simpl. rewrite Hs'.
  destruct (cfg_pending c') as [|[id idx] rest] eqn:Hpend; [done|]. simpl in Hroom'.
  destruct (enqueueJob id idx (cfg_world c')) as [[] w'|wb|] eqn:He.
  - eexists. split; [reflexivity|]. simpl. split; [done|lia].
  - apply enqueueJob_Blocks_full in He. lia.
  - by destruct (enqueueJob_no_panic id idx (cfg_world c') Hwf').
Qed.

Lemma submission_with_room_never_parks_witness :
  ∃ c',
    run [act_enqueue; act_receive 0; act_begin 0; act_enqueue; act_get "t1";
         act_finish 0 None (Some "boom")]
        (submitted 1 "t1" ["https://x/a"; "https://x/b"; "https://x/c"] fresh_manager)
      = Some c' ∧
    cfg_sender c' = None ∧
    ∃ c'', exec act_enqueue c' = Some c'' ∧ cfg_sender c'' = None.
Proof.
  assert (∃ c',
    run [act_enqueue; act_receive 0; act_begin 0; act_enqueue; act_get "t1";
         act_finish 0 None (Some "boom")]
        (submitted 1 "t1" ["https://x/a"; "https://x/b"; "https://x/c"] fresh_manager)
      = Some c' ∧ cfg_pending c' ≠ []) as (c' & Hrun & Hp).
  { eexists. split; [vm_compute; reflexivity|]. vm_compute. discriminate. }
  assert (wf (cfg_world (submitted 1 "t1" ["https://x/a"; "https://x/b"; "https://x/c"]
                                   fresh_manager))) as Hwf.
  { apply (ev_wf fresh_manager). apply registerTask_evolves, evolves_refl.
    apply NewManager_wf. }
  assert (length (jobs (cfg_world (submitted 1 "t1"
                                     ["https://x/a"; "https://x/b"; "https://x/c"]
                                     fresh_manager))) +
          length (cfg_pending (submitted 1 "t1"
                                 ["https://x/a"; "https://x/b"; "https://x/c"]
                                 fresh_manager))
          ≤ queueSize (cfg_world (submitted 1 "t1"
                                    ["https://x/a"; "https://x/b"; "https://x/c"]
                                    fresh_manager)))%nat as Hroom
    by (vm_compute; lia).
  destruct (submission_with_room_never_parks _ _ c' Hwf eq_refl Hroom Hrun)
    as (Hs & _ & Hnext).
  exists c'. split; [exact Hrun|]. split; [exact Hs|].
  destruct (Hnext Hp) as (c'' & Hexec & Hs'' & _).
  exists c''. split; [exact Hexec|exact Hs''].
Defined.
